(** * CodeSandbox MCP server: the guard layer

    A shallow embedding of the four guards of the gateway
    (request validator, error sanitizer, rate limiter, audit logger)
    together with the properties of the specification that concern them.

    Conventions of the embedding.
    - A JavaScript string is a Rocq [string]; one Rocq character stands for
      one UTF-16 code unit in the range 0..255.
    - A JavaScript number that holds a time stamp, a counter or a duration
      is an integer ([Z]); [Date.now()] is an explicit argument [now].
    - A function that may throw returns a [Result]. *)

From Stdlib Require Import ZArith NArith Lia Bool List Ascii String.
From Stdlib Require Import DecimalString DecimalZ.
From stdpp Require Import base option list gmap strings.

Local Open Scope string_scope.
Local Open Scope Z_scope.
Local Open Scope list_scope.

(** ** Results of functions that may throw *)

Inductive Result (E A : Type) : Type :=
| Ok (a : A)
| Throw (e : E).
Arguments Ok {E A} a.
Arguments Throw {E A} e.

(** ** JavaScript strings *)

Module JsString.

Definition chars (s : string) : list ascii := list_ascii_of_string s.
Definition of_chars (l : list ascii) : string := string_of_list_ascii l.

Definition char_code (c : ascii) : N := N_of_ascii c.

Definition ascii_eqb (a b : ascii) : bool := Ascii.eqb a b.

(** [String.prototype.startsWith], on character lists. *)
Fixpoint starts_with (p s : list ascii) : bool :=
  match p, s with
  | [], _ => true
  | _ :: _, [] => false
  | a :: p', b :: s' => ascii_eqb a b && starts_with p' s'
  end.

(** [String.prototype.includes], on character lists. *)
Fixpoint includes_chars (s sub : list ascii) : bool :=
  starts_with sub s ||
  match s with
  | [] => false
  | _ :: s' => includes_chars s' sub
  end.

Definition startsWith (s p : string) : bool := starts_with (chars p) (chars s).
Definition includes (s sub : string) : bool := includes_chars (chars s) (chars sub).

Definition is_upper (c : ascii) : bool := ((65 <=? char_code c) && (char_code c <=? 90))%N.
Definition is_lower (c : ascii) : bool := ((97 <=? char_code c) && (char_code c <=? 122))%N.
Definition is_digit (c : ascii) : bool := ((48 <=? char_code c) && (char_code c <=? 57))%N.
Definition is_alpha (c : ascii) : bool := is_upper c || is_lower c.

(** [toLowerCase] on one code unit of the range 0..255: the letters A-Z
    and the Latin-1 capitals U+00C0..U+00DE (U+00D7 apart). *)
Definition lower_char (c : ascii) : ascii :=
  let n := char_code c in
  if is_upper c then ascii_of_N (n + 32)
  else if ((192 <=? n) && (n <=? 222) && negb (n =? 215))%N then ascii_of_N (n + 32)
  else c.

Definition toLowerCase (s : string) : string := of_chars (map lower_char (chars s)).

(** White space of the regular-expression class [\s], within 0..255. *)
Definition is_space (c : ascii) : bool :=
  let n := char_code c in
  (((9 <=? n) && (n <=? 13)) || (n =? 32) || (n =? 160))%N.

(** Word characters of [\b] and [\w]. *)
Definition is_word (c : ascii) : bool :=
  is_alpha c || is_digit c || ascii_eqb c "_".

(** Decimal rendering of an integer, as template literals and
    [JSON.stringify] print it. *)
Definition dec_of_Z (n : Z) : string := NilEmpty.string_of_int (Z.to_int n).

#[global] Arguments ascii_eqb : simpl never.
#[global] Arguments is_alpha : simpl never.
#[global] Arguments is_digit : simpl never.
#[global] Arguments is_space : simpl never.
#[global] Arguments is_word : simpl never.
#[global] Arguments lower_char : simpl never.

Lemma chars_of_chars l : chars (of_chars l) = l.
Proof. apply list_ascii_of_string_of_list_ascii. Qed.

Lemma of_chars_chars s : of_chars (chars s) = s.
Proof. apply string_of_list_ascii_of_string. Qed.

Lemma chars_append s t : chars (s +:+ t) = chars s ++ chars t.
Proof.
  unfold chars. induction s as [|c s IH]; simpl; [reflexivity|].
  rewrite IH. reflexivity.
Qed.

Lemma chars_inj s t : chars s = chars t -> s = t.
Proof.
  intros H. rewrite <- (of_chars_chars s), <- (of_chars_chars t), H. reflexivity.
Qed.

Lemma append_inv_tail s1 s2 t : s1 +:+ t = s2 +:+ t -> s1 = s2.
Proof.
  intros H. apply chars_inj. apply (f_equal chars) in H.
  rewrite !chars_append in H. exact (app_inv_tail _ _ _ H).
Qed.

Lemma ascii_eqb_true a b : ascii_eqb a b = true <-> a = b.
Proof. apply Ascii.eqb_eq. Qed.

Lemma starts_with_app p s : starts_with p (p ++ s) = true.
Proof.
  induction p as [|a p IH]; simpl; [reflexivity|].
  unfold ascii_eqb. rewrite Ascii.eqb_refl. exact IH.
Qed.

Lemma starts_with_inv p s :
  starts_with p s = true -> exists t, s = p ++ t.
Proof.
  revert s. induction p as [|a p IH]; intros s H.
  - exists s. reflexivity.
  - destruct s as [|b s]; simpl in H; [discriminate|].
    apply andb_true_iff in H as [Hab Hps].
    apply ascii_eqb_true in Hab. subst b.
    destruct (IH _ Hps) as [t ->]. exists t. reflexivity.
Qed.

Lemma includes_chars_here s sub :
  starts_with sub s = true -> includes_chars s sub = true.
Proof. intros H. destruct s; simpl; rewrite H; reflexivity. Qed.

(** [includes] holds exactly when the needle occurs somewhere. *)
Lemma includes_chars_spec s sub :
  includes_chars s sub = true <-> exists l r, s = l ++ sub ++ r.
Proof.
  split.
  - induction s as [|c s IH]; simpl; intros H.
    + rewrite orb_false_r in H. apply starts_with_inv in H as [t Ht].
      exists [], t. exact Ht.
    + apply orb_true_iff in H as [H|H].
      * apply starts_with_inv in H as [t Ht]. exists [], t. exact Ht.
      * destruct (IH H) as (l & r & ->). exists (c :: l), r. reflexivity.
  - intros (l & r & ->). induction l as [|c l IH]; simpl.
    + apply includes_chars_here, starts_with_app.
    + rewrite IH. apply orb_true_r.
Qed.

(** The characters a number is written with. *)
Definition numeric (c : ascii) : bool := is_digit c || ascii_eqb c "-".

Lemma string_of_uint_numeric d :
  Forall (fun c => numeric c = true) (chars (NilEmpty.string_of_uint d)).
Proof. induction d; simpl; constructor; (reflexivity || assumption). Qed.

Lemma dec_of_Z_numeric n :
  Forall (fun c => numeric c = true) (chars (dec_of_Z n)).
Proof.
  unfold dec_of_Z. destruct (Z.to_int n) as [d|d]; simpl.
  - apply string_of_uint_numeric.
  - constructor; [reflexivity|apply string_of_uint_numeric].
Qed.

Lemma dec_of_Z_inj n1 n2 : dec_of_Z n1 = dec_of_Z n2 -> n1 = n2.
Proof.
  unfold dec_of_Z. intros H. apply DecimalZ.to_int_inj.
  apply (f_equal NilEmpty.int_of_string) in H.
  rewrite !NilEmpty.isi in H. injection H as H. exact H.
Qed.

Lemma dec_of_Z_nonempty n : chars (dec_of_Z n) <> [].
Proof.
  intros H. assert (Hs : dec_of_Z n = "").
  { apply chars_inj. exact H. }
  unfold dec_of_Z in Hs. apply (f_equal NilEmpty.int_of_string) in Hs.
  rewrite NilEmpty.isi in Hs. simpl in Hs. injection Hs as Hs.
  apply (f_equal Z.of_int) in Hs. rewrite DecimalZ.of_to in Hs. subst n.
  vm_compute in H. discriminate H.
Qed.

End JsString.


(** ** Regular expressions

    The regular expressions of the program are few and small; they are
    embedded as syntax trees and run by a backtracking matcher that follows
    the order of ECMAScript: alternatives from left to right, greedy
    quantifiers that give characters back one at a time. *)

Module Regex.
Import JsString.

Inductive regex : Type :=
| Eps
| Chr (p : ascii -> bool)      (* one character of a class, or a literal *)
| Seq (r1 r2 : regex)
| Alt (r1 r2 : regex)          (* r1|r2 *)
| Opt (r : regex)              (* r?  *)
| Rep (min : nat) (r : regex)  (* r{min,}; r+ is Rep 1 r *)
| Bol                          (* ^ *)
| WordB                        (* \b *)
| Group (r : regex).           (* the capture group $1 *)

(** The matcher's position: the character before it (for [^] and [\b]),
    the characters still to read, and what group 1 captured. *)
Record mstate : Type := MState {
  prev : option ascii;
  rest : list ascii;
  cap : option (list ascii)
}.

Definition word_before (st : mstate) : bool :=
  match prev st with Some c => is_word c | None => false end.

Definition word_after (st : mstate) : bool :=
  match rest st with c :: _ => is_word c | [] => false end.

Fixpoint matches (r : regex) (st : mstate) (k : mstate -> option mstate)
  {struct r} : option mstate :=
  match r with
  | Eps => k st
  | Chr p =>
      match rest st with
      | c :: tl => if p c then k (MState (Some c) tl (cap st)) else None
      | [] => None
      end
  | Seq r1 r2 => matches r1 st (fun st1 => matches r2 st1 k)
  | Alt r1 r2 =>
      match matches r1 st k with
      | Some res => Some res
      | None => matches r2 st k
      end
  | Opt r1 =>
      match matches r1 st k with
      | Some res => Some res
      | None => k st
      end
  | Rep min r1 =>
      (fix loop (fuel cnt : nat) (st0 : mstate) {struct fuel} : option mstate :=
         match fuel with
         | O => None
         | S f =>
             match matches r1 st0 (fun st1 =>
                     if (min <=? cnt)%nat
                        && (length (rest st0) <=? length (rest st1))%nat
                     then None
                     else loop f (S cnt) st1) with
             | Some res => Some res
             | None => if (min <=? cnt)%nat then k st0 else None
             end
         end) (S (min + length (rest st))) O st
  | Bol => match prev st with None => k st | Some _ => None end
  | WordB => if xorb (word_before st) (word_after st) then k st else None
  | Group r1 =>
      matches r1 st (fun st1 =>
        k (MState (prev st1) (rest st1)
             (Some (take (length (rest st) - length (rest st1)) (rest st)))))
  end.

(** A literal, and a literal under the [i] flag. *)
Definition ci_eqb (a b : ascii) : bool :=
  ascii_eqb a b
  || (is_alpha a && is_alpha b
      && (N.lor (char_code a) 32 =? N.lor (char_code b) 32)%N).

Fixpoint lit_chars (eq : ascii -> ascii -> bool) (l : list ascii) : regex :=
  match l with
  | [] => Eps
  | c :: l' => Seq (Chr (eq c)) (lit_chars eq l')
  end.

Definition lit (s : string) : regex := lit_chars ascii_eqb (chars s).
Definition lit_ci (s : string) : regex := lit_chars ci_eqb (chars s).

Definition match_at (r : regex) (p : option ascii) (s : list ascii) : option mstate :=
  matches r (MState p s None) Some.

(** What a search found: the text skipped before the match, the match,
    group 1, and the position after the match. *)
Record found : Type := Found {
  before : list ascii;
  matched : list ascii;
  group1 : option (list ascii);
  after : mstate
}.

Fixpoint search (r : regex) (p : option ascii) (s : list ascii) {struct s}
  : option found :=
  match match_at r p s with
  | Some st =>
      Some (Found [] (take (length s - length (rest st)) s) (cap st) st)
  | None =>
      match s with
      | [] => None
      | c :: tl =>
          match search r (Some c) tl with
          | Some fd => Some (Found (c :: before fd) (matched fd) (group1 fd) (after fd))
          | None => None
          end
      end
  end.

(** [RegExp.prototype.test] of a regular expression without the [g] flag. *)
Definition test (r : regex) (s : string) : bool :=
  match search r None (chars s) with Some _ => true | None => false end.

(** A replacement string: literal text and [$1]. *)
Inductive piece : Type :=
| Text (s : string)
| Dollar1.

Definition expand (tpl : list piece) (fd : found) : list ascii :=
  flat_map (fun p => match p with
                     | Text s => chars s
                     | Dollar1 => default [] (group1 fd)
                     end) tpl.

(** [String.prototype.replace] with a regular expression under the [g]
    flag: every match from left to right, the search resuming where the
    last match ended (one character further after an empty match). *)
Fixpoint replace_from (fuel : nat) (r : regex) (tpl : list piece)
  (p : option ascii) (s : list ascii) {struct fuel} : list ascii :=
  match fuel with
  | O => s
  | S f =>
      match search r p s with
      | None => s
      | Some fd =>
          before fd ++ expand tpl fd ++
          match matched fd with
          | [] =>
              match rest (after fd) with
              | [] => []
              | c :: tl => c :: replace_from f r tpl (Some c) tl
              end
          | _ :: _ => replace_from f r tpl (prev (after fd)) (rest (after fd))
          end
      end
  end.

Definition replace_all (r : regex) (tpl : list piece) (s : string) : string :=
  of_chars (replace_from (S (length (chars s))) r tpl None (chars s)).

(** [RegExp.prototype.test] of [/^r$/]: the match starts at the first
    character and may only end where the text ends. *)
Definition at_end (st : mstate) : option mstate :=
  match rest st with [] => Some st | _ :: _ => None end.

Definition test_whole (r : regex) (s : string) : bool :=
  match matches r (MState None (chars s) None) at_end with
  | Some _ => true
  | None => false
  end.

(** The loop of [Rep min (Chr p)], named. *)
Fixpoint rep_chr (p : ascii -> bool) (min : nat) (k : mstate -> option mstate)
  (fuel cnt : nat) (st0 : mstate) {struct fuel} : option mstate :=
  match fuel with
  | O => None
  | S f =>
      match matches (Chr p) st0 (fun st1 =>
              if (min <=? cnt)%nat && (length (rest st0) <=? length (rest st1))%nat
              then None
              else rep_chr p min k f (S cnt) st1) with
      | Some res => Some res
      | None => if (min <=? cnt)%nat then k st0 else None
      end
  end.

Lemma rep_loop_named p min k : forall fuel cnt st0,
  (fix loop (fuel cnt : nat) (st0 : mstate) {struct fuel} : option mstate :=
     match fuel with
     | O => None
     | S f =>
         match matches (Chr p) st0 (fun st1 =>
                 if (min <=? cnt)%nat
                    && (length (rest st0) <=? length (rest st1))%nat
                 then None
                 else loop f (S cnt) st1) with
         | Some res => Some res
         | None => if (min <=? cnt)%nat then k st0 else None
         end
     end) fuel cnt st0
  = rep_chr p min k fuel cnt st0.
Proof.
  induction fuel as [|f IH]; intros cnt st0; [reflexivity|].
  destruct st0 as [pv [|c tl] cp]; cbn [matches rest rep_chr cap prev];
    [reflexivity|].
  destruct (p c); [|reflexivity].
  match goal with |- context [if ?b then None else _] => destruct b end;
    [reflexivity|].
  rewrite IH. reflexivity.
Qed.

Lemma matches_rep_chr p min st k :
  matches (Rep min (Chr p)) st k = rep_chr p min k (S (min + length (rest st))) O st.
Proof. exact (rep_loop_named p min k (S (min + length (rest st))) O st). Qed.

Definition succeeds (o : option mstate) : bool :=
  match o with Some _ => true | None => false end.

(** Up to the end of the text, a repeated class matches exactly when every
    character is in the class and there are enough of them. *)
Lemma rep_chr_at_end p min : forall l fuel cnt pv cp,
  (length l < fuel)%nat ->
  succeeds (rep_chr p min at_end fuel cnt (MState pv l cp))
  = forallb p l && (min <=? cnt + length l)%nat.
Proof.
  induction l as [|c tl IH]; intros fuel cnt pv cp Hfuel;
    (destruct fuel as [|f]; [simpl in Hfuel; lia|]);
    cbn [rep_chr matches rest cap prev forallb].
  - cbn [length at_end rest]. rewrite Nat.add_0_r.
    destruct (min <=? cnt)%nat; reflexivity.
  - destruct (p c) eqn:Hc; cbn [andb].
    + assert (Hfalse : (length (c :: tl) <=? length tl)%nat = false)
        by (apply Nat.leb_gt; simpl; lia).
      rewrite Hfalse, andb_false_r.
      specialize (IH f (S cnt) (Some c) cp ltac:(simpl in Hfuel; lia)).
      replace (cnt + length (c :: tl))%nat with (S cnt + length tl)%nat
        by (simpl; lia).
      rewrite <- IH.
      destruct (rep_chr p min at_end f (S cnt) (MState (Some c) tl cp)); [reflexivity|].
      destruct (min <=? cnt)%nat; reflexivity.
    + destruct (min <=? cnt)%nat; reflexivity.
Qed.

Lemma test_whole_class p min s :
  test_whole (Rep min (Chr p)) s
  = forallb p (chars s) && (min <=? length (chars s))%nat.
Proof.
  unfold test_whole. rewrite matches_rep_chr. simpl rest.
  change (match ?o with Some _ => true | None => false end) with (succeeds o).
  rewrite rep_chr_at_end by lia. reflexivity.
Qed.

(** *** Expressions that start with a literal *)

(** The text starts with the word, characters compared by [eq]. *)
Fixpoint led_by (eq : ascii -> ascii -> bool) (w s : list ascii) : bool :=
  match w, s with
  | [], _ => true
  | _ :: _, [] => false
  | a :: w', c :: s' => eq a c && led_by eq w' s'
  end.

Lemma lit_chars_led eq w : forall st k res,
  matches (lit_chars eq w) st k = Some res -> led_by eq w (rest st) = true.
Proof.
  induction w as [|a w IH]; intros st k res H; [reflexivity|].
  cbn [lit_chars matches] in H. destruct st as [pv [|c tl] cp]; cbn [rest cap] in *;
    [discriminate H|].
  cbn [led_by]. destruct (eq a c); [|discriminate H].
  apply IH in H. exact H.
Qed.

(** Where no position of a text passes the test [q], an expression that
    needs [q] at the start of a match finds nothing, and replacing its
    matches changes nothing. *)
Lemma search_nowhere r (q : list ascii -> bool) :
  (forall p s, q s = false -> match_at r p s = None) ->
  forall s p,
    (forall pre post, s = pre ++ post -> q post = false) ->
    search r p s = None.
Proof.
  intros Hneeds. induction s as [|c tl IH]; intros p Hno; cbn [search].
  - rewrite (Hneeds p [] (Hno [] [] eq_refl)). reflexivity.
  - rewrite (Hneeds p (c :: tl) (Hno [] (c :: tl) eq_refl)).
    rewrite IH; [reflexivity|].
    intros pre post ->. apply (Hno (c :: pre) post). reflexivity.
Qed.

Lemma replace_all_no_match r tpl s :
  search r None (chars s) = None -> replace_all r tpl s = s.
Proof.
  intros H. unfold replace_all. cbn [replace_from]. rewrite H.
  apply of_chars_chars.
Qed.

(** A lower-case letter matches, under the [i] flag, only characters that
    [toLowerCase] maps to it. *)
Definition all_ascii : list ascii := map ascii_of_nat (seq 0 256).

Lemma in_all_ascii c : In c all_ascii.
Proof.
  rewrite <- (ascii_nat_embedding c). apply in_map, in_seq.
  pose proof (nat_ascii_bounded c). lia.
Qed.

Lemma ci_eqb_lower a c :
  is_lower a = true -> ci_eqb a c = true -> lower_char c = a.
Proof.
  assert (Hall : forallb (fun a => forallb (fun c =>
                   implb (is_lower a && ci_eqb a c) (ascii_eqb (lower_char c) a))
                   all_ascii) all_ascii = true) by (vm_compute; reflexivity).
  intros Ha Hc.
  pose proof (proj1 (forallb_forall _ _) Hall a (in_all_ascii a)) as Hrow.
  pose proof (proj1 (forallb_forall _ _) Hrow c (in_all_ascii c)) as Hcell.
  cbv beta in Hcell. rewrite Ha, Hc in Hcell. cbn [andb implb] in Hcell.
  apply ascii_eqb_true. exact Hcell.
Qed.

Lemma led_by_ci_lower w : forall s,
  forallb is_lower w = true ->
  led_by ci_eqb w s = true -> starts_with w (map lower_char s) = true.
Proof.
  induction w as [|a w IH]; intros s Hw H; [reflexivity|].
  destruct s as [|c s]; [discriminate H|].
  cbn [forallb] in Hw. apply andb_true_iff in Hw as [Ha Hw].
  cbn [led_by] in H. apply andb_true_iff in H as [Hac H].
  cbn [map starts_with]. rewrite (ci_eqb_lower a c Ha Hac).
  unfold ascii_eqb at 1. rewrite Ascii.eqb_refl. apply IH; assumption.
Qed.

(** A text whose lower-case form does not include the word has no position
    where the word starts, in any case of its letters. *)
Lemma not_included_nowhere w s :
  forallb is_lower w = true ->
  includes_chars (map lower_char s) w = false ->
  forall pre post, s = pre ++ post -> led_by ci_eqb w post = false.
Proof.
  intros Hw Hno pre post ->.
  destruct (led_by ci_eqb w post) eqn:Hled; [|reflexivity].
  apply (led_by_ci_lower w post Hw) in Hled.
  apply starts_with_inv in Hled as [t Ht].
  assert (Hin : includes_chars (map lower_char (pre ++ post)) w = true).
  { apply includes_chars_spec. exists (map lower_char pre), t.
    rewrite map_app, Ht. reflexivity. }
  congruence.
Qed.

Lemma led_by_eqb w : forall s, led_by ascii_eqb w s = starts_with w s.
Proof.
  induction w as [|a w IH]; intros [|c s]; cbn [led_by starts_with];
    try reflexivity. rewrite IH. reflexivity.
Qed.

Lemma not_included_nowhere_exact w s :
  includes_chars s w = false ->
  forall pre post, s = pre ++ post -> led_by ascii_eqb w post = false.
Proof.
  intros Hno pre post ->. rewrite led_by_eqb.
  destruct (starts_with w post) eqn:Hw; [|reflexivity].
  apply starts_with_inv in Hw as [t ->].
  assert (Hin : includes_chars (pre ++ w ++ t) w = true)
    by (apply includes_chars_spec; exists pre, t; reflexivity).
  congruence.
Qed.

(** *** Runs of characters of a class *)

(** The text starts with [n] characters of the class. *)
Fixpoint run_at (p : ascii -> bool) (n : nat) (s : list ascii) : bool :=
  match n with
  | O => true
  | S n' =>
      match s with
      | c :: s' => p c && run_at p n' s'
      | [] => false
      end
  end.

(** Somewhere the text has [n] characters of the class in a row. *)
Fixpoint has_run (p : ascii -> bool) (n : nat) (s : list ascii) : bool :=
  run_at p n s ||
  match s with
  | [] => false
  | _ :: s' => has_run p n s'
  end.

Lemma rep_chr_run p min k : forall fuel cnt st res,
  rep_chr p min k fuel cnt st = Some res ->
  run_at p (min - cnt) (rest st) = true.
Proof.
  induction fuel as [|f IH]; intros cnt st res H; [discriminate H|].
  cbn [rep_chr matches] in H.
  assert (Hdone : (if (min <=? cnt)%nat then k st else None) = Some res ->
                  run_at p (min - cnt) (rest st) = true).
  { destruct (Nat.leb_spec min cnt) as [Hle|Hlt]; [|intros Hn; discriminate Hn].
    intros _. replace (min - cnt)%nat with O by lia. reflexivity. }
  destruct st as [pv [|c tl] cp]; cbn [rest cap] in *; [exact (Hdone H)|].
  destruct (p c) eqn:Hc; [|exact (Hdone H)].
  destruct ((min <=? cnt)%nat && (length (c :: tl) <=? length tl)%nat) eqn:Hstop.
  - exact (Hdone H).
  - destruct (rep_chr p min k f (S cnt) (MState (Some c) tl cp)) as [res'|] eqn:Hrec;
      [|exact (Hdone H)].
    apply IH in Hrec. cbn [rest] in Hrec.
    destruct (min - cnt)%nat as [|n] eqn:Hn; [reflexivity|].
    cbn [run_at]. rewrite Hc. replace n with (min - S cnt)%nat by lia. exact Hrec.
Qed.

Lemma matches_seq r1 r2 st k :
  matches (Seq r1 r2) st k = matches r1 st (fun st1 => matches r2 st1 k).
Proof. reflexivity. Qed.

Lemma matches_wordb st k :
  matches WordB st k = if xorb (word_before st) (word_after st) then k st else None.
Proof. reflexivity. Qed.

Lemma rep_chr_needs_run p min st k res :
  matches (Rep min (Chr p)) st k = Some res -> run_at p min (rest st) = true.
Proof.
  rewrite matches_rep_chr. intros H. apply rep_chr_run in H.
  rewrite Nat.sub_0_r in H. exact H.
Qed.

Lemma no_run_nowhere p n : forall s,
  has_run p n s = false ->
  forall pre post, s = pre ++ post -> run_at p n post = false.
Proof.
  intros s H pre. revert s H. induction pre as [|c pre IH]; intros s H post ->.
  - destruct post; cbn [app has_run] in H; apply orb_false_iff in H as [H _]; exact H.
  - cbn [app has_run] in H. apply orb_false_iff in H as [_ H].
    exact (IH _ H post eq_refl).
Qed.

(** *** What a match consumes *)

(** The matcher's position [n] characters further. *)
Fixpoint consume (n : nat) (st : mstate) : mstate :=
  match n with
  | O => st
  | S n' =>
      match rest st with
      | c :: tl => consume n' (MState (Some c) tl (cap st))
      | [] => st
      end
  end.

Lemma consume_rest : forall n st, rest (consume n st) = drop n (rest st).
Proof.
  induction n as [|n IH]; intros st; [reflexivity|].
  cbn [consume]. destruct st as [pv [|c tl] cp]; cbn [rest cap]; [reflexivity|].
  rewrite IH. reflexivity.
Qed.

(** A literal matches exactly when the text starts with it, and goes on
    after its last character. *)
Lemma lit_chars_matches eq w : forall st k,
  matches (lit_chars eq w) st k
  = if led_by eq w (rest st) then k (consume (length w) st) else None.
Proof.
  induction w as [|a w IH]; intros st k; [reflexivity|].
  cbn [lit_chars]. rewrite matches_seq. cbn [matches length consume led_by].
  destruct st as [pv [|c tl] cp]; cbn [rest cap]; [reflexivity|].
  destruct (eq a c); [|reflexivity]. cbn [andb]. rewrite IH. reflexivity.
Qed.

(** Whatever a repeated class hands to what follows it is a position
    further on in the same text. *)
Lemma rep_chr_suffix p min k : forall fuel cnt st res,
  rep_chr p min k fuel cnt st = Some res ->
  exists st', (exists m, rest st = m ++ rest st') /\ k st' = Some res.
Proof.
  induction fuel as [|f IH]; intros cnt st res H; [discriminate H|].
  cbn [rep_chr matches] in H.
  assert (Hhere : (if (min <=? cnt)%nat then k st else None) = Some res ->
                  exists st', (exists m, rest st = m ++ rest st') /\ k st' = Some res).
  { destruct (min <=? cnt)%nat; [|intros Hn; discriminate Hn].
    intros Hk. exists st. split; [exists []; reflexivity|exact Hk]. }
  destruct st as [pv [|c tl] cp]; cbn [rest cap] in *; [exact (Hhere H)|].
  destruct (p c); [|exact (Hhere H)].
  destruct ((min <=? cnt)%nat && (length (c :: tl) <=? length tl)%nat);
    [exact (Hhere H)|].
  destruct (rep_chr p min k f (S cnt) (MState (Some c) tl cp)) as [res'|] eqn:Hrec;
    [|exact (Hhere H)].
  injection H as <-. apply IH in Hrec as (st' & [m Hm] & Hk). cbn [rest] in Hm.
  exists st'. split; [exists (c :: m); rewrite Hm; reflexivity|exact Hk].
Qed.

(** A repeated class that may stop anywhere succeeds once it has read
    enough. *)
Lemma rep_chr_enough p min : forall fuel cnt st,
  (min <= cnt)%nat -> (1 <= fuel)%nat ->
  succeeds (rep_chr p min Some fuel cnt st) = true.
Proof.
  intros [|f] cnt st Hmin Hfuel; [lia|]. cbn [rep_chr].
  destruct (matches (Chr p) st _); [reflexivity|].
  destruct (Nat.leb_spec min cnt); [reflexivity|lia].
Qed.

Lemma rep_one_succeeds p st :
  succeeds (matches (Rep 1 (Chr p)) st Some)
  = match rest st with c :: _ => p c | [] => false end.
Proof.
  rewrite matches_rep_chr.
  remember (1 + length (rest st))%nat as f eqn:Hf.
  cbn [rep_chr matches].
  destruct st as [pv [|c tl] cp]; cbn [rest cap] in *; [reflexivity|].
  destruct (p c); [|reflexivity]. cbn [Nat.leb andb].
  pose proof (rep_chr_enough p 1 f 1 (MState (Some c) tl cp)
                ltac:(lia) ltac:(lia)) as H.
  destruct (rep_chr p 1 Some f 1 (MState (Some c) tl cp));
    [reflexivity|discriminate H].
Qed.

(** A text that goes on with characters of one class and then with a
    character of another. *)
Fixpoint after_run (p q : ascii -> bool) (s : list ascii) : bool :=
  match s with
  | c :: s' => if p c then after_run p q s' else q c
  | [] => false
  end.

Definition run_then (p q : ascii -> bool) (s : list ascii) : bool :=
  match s with
  | c :: s' => p c && after_run p q s'
  | [] => false
  end.

(** One class repeated, then something that needs a character of another
    class which shares no character with the first: the match succeeds
    exactly when the text has at least one character of the first class and
    the first character after them is of the second. *)
Lemma rep_then_class p q k :
  (forall c, p c = true -> q c = false) ->
  (forall st, succeeds (k st) = match rest st with c :: _ => q c | [] => false end) ->
  forall l fuel cnt pv cp,
    (length l < fuel)%nat ->
    succeeds (rep_chr p 1 k fuel cnt (MState pv l cp))
    = if (1 <=? cnt)%nat then after_run p q l else run_then p q l.
Proof.
  intros Hdisjoint Hk. induction l as [|c tl IH]; intros fuel cnt pv cp Hfuel;
    (destruct fuel as [|f]; [simpl in Hfuel; lia|]);
    cbn [rep_chr matches rest cap after_run run_then].
  - destruct (1 <=? cnt)%nat; [|reflexivity]. rewrite Hk. reflexivity.
  - destruct (p c) eqn:Hc.
    + assert (Hfalse : (length (c :: tl) <=? length tl)%nat = false)
        by (apply Nat.leb_gt; simpl; lia).
      rewrite Hfalse, andb_false_r.
      specialize (IH f (S cnt) (Some c) cp ltac:(simpl in Hfuel; lia)).
      cbn [Nat.leb] in IH.
      destruct (rep_chr p 1 k f (S cnt) (MState (Some c) tl cp)) as [res|].
      * cbn [succeeds] in *. rewrite <- IH. destruct (1 <=? cnt)%nat; reflexivity.
      * cbn [succeeds] in IH. rewrite <- IH.
        destruct (1 <=? cnt)%nat; [|reflexivity].
        rewrite Hk. cbn [rest]. rewrite (Hdisjoint c Hc). reflexivity.
    + destruct (1 <=? cnt)%nat; [|reflexivity].
      rewrite Hk. reflexivity.
Qed.

(** *** Continuations that only move forward *)

(** Whatever [k] returns is a position further on in the text it was
    given. *)
Definition advances (k : mstate -> option mstate) : Prop :=
  forall st res, k st = Some res -> exists m, rest st = m ++ rest res.

Lemma advances_some : advances Some.
Proof. intros st res H. injection H as <-. exists []. reflexivity. Qed.

Lemma advances_seq r1 r2 k :
  advances (fun st => matches r1 st (fun st1 => matches r2 st1 k)) ->
  advances (fun st => matches (Seq r1 r2) st k).
Proof. intros H. exact H. Qed.

Lemma advances_lit eq w k :
  advances k -> advances (fun st => matches (lit_chars eq w) st k).
Proof.
  intros Hk st res H. rewrite lit_chars_matches in H.
  destruct (led_by eq w (rest st)); [|discriminate H].
  apply Hk in H as [m Hm]. rewrite consume_rest in Hm.
  exists (take (length w) (rest st) ++ m).
  rewrite <- app_assoc, <- Hm, take_drop. reflexivity.
Qed.

Lemma advances_rep_chr p min k :
  advances k -> advances (fun st => matches (Rep min (Chr p)) st k).
Proof.
  intros Hk st res H. rewrite matches_rep_chr in H.
  apply rep_chr_suffix in H as (st' & [m Hm] & H).
  apply Hk in H as [m' Hm']. exists (m ++ m').
  rewrite Hm, Hm', app_assoc. reflexivity.
Qed.

Lemma matches_opt_chr u st k :
  matches (Opt (Chr u)) st k
  = match rest st with
    | c :: tl =>
        if u c
        then match k (MState (Some c) tl (cap st)) with
             | Some res => Some res
             | None => k st
             end
        else k st
    | [] => k st
    end.
Proof.
  cbn [matches]. destruct (rest st) as [|c tl]; [reflexivity|].
  destruct (u c); reflexivity.
Qed.

Lemma advances_opt_chr u k :
  advances k -> advances (fun st => matches (Opt (Chr u)) st k).
Proof.
  intros Hk st res H. rewrite matches_opt_chr in H.
  destruct st as [pv [|c tl] cp]; cbn [rest cap] in *; [exact (Hk _ _ H)|].
  destruct (u c); [|exact (Hk _ _ H)].
  destruct (k (MState (Some c) tl cp)) as [res'|] eqn:Hnext; [|exact (Hk _ _ H)].
  injection H as <-. apply Hk in Hnext as [m Hm]. cbn [rest] in Hm.
  exists (c :: m). rewrite Hm. reflexivity.
Qed.

(** A literal of at least one character, followed by something that only
    moves forward, consumes at least one character. *)
Lemma lit_chars_consumes eq a w k st res :
  advances k ->
  matches (lit_chars eq (a :: w)) st k = Some res ->
  exists m, m <> [] /\ rest st = m ++ rest res.
Proof.
  intros Hk H. rewrite lit_chars_matches in H.
  destruct (led_by eq (a :: w) (rest st)) eqn:Hled; [|discriminate H].
  apply Hk in H as [m Hm]. rewrite consume_rest in Hm.
  exists (take (length (a :: w)) (rest st) ++ m). split.
  - destruct (rest st) as [|c tl]; [discriminate Hled|].
    cbn [length take app]. discriminate.
  - rewrite <- app_assoc, <- Hm, take_drop. reflexivity.
Qed.

Lemma succeeds_or_else a b :
  succeeds (match a with Some res => Some res | None => b end)
  = succeeds a || succeeds b.
Proof. destruct a; reflexivity. Qed.

(** *** What a search finds *)

(** Facts about an expression whose matches start exactly at the texts
    that pass [starts] and are never empty. *)
Section Search.
Variable r : regex.
Variable starts : list ascii -> bool.
Hypothesis starts_spec : forall p s, succeeds (match_at r p s) = starts s.
Hypothesis consumes :
  forall p s st, match_at r p s = Some st -> exists m, m <> [] /\ s = m ++ rest st.

Lemma search_none_iff : forall s p,
  search r p s = None <-> (forall pre post, s = pre ++ post -> starts post = false).
Proof.
  induction s as [|c tl IH]; intros p; cbn [search];
    pose proof (starts_spec p) as Hs.
  - specialize (Hs []). destruct (match_at r p []); cbn [succeeds] in Hs; split.
    + intros H. discriminate H.
    + intros H. rewrite (H [] [] eq_refl) in Hs. discriminate Hs.
    + intros _ pre post Heq. symmetry in Heq. apply app_eq_nil in Heq as [-> ->].
      symmetry. exact Hs.
    + reflexivity.
  - specialize (Hs (c :: tl)).
    destruct (match_at r p (c :: tl)); cbn [succeeds] in Hs; split.
    + intros H. discriminate H.
    + intros H. rewrite (H [] (c :: tl) eq_refl) in Hs. discriminate Hs.
    + intros H pre post Heq.
      destruct (search r (Some c) tl) eqn:Hrec; [discriminate H|].
      destruct pre as [|c' pre]; cbn [app] in Heq.
      * subst post. symmetry. exact Hs.
      * injection Heq as -> ->. exact (proj1 (IH (Some c')) Hrec pre post eq_refl).
    + intros H.
      assert (Hrec : search r (Some c) tl = None).
      { apply IH. intros pre post ->. exact (H (c :: pre) post eq_refl). }
      rewrite Hrec. reflexivity.
Qed.

(** The match a search finds is the leftmost one: no match starts in the
    text before it. *)
Lemma search_some : forall s p fd,
  search r p s = Some fd ->
  matched fd <> []
  /\ s = before fd ++ matched fd ++ rest (after fd)
  /\ starts (matched fd ++ rest (after fd)) = true
  /\ (forall pre c post, before fd = pre ++ c :: post ->
        starts (c :: post ++ matched fd ++ rest (after fd)) = false).
Proof.
  assert (Hhere : forall s p st, match_at r p s = Some st ->
            let fd := Found [] (take (length s - length (rest st)) s) (cap st) st in
            matched fd <> []
            /\ s = before fd ++ matched fd ++ rest (after fd)
            /\ starts (matched fd ++ rest (after fd)) = true
            /\ (forall pre c post, before fd = pre ++ c :: post ->
                  starts (c :: post ++ matched fd ++ rest (after fd)) = false)).
  { intros s p st Hm. cbn [matched before after app].
    destruct (consumes p s st Hm) as (m & Hne & Heq).
    assert (Htake : take (length s - length (rest st)) s = m).
    { rewrite Heq at 2. rewrite Heq at 1. rewrite length_app.
      replace (length m + length (rest st) - length (rest st))%nat with (length m) by lia.
      rewrite take_app_length. reflexivity. }
    rewrite Htake. split; [exact Hne|]. split; [exact Heq|]. split.
    - rewrite <- Heq, <- (starts_spec p s), Hm. reflexivity.
    - intros pre c post Hnil. destruct pre; discriminate Hnil. }
  induction s as [|c tl IH]; intros p fd H; cbn [search] in H.
  - destruct (match_at r p []) as [st|] eqn:Hm; [|discriminate H].
    injection H as <-. exact (Hhere [] p st Hm).
  - destruct (match_at r p (c :: tl)) as [st|] eqn:Hm.
    + injection H as <-. exact (Hhere (c :: tl) p st Hm).
    + destruct (search r (Some c) tl) as [fd'|] eqn:Hrec; [|discriminate H].
      injection H as <-. cbn [matched before after].
      destruct (IH (Some c) fd' Hrec) as (Hne & Heq & Hst & Hleft).
      split; [exact Hne|]. split; [cbn [app]; rewrite <- Heq; reflexivity|].
      split; [exact Hst|].
      intros pre c' post Hsplit. destruct pre as [|c'' pre]; cbn [app] in Hsplit.
      * injection Hsplit as <- <-. rewrite <- Heq, <- (starts_spec p (c :: tl)), Hm.
        reflexivity.
      * injection Hsplit as _ Hsplit. exact (Hleft pre c' post Hsplit).
Qed.

(** *** A pattern that a replacement clears *)

(** The text has the pattern [held] at no position. *)
Definition free_of (held : list ascii -> bool) (s : list ascii) : Prop :=
  forall pre post, s = pre ++ post -> held post = false.

Lemma free_of_suffix held pre s : free_of held (pre ++ s) -> free_of held s.
Proof.
  intros H pre' post ->. apply (H (pre ++ pre') post). rewrite app_assoc. reflexivity.
Qed.

Variable replacement : string.
Variable held : list ascii -> bool.

(** Putting the replacement where a match started creates no occurrence
    that starts before it, *)
Hypothesis splice : forall x y o,
  starts y = true -> held (x ++ y) = false ->
  held (x ++ chars replacement ++ o) = false.
(** and none that starts inside it. *)
Hypothesis inside : forall t1 t2 o,
  chars replacement = t1 ++ t2 -> t2 <> [] -> held (t2 ++ o) = false.

(** Then replacing every match leaves no occurrence of [held], provided
    every occurrence in the text was at the start of a match. *)
Lemma replace_clears : forall fuel s p,
  (length s < fuel)%nat ->
  (forall pre post, s = pre ++ post -> held post = true -> starts post = true) ->
  free_of held (replace_from fuel r [Text replacement] p s).
Proof.
  induction fuel as [|f IH]; intros s p Hfuel Hcovered; [lia|].
  cbn [replace_from]. destruct (search r p s) as [fd|] eqn:Hsearch.
  - destruct (search_some s p fd Hsearch) as (Hne & Heq & Hst & Hleft).
    destruct (matched fd) as [|m0 m] eqn:Hm; [contradiction Hne; reflexivity|].
    set (tail := rest (after fd)) in *.
    assert (Htail : free_of held (replace_from f r [Text replacement] (prev (after fd)) tail)).
    { apply IH.
      - rewrite Heq in Hfuel. rewrite !length_app in Hfuel. cbn [length] in Hfuel. lia.
      - intros pre post Hsplit. apply (Hcovered (before fd ++ (m0 :: m) ++ pre) post).
        rewrite Heq, Hsplit, <- !app_assoc. reflexivity. }
    set (o := replace_from f r [Text replacement] (prev (after fd)) tail) in *.
    cbn [expand flat_map]. rewrite app_nil_r.
    intros pre post Hsplit.
    apply app_eq_app in Hsplit as [l [[Hb Hp]|[Hb Hp]]].
    + (* the position is in the text before the match, or at its start *)
      subst post. destruct l as [|c l].
      * cbn [app]. destruct (chars replacement) as [|t0 t] eqn:Ht.
        -- apply (Htail [] o). reflexivity.
        -- apply (inside [] (t0 :: t)); [reflexivity|discriminate].
      * apply splice with (y := (m0 :: m) ++ tail); [exact Hst|].
        destruct (held ((c :: l) ++ (m0 :: m) ++ tail)) eqn:Hheld; [|reflexivity].
        apply (Hcovered pre) in Hheld.
        -- pose proof (Hleft pre c l Hb) as Hl. cbn [app] in Hl, Hheld.
           rewrite Hl in Hheld. discriminate Hheld.
        -- rewrite Heq, Hb, <- !app_assoc. reflexivity.
    + (* the position is in the replacement or after it *)
      symmetry in Hp. apply app_eq_app in Hp as [l' [[Hr Ho]|[Hr Ho]]].
      * apply (Htail l' post). exact Ho.
      * destruct l' as [|c' l'].
        -- cbn [app] in Ho. subst post. apply (Htail [] o). reflexivity.
        -- rewrite Ho. apply (inside l (c' :: l')); [exact Hr|discriminate].
  - intros pre post Hsplit.
    destruct (held post) eqn:Hheld; [|reflexivity].
    apply (Hcovered pre post Hsplit) in Hheld.
    rewrite (proj1 (search_none_iff s p) Hsearch pre post Hsplit) in Hheld.
    discriminate Hheld.
Qed.

End Search.

End Regex.


(** ** middleware/error-handler.ts: error kinds and the message sanitizer *)

Module ErrorHandler.
Import JsString Regex.

Inductive ERROR_CODES : Type :=
| INVALID_REPO
| SANDBOX_NOT_FOUND
| GITHUB_AUTH_FAILED
| RATE_LIMIT_EXCEEDED
| INVALID_BRANCH
| PATH_TRAVERSAL
| TOKEN_EXPIRED
| SANDBOX_TIMEOUT
| FILE_SIZE_EXCEEDED
| QUOTA_EXCEEDED
| PERMISSION_DENIED
| INTERNAL_ERROR
| VALIDATION_ERROR.

Record MCPError : Type := mkMCPError {
  code : ERROR_CODES;
  message : string;
  statusCode : Z;
  retryable : bool
}.

(** [(token|secret|api[_-]?key|password)] under the [i] flag. *)
Definition sensitive_word : regex :=
  Alt (lit_ci "token")
    (Alt (lit_ci "secret")
       (Alt (Seq (lit_ci "api")
               (Seq (Opt (Chr (fun c => ascii_eqb c "_" || ascii_eqb c "-")))
                  (lit_ci "key")))
          (lit_ci "password"))).

(** [/(token|secret|api[_-]?key|password)[\s:=]+[\S]+/gi] *)
Definition re_word_value : regex :=
  Seq (Group sensitive_word)
    (Seq (Rep 1 (Chr (fun c => is_space c || ascii_eqb c ":" || ascii_eqb c "=")))
       (Rep 1 (Chr (fun c => negb (is_space c))))).

(** [/\b(token|secret|api[_-]?key|password)\b/gi] *)
Definition re_word : regex :=
  Seq WordB (Seq (Group sensitive_word) WordB).

(** [/\/home\/\S+/g] *)
Definition re_home : regex :=
  Seq (lit "/home/") (Rep 1 (Chr (fun c => negb (is_space c)))).

(** [/\/Users\/\S+/g] *)
Definition re_users : regex :=
  Seq (lit "/Users/") (Rep 1 (Chr (fun c => negb (is_space c)))).

(** [/C:\\Users\\\S+/g] *)
Definition re_win_users : regex :=
  Seq (lit "C:\Users\") (Rep 1 (Chr (fun c => negb (is_space c)))).

(** [/\b[a-zA-Z0-9_-]{40,}\b/g] *)
Definition re_long_run : regex :=
  Seq WordB
    (Seq (Rep 40 (Chr (fun c => is_alpha c || is_digit c
                                || ascii_eqb c "_" || ascii_eqb c "-")))
       WordB).

Definition MAX_LENGTH : nat := 200.
Definition TRUNCATION_MARKER : string := "...".
Definition REDACTED : string := "[REDACTED]".

(** The first step of [sanitizeErrorMessage]:
    [if (sanitized.length > 200) sanitized = sanitized.substring(0, 197) + '...']. *)
Definition truncate (message : string) : string :=
  if (MAX_LENGTH <? length (chars message))%nat
  then of_chars (take 197 (chars message)) +:+ TRUNCATION_MARKER
  else message.

Definition sanitizeErrorMessage (message : string) : string :=
  if String.eqb message "" then "An error occurred" else
  let sanitized := truncate message in
  let sanitized := replace_all re_word_value [Dollar1; Text " [REDACTED]"] sanitized in
  let sanitized := replace_all re_word [Text "[REDACTED]"] sanitized in
  let sanitized := replace_all re_home [Text "/[USER]/"] sanitized in
  let sanitized := replace_all re_users [Text "/[USER]/"] sanitized in
  let sanitized := replace_all re_win_users [Text "C:\[USER]\"] sanitized in
  let sanitized := replace_all re_long_run [Text "[REDACTED]"] sanitized in
  sanitized.

(** *** Structured parameters

    The values JSON can hold. The properties of an object are listed in
    the order [Object.entries] enumerates them. *)
#[local] Unset Elimination Schemes.
Inductive JsValue : Type :=
| JNull
| JBool (b : bool)
| JNumber (n : Z)
| JString (s : string)
| JArray (items : list JsValue)
| JObject (props : list (string * JsValue)).
#[local] Set Elimination Schemes.

Section JsValue_induction.
Variable P : JsValue -> Prop.
Hypothesis Pnull : P JNull.
Hypothesis Pbool : forall b, P (JBool b).
Hypothesis Pnumber : forall n, P (JNumber n).
Hypothesis Pstring : forall s, P (JString s).
Hypothesis Parray : forall items, Forall P items -> P (JArray items).
Hypothesis Pobject : forall props, Forall (fun kv => P (snd kv)) props -> P (JObject props).

Fixpoint JsValue_nested_ind (v : JsValue) : P v :=
  match v with
  | JNull => Pnull
  | JBool b => Pbool b
  | JNumber n => Pnumber n
  | JString s => Pstring s
  | JArray items =>
      Parray items
        ((fix all (l : list JsValue) : Forall P l :=
            match l with
            | [] => @List.Forall_nil _ P
            | x :: l' => @List.Forall_cons _ P x l' (JsValue_nested_ind x) (all l')
            end) items)
  | JObject props =>
      Pobject props
        ((fix all (l : list (string * JsValue)) : Forall (fun kv => P (snd kv)) l :=
            match l with
            | [] => @List.Forall_nil _ (fun kv => P (snd kv))
            | kv :: l' =>
                @List.Forall_cons _ (fun kv => P (snd kv)) kv l'
                  (JsValue_nested_ind (snd kv)) (all l')
            end) props)
  end.
End JsValue_induction.

Definition sensitiveKeys : list string :=
  [ "token"; "secret"; "api_key"; "apiKey"; "password"; "auth" ].

(** [sensitiveKeys.some(k => lowerKey.includes(k.toLowerCase()))] *)
Definition isSensitive (key : string) : bool :=
  let lowerKey := toLowerCase key in
  existsb (fun sensitiveKey => includes lowerKey (toLowerCase sensitiveKey))
    sensitiveKeys.

(** [sanitized[key] = v] on a plain object: a key already present keeps its
    place, a new key is added last; assigning to [__proto__] creates no
    own property. *)
Fixpoint obj_update (o : list (string * JsValue)) (key : string) (v : JsValue)
  : option (list (string * JsValue)) :=
  match o with
  | [] => None
  | (k, w) :: o' =>
      if String.eqb k key then Some ((k, v) :: o')
      else match obj_update o' key v with
           | Some o'' => Some ((k, w) :: o'')
           | None => None
           end
  end.

Definition obj_set (o : list (string * JsValue)) (key : string) (v : JsValue)
  : list (string * JsValue) :=
  if String.eqb key "__proto__" then o
  else match obj_update o key v with
       | Some o' => o'
       | None => o ++ [(key, v)]
       end.

(** The value [sanitizeParameters] stores under a key that is not
    sensitive. When [typeof value === 'object' && value !== null], which
    holds of objects and of arrays alike, it is [sanitizeParameters(value)]:
    a new plain object filled from [Object.entries(value)], the entries of
    an array being its elements under their index keys. Anything else is
    stored as it is. *)
Fixpoint sanitizeValue (value : JsValue) : JsValue :=
  let sanitizeEntries :=
    fold_left (fun sanitized kv =>
                 obj_set sanitized (fst kv)
                   (if isSensitive (fst kv) then JString REDACTED
                    else sanitizeValue (snd kv))) in
  match value with
  | JObject props => JObject (sanitizeEntries props [])
  | JArray items =>
      JObject
        ((fix indexed (i : Z) (l : list JsValue) (sanitized : list (string * JsValue))
            {struct l} : list (string * JsValue) :=
            match l with
            | [] => sanitized
            | x :: l' =>
                indexed (i + 1) l'
                  (obj_set sanitized (dec_of_Z i)
                     (if isSensitive (dec_of_Z i) then JString REDACTED
                      else sanitizeValue x))
            end) 0 items [])
  | _ => value
  end.

(** [sanitizeParameters], given the entries of the parameter map. *)
Definition sanitizeParameters (params : list (string * JsValue))
  : list (string * JsValue) :=
  match sanitizeValue (JObject params) with
  | JObject sanitized => sanitized
  | _ => []
  end.

(** *** Properties of the message sanitizer *)

Definition endsWith (s suffix : string) : bool :=
  starts_with (rev (chars suffix)) (rev (chars s)).

(** Truncation comes first: the substitutions run on the truncated text. *)
Lemma sanitizeErrorMessage_truncates_first message :
  message <> "" ->
  sanitizeErrorMessage message =
  replace_all re_long_run [Text "[REDACTED]"]
    (replace_all re_win_users [Text "C:\[USER]\"]
       (replace_all re_users [Text "/[USER]/"]
          (replace_all re_home [Text "/[USER]/"]
             (replace_all re_word [Text "[REDACTED]"]
                (replace_all re_word_value [Dollar1; Text " [REDACTED]"]
                   (truncate message)))))).
Proof.
  intros H. unfold sanitizeErrorMessage.
  destruct (String.eqb_spec message ""); [contradiction|reflexivity].
Qed.

Lemma truncate_long message :
  (MAX_LENGTH < length (chars message))%nat ->
  truncate message = of_chars (take 197 (chars message)) +:+ TRUNCATION_MARKER
  /\ length (chars (truncate message)) = MAX_LENGTH
  /\ endsWith (truncate message) TRUNCATION_MARKER = true.
Proof.
  intros H. unfold truncate.
  destruct (Nat.ltb_spec MAX_LENGTH (length (chars message))); [|lia].
  split; [reflexivity|]. unfold endsWith.
  rewrite chars_append, chars_of_chars. split.
  - rewrite length_app, length_take.
    change (length (chars TRUNCATION_MARKER)) with 3%nat.
    unfold MAX_LENGTH in *. lia.
  - rewrite rev_app_distr. apply starts_with_app.
Qed.

Lemma truncate_short message :
  (length (chars message) <= MAX_LENGTH)%nat -> truncate message = message.
Proof.
  intros H. unfold truncate.
  destruct (Nat.ltb_spec MAX_LENGTH (length (chars message))); [lia|reflexivity].
Qed.

(** The example of the specification. *)
Lemma sanitizeErrorMessage_token_example :
  sanitizeErrorMessage "Failed with token abc123xyz"
    = "Failed with [REDACTED] [REDACTED]"
  /\ includes (sanitizeErrorMessage "Failed with token abc123xyz") "[REDACTED]" = true
  /\ includes (sanitizeErrorMessage "Failed with token abc123xyz") "abc123xyz" = false.
Proof. repeat split; vm_compute; reflexivity. Qed.

(** ['token ' + 'b'.repeat(300)] *)
Definition long_token_message : string :=
  "token " +:+ of_chars (repeat "b"%char 300).

(** C8 (the code departs from the claim). The message
    ['token ' + 'b'.repeat(300)] is longer than the maximum length; it is
    truncated first, and the truncated text ends with the marker; but the
    first substitution then matches from [token] to the end of the text,
    marker included, so the output is ["[REDACTED] [REDACTED]"], which does
    not end with the truncation marker. *)
Theorem sanitizeErrorMessage_marker_consumed :
  (MAX_LENGTH < length (chars long_token_message))%nat
  /\ endsWith (truncate long_token_message) TRUNCATION_MARKER = true
  /\ sanitizeErrorMessage long_token_message = "[REDACTED] [REDACTED]"
  /\ endsWith (sanitizeErrorMessage long_token_message) TRUNCATION_MARKER = false.
Proof.
  assert (Hlong : (MAX_LENGTH < length (chars long_token_message))%nat)
    by (apply Nat.ltb_lt; vm_compute; reflexivity).
  split; [exact Hlong|].
  split; [apply truncate_long; exact Hlong|].
  split; vm_compute; reflexivity.
Qed.

(** *** Properties of the parameter sanitizer *)

(** C3 (the code departs from the claim). The key [tags] is not sensitive
    and its value is an array of two strings; [sanitizeParameters] does not
    leave the value unchanged but replaces the array by an object keyed by
    the indices. A sensitive key next to it is redacted, and a scalar under
    a key that is not sensitive is kept. *)
Theorem sanitizeParameters_array_becomes_object :
  isSensitive "tags" = false
  /\ sanitizeParameters
       [ ("tags", JArray [JString "a"; JString "b"]);
         ("apiKey", JString "sk-123456");
         ("branch", JString "main") ]
     = [ ("tags", JObject [("0", JString "a"); ("1", JString "b")]);
         ("apiKey", JString "[REDACTED]");
         ("branch", JString "main") ].
Proof. split; vm_compute; reflexivity. Qed.

(** *** What [sanitizeParameters] computes on objects with distinct keys *)

Definition entry_value (key : string) (value : JsValue) : JsValue :=
  if isSensitive key then JString REDACTED else sanitizeValue value.

Definition assign_entry (sanitized : list (string * JsValue)) (kv : string * JsValue)
  : list (string * JsValue) :=
  obj_set sanitized (fst kv) (entry_value (fst kv) (snd kv)).

Fixpoint assign_indexed (i : Z) (l : list JsValue)
  (sanitized : list (string * JsValue)) : list (string * JsValue) :=
  match l with
  | [] => sanitized
  | x :: l' =>
      assign_indexed (i + 1) l'
        (obj_set sanitized (dec_of_Z i) (entry_value (dec_of_Z i) x))
  end.

Lemma sanitizeValue_object props :
  sanitizeValue (JObject props) = JObject (fold_left assign_entry props []).
Proof. reflexivity. Qed.

Lemma sanitizeValue_array items :
  sanitizeValue (JArray items) = JObject (assign_indexed 0 items []).
Proof. reflexivity. Qed.

(** The entries of an array, as [Object.entries] lists them. *)
Fixpoint index_entries (i : Z) (l : list JsValue) : list (string * JsValue) :=
  match l with
  | [] => []
  | x :: l' => (dec_of_Z i, x) :: index_entries (i + 1) l'
  end.

(** Redaction key by key: the value of a sensitive key becomes the marker,
    an object or an array under another key is redacted in turn (the array
    through its index keys), anything else is kept. *)
Fixpoint redact (v : JsValue) : JsValue :=
  match v with
  | JObject props =>
      JObject (map (fun kv => (fst kv,
                               if isSensitive (fst kv) then JString REDACTED
                               else redact (snd kv))) props)
  | JArray items => JObject (index_entries 0 (map redact items))
  | _ => v
  end.

(** The objects JavaScript can build by assignment: distinct keys, none of
    them [__proto__], at every depth. *)
#[local] Unset Elimination Schemes.
Inductive well_formed : JsValue -> Prop :=
| wf_null : well_formed JNull
| wf_bool b : well_formed (JBool b)
| wf_number n : well_formed (JNumber n)
| wf_string s : well_formed (JString s)
| wf_array items : Forall well_formed items -> well_formed (JArray items)
| wf_object props :
    NoDup (map fst props) ->
    ~ In "__proto__" (map fst props) ->
    Forall (fun kv => well_formed (snd kv)) props ->
    well_formed (JObject props).
#[local] Set Elimination Schemes.

Lemma obj_update_fresh key v : forall o,
  ~ In key (map fst o) -> obj_update o key v = None.
Proof.
  induction o as [|[k w] o IH]; simpl; intros H; [reflexivity|].
  destruct (String.eqb_spec k key) as [->|Hne].
  - exfalso. apply H. left. reflexivity.
  - rewrite IH; [reflexivity|]. intros Hin. apply H. right. exact Hin.
Qed.

Lemma obj_set_fresh o key v :
  key <> "__proto__" -> ~ In key (map fst o) -> obj_set o key v = o ++ [(key, v)].
Proof.
  intros Hp Hin. unfold obj_set.
  destruct (String.eqb_spec key "__proto__"); [contradiction|].
  rewrite obj_update_fresh by exact Hin. reflexivity.
Qed.

Lemma fold_assign_entry : forall props acc,
  NoDup (map fst (acc ++ props)) ->
  ~ In "__proto__" (map fst props) ->
  fold_left assign_entry props acc
  = acc ++ map (fun kv => (fst kv, entry_value (fst kv) (snd kv))) props.
Proof.
  induction props as [|[k v] props IH]; intros acc Hnd Hp; simpl.
  - rewrite app_nil_r. reflexivity.
  - unfold assign_entry at 2. simpl.
    rewrite map_app in Hnd. simpl in Hnd.
    rewrite obj_set_fresh.
    + rewrite IH.
      * rewrite <- app_assoc. reflexivity.
      * rewrite !map_app. simpl. rewrite <- app_assoc. exact Hnd.
      * intros Hin. apply Hp. right. exact Hin.
    + intros ->. apply Hp. left. reflexivity.
    + apply NoDup_app in Hnd as (_ & Hdisj & _). intros Hin.
      apply (Hdisj k); [apply list_elem_of_In, Hin|]. left.
Qed.

Lemma includes_first_char : forall s c sub,
  includes_chars s (c :: sub) = true -> In c s.
Proof.
  induction s as [|a s IH]; intros c sub H; simpl in H.
  - discriminate H.
  - apply orb_true_iff in H as [H|H].
    + apply andb_true_iff in H as [H _]. apply ascii_eqb_true in H. subst a.
      left. reflexivity.
    + right. exact (IH _ _ H).
Qed.

Lemma lower_char_numeric c : numeric c = true -> lower_char c = c.
Proof.
  destruct c as [[] [] [] [] [] [] [] []]; intros H; try discriminate H; reflexivity.
Qed.

(** A key written with digits only is not sensitive. *)
Lemma numeric_key_not_sensitive key :
  Forall (fun c => numeric c = true) (chars key) -> isSensitive key = false.
Proof.
  intros Hnum.
  assert (Hlow : chars (toLowerCase key) = chars key).
  { unfold toLowerCase. rewrite chars_of_chars.
    induction (chars key) as [|c l IH]; [reflexivity|].
    apply Forall_cons in Hnum as [Hc Hl]. simpl.
    rewrite (lower_char_numeric c Hc), (IH Hl). reflexivity. }
  unfold isSensitive. apply not_true_is_false. intros H.
  apply existsb_exists in H as (word & Hword & Hinc).
  unfold includes in Hinc. rewrite Hlow in Hinc.
  assert (Hletter : exists c tl, chars (toLowerCase word) = c :: tl /\ numeric c = false).
  { unfold sensitiveKeys in Hword. simpl in Hword.
    destruct Hword as [<-|[<-|[<-|[<-|[<-|[<-|[]]]]]]];
      eexists _, _; split; reflexivity. }
  destruct Hletter as (c & tl & Hc & Hn). rewrite Hc in Hinc.
  apply includes_first_char in Hinc.
  rewrite Forall_forall in Hnum. specialize (Hnum c (proj2 (list_elem_of_In _ _) Hinc)).
  congruence.
Qed.

Lemma index_key_plain i :
  isSensitive (dec_of_Z i) = false /\ dec_of_Z i <> "__proto__".
Proof.
  pose proof (dec_of_Z_numeric i) as Hnum. split.
  - apply numeric_key_not_sensitive, Hnum.
  - intros H. rewrite H in Hnum. apply Forall_cons in Hnum as [Hc _]. discriminate Hc.
Qed.

Lemma index_entries_keys : forall l i k,
  In k (map fst (index_entries i l)) -> exists j, i <= j /\ k = dec_of_Z j.
Proof.
  induction l as [|x l IH]; intros i k H; simpl in H; [destruct H|].
  destruct H as [<-|H].
  - exists i. split; [lia|reflexivity].
  - destruct (IH _ _ H) as (j & Hj & ->). exists j. split; [lia|reflexivity].
Qed.

Lemma assign_indexed_entries : forall l i acc,
  (forall k, In k (map fst acc) -> exists j, j < i /\ k = dec_of_Z j) ->
  assign_indexed i l acc = acc ++ index_entries i (map sanitizeValue l).
Proof.
  induction l as [|x l IH]; intros i acc Hacc; simpl.
  - rewrite app_nil_r. reflexivity.
  - destruct (index_key_plain i) as [Hs Hp].
    unfold entry_value. rewrite Hs. rewrite obj_set_fresh.
    + rewrite IH.
      * rewrite <- app_assoc. reflexivity.
      * intros k Hk. rewrite map_app in Hk. apply in_app_iff in Hk as [Hk|Hk].
        -- destruct (Hacc k Hk) as (j & Hj & ->). exists j. split; [lia|reflexivity].
        -- simpl in Hk. destruct Hk as [<-|[]]. exists i. split; [lia|reflexivity].
    + exact Hp.
    + intros Hin. destruct (Hacc _ Hin) as (j & Hj & Heq).
      apply dec_of_Z_inj in Heq. lia.
Qed.

(** On such objects [sanitizeParameters] is the redaction key by key. *)
Lemma sanitizeValue_redact v : well_formed v -> sanitizeValue v = redact v.
Proof.
  induction v as [|b|n|s|items IH|props IH] using JsValue_nested_ind;
    intros Hwf; try reflexivity.
  - inversion Hwf as [| | | |items' Hitems|]; subst.
    rewrite sanitizeValue_array, assign_indexed_entries by (intros k []).
    simpl. f_equal. f_equal. clear Hwf.
    induction items as [|x items IHl]; [reflexivity|].
    apply Forall_cons in IH as [Hx IH]. apply Forall_cons in Hitems as [Hwx Hitems].
    simpl. rewrite (Hx Hwx), (IHl IH Hitems). reflexivity.
  - inversion Hwf as [| | | | |props' Hnd Hp Hprops]; subst.
    rewrite sanitizeValue_object, fold_assign_entry by assumption.
    simpl. f_equal. clear Hwf Hnd Hp.
    induction props as [|[k x] props IHl]; [reflexivity|].
    apply Forall_cons in IH as [Hx IH]. apply Forall_cons in Hprops as [Hwx Hprops].
    simpl in *. unfold entry_value at 1. rewrite (Hx Hwx), (IHl IH Hprops).
    reflexivity.
Qed.

Lemma redact_index_entries : forall l i,
  map (fun kv => (fst kv,
                  if isSensitive (fst kv) then JString REDACTED else redact (snd kv)))
    (index_entries i l)
  = index_entries i (map redact l).
Proof.
  induction l as [|x l IH]; intros i; simpl; [reflexivity|].
  destruct (index_key_plain i) as [-> _]. rewrite IH. reflexivity.
Qed.

Lemma redact_idempotent v : redact (redact v) = redact v.
Proof.
  induction v as [|b|n|s|items IH|props IH] using JsValue_nested_ind;
    try reflexivity.
  - simpl. rewrite redact_index_entries. f_equal. f_equal.
    induction items as [|x items IHl]; [reflexivity|].
    apply Forall_cons in IH as [Hx IH]. simpl. rewrite Hx, (IHl IH). reflexivity.
  - simpl. f_equal. rewrite map_map.
    induction props as [|[k x] props IHl]; [reflexivity|].
    apply Forall_cons in IH as [Hx IH]. simpl in *. rewrite (IHl IH).
    destruct (isSensitive k); [reflexivity|]. rewrite Hx. reflexivity.
Qed.

Lemma index_entries_distinct : forall l i,
  NoDup (map fst (index_entries i l))
  /\ ~ In "__proto__" (map fst (index_entries i l)).
Proof.
  induction l as [|x l IH]; intros i; simpl.
  - split; [constructor|intros []].
  - destruct (IH (i + 1)) as [Hnd Hp]. split.
    + constructor; [|exact Hnd]. intros Hin. apply list_elem_of_In in Hin.
      apply index_entries_keys in Hin as (j & Hj & Heq).
      apply dec_of_Z_inj in Heq. lia.
    + intros [H|H]; [|exact (Hp H)].
      destruct (index_key_plain i) as [_ Hne]. exact (Hne H).
Qed.

Lemma index_entries_values P : forall l i,
  Forall P l -> Forall (fun kv => P (snd kv)) (index_entries i l).
Proof.
  induction l as [|x l IH]; intros i H; simpl; [constructor|].
  apply Forall_cons in H as [Hx H]. constructor; [exact Hx|apply IH, H].
Qed.

Lemma redact_well_formed v : well_formed v -> well_formed (redact v).
Proof.
  induction v as [|b|n|s|items IH|props IH] using JsValue_nested_ind;
    intros Hwf; try exact Hwf.
  - inversion Hwf as [| | | |items' Hitems|]; subst. simpl.
    destruct (index_entries_distinct (map redact items) 0) as [Hnd Hp].
    constructor; [exact Hnd|exact Hp|].
    apply index_entries_values. clear Hwf Hnd Hp.
    induction items as [|x items IHl]; [constructor|].
    apply Forall_cons in IH as [Hx IH]. apply Forall_cons in Hitems as [Hwx Hitems].
    simpl. constructor; [exact (Hx Hwx)|exact (IHl IH Hitems)].
  - inversion Hwf as [| | | | |props' Hnd Hp Hprops]; subst. simpl.
    constructor.
    + rewrite map_map. simpl. exact Hnd.
    + rewrite map_map. simpl. exact Hp.
    + clear Hwf Hnd Hp.
      induction props as [|[k x] props IHl]; [constructor|].
      apply Forall_cons in IH as [Hx IH]. apply Forall_cons in Hprops as [Hwx Hprops].
      simpl in *. constructor; [|exact (IHl IH Hprops)].
      simpl. destruct (isSensitive k); [constructor|exact (Hx Hwx)].
Qed.

Lemma redact_scalar v :
  match v with JArray _ | JObject _ => True | _ => redact v = v end.
Proof. destruct v; reflexivity || exact I. Qed.

(** The parts of C3 that hold, for a parameter map with distinct keys at
    every depth: each entry keeps its key, the value of a sensitive key is
    the marker, the value of another key is redacted in turn (a scalar is
    kept as it is, by [redact_scalar]); and sanitizing the output again
    changes nothing. *)
Lemma sanitizeParameters_redacts_and_is_idempotent params :
  well_formed (JObject params) ->
  sanitizeParameters params
    = map (fun kv => (fst kv,
                      if isSensitive (fst kv) then JString REDACTED
                      else redact (snd kv))) params
  /\ sanitizeParameters (sanitizeParameters params) = sanitizeParameters params.
Proof.
  intros Hwf. unfold sanitizeParameters.
  rewrite (sanitizeValue_redact _ Hwf). split; [reflexivity|].
  change (JObject (match redact (JObject params) with
                   | JObject sanitized => sanitized
                   | _ => []
                   end)) with (redact (JObject params)).
  rewrite (sanitizeValue_redact _ (redact_well_formed _ Hwf)).
  rewrite redact_idempotent. reflexivity.
Qed.

Definition nested_parameters : list (string * JsValue) :=
  [ ("user", JString "john");
    ("options", JObject [("token", JString "abc"); ("scope", JString "repo")]);
    ("api_key", JObject [("id", JNumber 7)]);
    ("count", JNumber 2) ].

Lemma sanitizeParameters_redacts_and_is_idempotent_witness :
  sanitizeParameters nested_parameters
  = [ ("user", JString "john");
      ("options", JObject [("token", JString "[REDACTED]"); ("scope", JString "repo")]);
      ("api_key", JString "[REDACTED]");
      ("count", JNumber 2) ]
  /\ sanitizeParameters (sanitizeParameters nested_parameters)
     = sanitizeParameters nested_parameters.
Proof.
  assert (Hwf : well_formed (JObject nested_parameters)).
  { apply wf_object.
    - apply (bool_decide_unpack _). vm_compute. reflexivity.
    - intros Hin. simpl in Hin. repeat destruct Hin as [Hin|Hin]; discriminate Hin || exact Hin.
    - repeat apply List.Forall_cons; try apply List.Forall_nil; try apply wf_string;
        try apply wf_number; cbn [snd].
      + apply wf_object.
        * apply (bool_decide_unpack _). vm_compute. reflexivity.
        * intros Hin. simpl in Hin.
          repeat destruct Hin as [Hin|Hin]; discriminate Hin || exact Hin.
        * repeat apply List.Forall_cons; try apply List.Forall_nil; apply wf_string.
      + apply wf_object.
        * apply (bool_decide_unpack _). vm_compute. reflexivity.
        * intros Hin. simpl in Hin.
          repeat destruct Hin as [Hin|Hin]; discriminate Hin || exact Hin.
        * repeat apply List.Forall_cons; try apply List.Forall_nil; apply wf_number. }
  destruct (sanitizeParameters_redacts_and_is_idempotent nested_parameters Hwf)
    as [Hmap Hidem].
  split; [|exact Hidem]. rewrite Hmap. vm_compute. reflexivity.
Defined.

(** The expectations of tests/security/security.test.ts on the two
    sanitizers. *)
Lemma sanitizer_unit_tests :
  sanitizeErrorMessage "Invalid api_key sk-1234567890" = "Invalid [REDACTED] [REDACTED]"
  /\ sanitizeErrorMessage "Secret password123 is invalid"
     = "[REDACTED] [REDACTED] is invalid"
  /\ sanitizeErrorMessage "Error reading /home/user/.ssh/id_rsa"
     = "Error reading /[USER]/"
  /\ sanitizeErrorMessage (of_chars (repeat "a"%char 300)) = "[REDACTED]..."
  /\ sanitizeErrorMessage "" = "An error occurred"
  /\ sanitizeParameters
       [ ("username", JString "john"); ("token", JString "secret-token-123");
         ("api_key", JString "sk-123456"); ("password", JString "pass123") ]
     = [ ("username", JString "john"); ("token", JString "[REDACTED]");
         ("api_key", JString "[REDACTED]"); ("password", JString "[REDACTED]") ]
  /\ sanitizeParameters
       [ ("user", JObject [("name", JString "john"); ("secret", JString "my-secret")]) ]
     = [ ("user", JObject [("name", JString "john"); ("secret", JString "[REDACTED]")]) ]
  /\ sanitizeParameters
       [ ("project_name", JString "my-project"); ("template", JString "react");
         ("branch", JString "main") ]
     = [ ("project_name", JString "my-project"); ("template", JString "react");
         ("branch", JString "main") ].
Proof. repeat split; vm_compute; reflexivity. Qed.

(** *** Messages the sanitizer leaves alone *)

(** One of the four words starts here, in any case of its letters. *)
Definition word_here (s : list ascii) : bool :=
  led_by ci_eqb (chars "token") s || led_by ci_eqb (chars "secret") s
  || led_by ci_eqb (chars "api") s || led_by ci_eqb (chars "password") s.

(** The characters of [[a-zA-Z0-9_-]]. *)
Definition key_char (c : ascii) : bool :=
  is_alpha c || is_digit c || ascii_eqb c "_" || ascii_eqb c "-".

Lemma sensitive_word_led st k res :
  matches sensitive_word st k = Some res -> word_here (rest st) = true.
Proof.
  unfold sensitive_word, word_here, lit_ci. cbn [matches]. intros H.
  destruct (matches (lit_chars ci_eqb (chars "token")) st k) eqn:H1.
  { apply lit_chars_led in H1. rewrite H1. reflexivity. }
  destruct (matches (lit_chars ci_eqb (chars "secret")) st k) eqn:H2.
  { apply lit_chars_led in H2. rewrite H2. apply orb_true_iff. left.
    apply orb_true_iff. left. apply orb_true_r. }
  destruct (matches (lit_chars ci_eqb (chars "api")) st _) eqn:H3.
  { apply lit_chars_led in H3. rewrite H3. apply orb_true_iff. left.
    apply orb_true_r. }
  apply lit_chars_led in H. rewrite H. apply orb_true_r.
Qed.

Lemma no_word_nowhere message :
  includes (toLowerCase message) "token" = false ->
  includes (toLowerCase message) "secret" = false ->
  includes (toLowerCase message) "api" = false ->
  includes (toLowerCase message) "password" = false ->
  forall pre post, chars message = pre ++ post -> word_here post = false.
Proof.
  unfold includes, toLowerCase. rewrite chars_of_chars.
  intros Ht Hs Ha Hp pre post Hsplit. unfold word_here.
  rewrite (not_included_nowhere (chars "token") _ eq_refl Ht pre post Hsplit),
    (not_included_nowhere (chars "secret") _ eq_refl Hs pre post Hsplit),
    (not_included_nowhere (chars "api") _ eq_refl Ha pre post Hsplit),
    (not_included_nowhere (chars "password") _ eq_refl Hp pre post Hsplit).
  reflexivity.
Qed.

Lemma path_needs_prefix w p s :
  led_by ascii_eqb (chars w) s = false ->
  match_at (Seq (lit w) (Rep 1 (Chr (fun c => negb (is_space c))))) p s = None.
Proof.
  intros Hno. unfold match_at, lit.
  destruct (matches _ _ _) as [res|] eqn:H; [|reflexivity].
  cbn [matches] in H. apply lit_chars_led in H. cbn [rest] in H. congruence.
Qed.

(** A message that holds nothing the sanitizer looks for comes back as it
    is. If a message is not empty, has at most 200 characters, includes
    none of the words [token], [secret], [api] and [password] in any case,
    includes none of [/home/], [/Users/] and [C:\Users\], and has no 40
    characters of [[a-zA-Z0-9_-]] in a row, then [sanitizeErrorMessage]
    returns it unchanged. *)
Theorem sanitizeErrorMessage_keeps_harmless_message message :
  message <> "" ->
  (length (chars message) <= 200)%nat ->
  includes (toLowerCase message) "token" = false ->
  includes (toLowerCase message) "secret" = false ->
  includes (toLowerCase message) "api" = false ->
  includes (toLowerCase message) "password" = false ->
  includes message "/home/" = false ->
  includes message "/Users/" = false ->
  includes message "C:\Users\" = false ->
  has_run key_char 40 (chars message) = false ->
  sanitizeErrorMessage message = message.
Proof.
  intros Hne Hlen Ht Hs Ha Hp Hhome Husers Hwin Hrun.
  rewrite (sanitizeErrorMessage_truncates_first message Hne).
  rewrite (truncate_short message Hlen).
  pose proof (no_word_nowhere message Ht Hs Ha Hp) as Hword.
  assert (H1 : replace_all re_word_value [Dollar1; Text " [REDACTED]"] message = message).
  { apply replace_all_no_match. apply (search_nowhere _ word_here); [|exact Hword].
    intros p s Hno. unfold match_at, re_word_value.
    destruct (matches _ _ _) as [res|] eqn:H; [|reflexivity].
    cbn [matches] in H. apply sensitive_word_led in H. cbn [rest] in H. congruence. }
  assert (H2 : replace_all re_word [Text "[REDACTED]"] message = message).
  { apply replace_all_no_match. apply (search_nowhere _ word_here); [|exact Hword].
    intros p s Hno. unfold match_at, re_word.
    destruct (matches _ _ _) as [res|] eqn:H; [|reflexivity].
    cbn [matches] in H. destruct (xorb _ _); [|discriminate H].
    apply sensitive_word_led in H. cbn [rest] in H. congruence. }
  assert (H3 : replace_all re_home [Text "/[USER]/"] message = message).
  { apply replace_all_no_match.
    apply (search_nowhere _ (led_by ascii_eqb (chars "/home/")));
      [intros p s Hno; apply path_needs_prefix; exact Hno|].
    apply not_included_nowhere_exact. exact Hhome. }
  assert (H4 : replace_all re_users [Text "/[USER]/"] message = message).
  { apply replace_all_no_match.
    apply (search_nowhere _ (led_by ascii_eqb (chars "/Users/")));
      [intros p s Hno; apply path_needs_prefix; exact Hno|].
    apply not_included_nowhere_exact. exact Husers. }
  assert (H5 : replace_all re_win_users [Text "C:\[USER]\"] message = message).
  { apply replace_all_no_match.
    apply (search_nowhere _ (led_by ascii_eqb (chars "C:\Users\")));
      [intros p s Hno; apply path_needs_prefix; exact Hno|].
    apply not_included_nowhere_exact. exact Hwin. }
  assert (H6 : replace_all re_long_run [Text "[REDACTED]"] message = message).
  { apply replace_all_no_match.
    apply (search_nowhere _ (run_at key_char 40));
      [|apply no_run_nowhere; exact Hrun].
    intros p s Hno. unfold match_at, re_long_run.
    destruct (matches _ _ _) as [res|] eqn:H; [|reflexivity].
    rewrite matches_seq, matches_wordb in H.
    destruct (xorb _ _); [|discriminate H].
    rewrite matches_seq in H. apply (rep_chr_needs_run _ 40) in H. cbn [rest] in H.
    change (run_at key_char 40 s = true) in H. congruence. }
  rewrite H1, H2, H3, H4, H5, H6. reflexivity.
Qed.

Lemma sanitizeErrorMessage_keeps_harmless_message_witness :
  sanitizeErrorMessage "Sandbox 01234567-89ab-4cde-b012-3456789abcde not found"
  = "Sandbox 01234567-89ab-4cde-b012-3456789abcde not found".
Proof.
  apply (sanitizeErrorMessage_keeps_harmless_message
           "Sandbox 01234567-89ab-4cde-b012-3456789abcde not found");
    first [discriminate | apply Nat.leb_le; vm_compute; reflexivity
          | vm_compute; reflexivity].
Defined.

End ErrorHandler.


(** ** services/path-validator.ts *)

Module PathValidator.
Import JsString Regex ErrorHandler.

(** [FORBIDDEN_PATHS], each entry a literal anchored at the start. *)
Definition FORBIDDEN_PREFIXES : list string :=
  [ ".env"; ".git"; "node_modules"; ".codesandbox";
    "/etc"; "/root"; "/proc"; "/sys"; "/var"; "/usr"; "/bin"; "/sbin"; "/boot";
    ".ssh"; ".aws"; ".config" ].

Definition FORBIDDEN_PATHS : list regex :=
  map (fun p => Seq Bol (lit p)) FORBIDDEN_PREFIXES.

(** [/^[a-zA-Z]:/] *)
Definition re_drive : regex :=
  Seq Bol (Seq (Chr is_alpha) (Chr (ascii_eqb ":"))).

Definition validateFilePath (filePath : string) : bool :=
  if includes filePath ".." then false
  else if startsWith filePath "/" then false
  else if test re_drive filePath then false
  else if existsb (fun pattern => test pattern filePath) FORBIDDEN_PATHS then false
  else true.

Definition assertValidFilePath (filePath : string) : Result MCPError unit :=
  if negb (validateFilePath filePath)
  then Throw (mkMCPError PATH_TRAVERSAL
                ("Invalid or forbidden file path: " +:+ filePath) 403 false)
  else Ok tt.

(** A JavaScript object as the [in] operator sees it: its own properties
    and the prototype it inherits from. An object literal and the record
    that the configuration loader builds inherit from [Object.prototype]. *)
Inductive prototype : Type :=
| ObjectPrototype
| NullPrototype.

Record JsRecord (V : Type) : Type := mkJsRecord {
  own : gmap string V;
  proto : prototype
}.
Arguments mkJsRecord {V} own proto.
Arguments own {V} j.
Arguments proto {V} j.

Definition object_literal {V} (props : gmap string V) : JsRecord V :=
  mkJsRecord props ObjectPrototype.

(** The property names of [Object.prototype]. *)
Definition Object_prototype_properties : list string :=
  [ "constructor"; "__defineGetter__"; "__defineSetter__"; "hasOwnProperty";
    "__lookupGetter__"; "__lookupSetter__"; "isPrototypeOf";
    "propertyIsEnumerable"; "toString"; "valueOf"; "__proto__";
    "toLocaleString" ].

(** [key in obj]: an own property, or one found along the prototype chain. *)
Definition js_in {V} (key : string) (obj : JsRecord V) : bool :=
  bool_decide (is_Some (own obj !! key))
  || match proto obj with
     | ObjectPrototype => bool_decide (key ∈ Object_prototype_properties)
     | NullPrototype => false
     end.

Definition validateRepoId (repoId : string) (allowedRepos : JsRecord string) : bool :=
  js_in repoId allowedRepos.

Definition assertValidRepoId (repoId : string) (allowedRepos : JsRecord string)
  : Result MCPError unit :=
  if negb (validateRepoId repoId allowedRepos)
  then Throw (mkMCPError INVALID_REPO
                ("Repository '" +:+ repoId +:+ "' is not in the allowed list") 403 false)
  else Ok tt.

(** The identifiers configured in an allowlist: its own keys. *)
Definition configured (repoId : string) (allowedRepos : JsRecord string) : Prop :=
  is_Some (own allowedRepos !! repoId).

(** *** The path predicate in the words of the specification *)

(** The segments of a path: the pieces between its slashes. *)
Fixpoint split_on (sep : ascii) (s : list ascii) : list (list ascii) :=
  match s with
  | [] => [[]]
  | c :: s' =>
      if ascii_eqb c sep then [] :: split_on sep s'
      else match split_on sep s' with
           | seg :: segs => (c :: seg) :: segs
           | [] => [[c]]
           end
  end.

Definition segments (path : string) : list string :=
  map of_chars (split_on "/" (chars path)).

Definition has_dotdot_segment (path : string) : Prop := In ".." (segments path).

Definition has_drive_letter_prefix (path : string) : Prop :=
  exists c tl, chars path = c :: ":"%char :: tl /\ is_alpha c = true.

Definition has_forbidden_prefix (path : string) : Prop :=
  exists p, In p FORBIDDEN_PREFIXES /\ startsWith path p = true.

(** *** Facts about the matcher used by the validator *)

Definition prev_after (l : list ascii) (p : option ascii) : option ascii :=
  match last l with Some c => Some c | None => p end.

Lemma matches_lit_chars l : forall st k,
  matches (lit_chars ascii_eqb l) st k =
  if starts_with l (rest st)
  then k (MState (prev_after l (prev st)) (drop (length l) (rest st)) (cap st))
  else None.
Proof.
  induction l as [|c l IH]; intros [p r cp] k; simpl.
  - reflexivity.
  - destruct r as [|b r]; simpl; [reflexivity|].
    destruct (ascii_eqb c b) eqn:E; simpl; [|reflexivity].
    apply ascii_eqb_true in E. subst b.
    rewrite IH. simpl. destruct (starts_with l r); [|reflexivity].
    f_equal. f_equal. unfold prev_after. destruct l as [|a l]; [reflexivity|].
    change (last (c :: a :: l)) with (last (a :: l)).
    destruct (last (a :: l)) eqn:El; [reflexivity|].
    apply last_None in El. discriminate.
Qed.

Lemma search_bol_inside r : forall s c, search (Seq Bol r) (Some c) s = None.
Proof.
  induction s as [|b s IH]; intros c; simpl.
  - reflexivity.
  - rewrite IH. reflexivity.
Qed.

Lemma test_bol r s :
  test (Seq Bol r) s =
  match matches r (MState None (chars s) None) Some with
  | Some _ => true
  | None => false
  end.
Proof.
  unfold test. destruct (chars s) as [|c l]; simpl; unfold match_at; simpl.
  - destruct (matches r _ _); reflexivity.
  - destruct (matches r _ _); [reflexivity|].
    rewrite search_bol_inside. reflexivity.
Qed.

Lemma test_bol_lit p s : test (Seq Bol (lit p)) s = startsWith s p.
Proof.
  rewrite test_bol. unfold lit. rewrite matches_lit_chars. simpl.
  unfold startsWith. destruct (starts_with _ _); reflexivity.
Qed.

Lemma test_re_drive s :
  test re_drive s = true <-> has_drive_letter_prefix s.
Proof.
  unfold re_drive, has_drive_letter_prefix. rewrite test_bol. simpl.
  destruct (chars s) as [|c [|d tl]]; simpl.
  - split; [discriminate|]. intros (c & tl & H & _). discriminate.
  - destruct (is_alpha c); simpl; (split; [intros H; discriminate H|]);
      intros (c' & tl & H & _); inversion H.
  - split.
    + destruct (is_alpha c) eqn:Ea; simpl; [|intros H; discriminate H].
      destruct (ascii_eqb ":" d) eqn:Ed; [|intros H; discriminate H].
      apply ascii_eqb_true in Ed. subst d.
      intros _. exists c, tl. split; [reflexivity|exact Ea].
    + intros (c' & tl' & H & Hc). inversion H; subst.
      rewrite Hc. simpl. replace (ascii_eqb ":" ":") with true by reflexivity.
      reflexivity.
Qed.

Lemma forbidden_paths_prefix s :
  existsb (fun pattern => test pattern s) FORBIDDEN_PATHS = true
  <-> has_forbidden_prefix s.
Proof.
  unfold FORBIDDEN_PATHS, has_forbidden_prefix. rewrite existsb_exists. split.
  - intros (r & Hr & Ht). apply in_map_iff in Hr as (p & <- & Hp).
    exists p. split; [exact Hp|]. rewrite <- test_bol_lit. exact Ht.
  - intros (p & Hp & Hs). exists (Seq Bol (lit p)). split.
    + apply in_map_iff. exists p. split; [reflexivity|exact Hp].
    + rewrite test_bol_lit. exact Hs.
Qed.

Lemma split_on_head sep : forall s,
  exists seg0 segs r, split_on sep s = seg0 :: segs /\ s = seg0 ++ r.
Proof.
  induction s as [|c s (seg0 & segs & r & E & Hs)]; simpl.
  - exists [], [], []. split; reflexivity.
  - destruct (ascii_eqb c sep).
    + exists [], (split_on sep s), (c :: s). split; reflexivity.
    + rewrite E. exists (c :: seg0), segs, r. split; [reflexivity|].
      simpl. rewrite <- Hs. reflexivity.
Qed.

(** Every segment of a path occurs in the path. *)
Lemma split_on_occurs sep : forall s seg,
  In seg (split_on sep s) -> exists l r, s = l ++ seg ++ r.
Proof.
  induction s as [|c s IH]; simpl; intros seg H.
  - destruct H as [<-|[]]. exists [], []. reflexivity.
  - destruct (ascii_eqb c sep).
    + destruct H as [<-|H].
      * exists [], (c :: s). reflexivity.
      * destruct (IH _ H) as (l & r & ->). exists (c :: l), r. reflexivity.
    + destruct (split_on_head sep s) as (seg0 & segs & r0 & E & Hs).
      rewrite E in H, IH. destruct H as [<-|H].
      * exists [], r0. simpl. rewrite <- Hs. reflexivity.
      * destruct (IH seg (or_intror H)) as (l & r & ->).
        exists (c :: l), r. reflexivity.
Qed.

Lemma dotdot_segment_includes path :
  has_dotdot_segment path -> includes path ".." = true.
Proof.
  unfold has_dotdot_segment, segments, includes. intros H.
  apply in_map_iff in H as (seg & Hseg & Hin).
  apply split_on_occurs in Hin as (l & r & ->).
  apply includes_chars_spec. exists l, r.
  rewrite <- (chars_of_chars seg), Hseg. reflexivity.
Qed.

(** *** Properties of the path validator *)

Lemma validateFilePath_true_iff path :
  validateFilePath path = true <->
  includes path ".." = false /\ startsWith path "/" = false
  /\ ~ has_drive_letter_prefix path /\ ~ has_forbidden_prefix path.
Proof.
  unfold validateFilePath. split.
  - intros H.
    destruct (includes path "..") eqn:E1; [discriminate H|].
    destruct (startsWith path "/") eqn:E2; [discriminate H|].
    destruct (test re_drive path) eqn:E3; [discriminate H|].
    destruct (existsb _ FORBIDDEN_PATHS) eqn:E4; [discriminate H|].
    repeat split.
    + intros Hd. apply test_re_drive in Hd. congruence.
    + intros Hf. apply forbidden_paths_prefix in Hf. congruence.
  - intros (-> & -> & H3 & H4).
    destruct (test re_drive path) eqn:E3.
    { exfalso. apply H3, test_re_drive, E3. }
    destruct (existsb _ FORBIDDEN_PATHS) eqn:E4; [|reflexivity].
    exfalso. apply H4, forbidden_paths_prefix, E4.
Qed.

Lemma assertValidFilePath_spec path :
  (validateFilePath path = true -> assertValidFilePath path = Ok tt)
  /\ (validateFilePath path = false ->
      exists e, assertValidFilePath path = Throw e
                /\ code e = PATH_TRAVERSAL /\ retryable e = false).
Proof.
  unfold assertValidFilePath. split; intros ->; simpl; [reflexivity|].
  eexists. repeat split.
Qed.

(** C6. [validateFilePath] accepts a path only if it has no [..] segment
    (indeed no two dots in a row anywhere), does not start with a slash,
    has no drive-letter prefix and none of the forbidden prefixes;
    ["src/index.ts"] is accepted; ["../etc/passwd"],
    ["/etc/passwd"], [".env"] and ["C:/Windows/x"] are rejected; and
    [assertValidFilePath] throws the path-traversal error on every path that
    [validateFilePath] rejects. *)
Theorem validateFilePath_accepts_only_safe_paths :
  (forall path, validateFilePath path = true ->
     ~ has_dotdot_segment path
     /\ includes path ".." = false
     /\ startsWith path "/" = false
     /\ ~ has_drive_letter_prefix path
     /\ ~ has_forbidden_prefix path)
  /\ validateFilePath "src/index.ts" = true
  /\ validateFilePath "../etc/passwd" = false
  /\ validateFilePath "/etc/passwd" = false
  /\ validateFilePath ".env" = false
  /\ validateFilePath "C:/Windows/x" = false
  /\ (forall path, validateFilePath path = false ->
       exists e, assertValidFilePath path = Throw e /\ code e = PATH_TRAVERSAL).
Proof.
  split; [|repeat split; try reflexivity].
  - intros path H. apply validateFilePath_true_iff in H as (Hdd & Hs & Hd & Hf).
    repeat split; try assumption.
    intros Hseg. apply dotdot_segment_includes in Hseg. congruence.
  - intros path H. destruct (assertValidFilePath_spec path) as [_ Hthrow].
    destruct (Hthrow H) as (e & He & Hc & _). exists e. split; assumption.
Qed.

Lemma validateFilePath_accepts_only_safe_paths_witness :
  (~ has_dotdot_segment "src/index.ts"
   /\ includes "src/index.ts" ".." = false
   /\ startsWith "src/index.ts" "/" = false
   /\ ~ has_drive_letter_prefix "src/index.ts"
   /\ ~ has_forbidden_prefix "src/index.ts")
  /\ exists e, assertValidFilePath ".git/config" = Throw e /\ code e = PATH_TRAVERSAL.
Proof.
  destruct validateFilePath_accepts_only_safe_paths as (Hacc & _ & _ & _ & _ & _ & Hrej).
  split.
  - apply (Hacc "src/index.ts"). reflexivity.
  - apply (Hrej ".git/config"). reflexivity.
Defined.

(** *** Properties of the repository predicate *)

Lemma validateRepoId_true_iff repoId allowedRepos :
  validateRepoId repoId allowedRepos = true <->
  configured repoId allowedRepos
  \/ (proto allowedRepos = ObjectPrototype
      /\ repoId ∈ Object_prototype_properties).
Proof.
  unfold validateRepoId, js_in, configured.
  rewrite orb_true_iff, bool_decide_eq_true.
  destruct (proto allowedRepos).
  - rewrite bool_decide_eq_true. tauto.
  - split; [intros [H|H]; [left; exact H|discriminate]|].
    intros [H|[H _]]; [left; exact H|discriminate].
Qed.

(** A name that holds a slash, such as [owner/repo], is never inherited. *)
Lemma inherited_names_have_no_slash repoId :
  repoId ∈ Object_prototype_properties -> includes repoId "/" = false.
Proof.
  unfold Object_prototype_properties. intros H.
  repeat (apply elem_of_cons in H as [->|H]; [reflexivity|]).
  apply elem_of_nil in H. destruct H.
Qed.

(** For identifiers of the [owner/repo] form the predicate is closed-world
    membership, whatever the prototype of the allowlist. *)
Lemma validateRepoId_closed_world_with_slash repoId allowedRepos :
  includes repoId "/" = true ->
  (validateRepoId repoId allowedRepos = true <-> configured repoId allowedRepos).
Proof.
  intros Hs. rewrite validateRepoId_true_iff. split; [|tauto].
  intros [H|[_ H]]; [exact H|].
  apply inherited_names_have_no_slash in H. congruence.
Qed.

Lemma assertValidRepoId_spec repoId allowedRepos :
  (validateRepoId repoId allowedRepos = true ->
     assertValidRepoId repoId allowedRepos = Ok tt)
  /\ (validateRepoId repoId allowedRepos = false ->
      exists e, assertValidRepoId repoId allowedRepos = Throw e
                /\ code e = INVALID_REPO /\ retryable e = false).
Proof.
  unfold assertValidRepoId. split; intros ->; simpl; [reflexivity|].
  eexists. repeat split.
Qed.

(** The allowlist of the unit tests. *)
Definition test_allowedRepos : JsRecord string :=
  object_literal (<["owner1/repo1" := "token1"]> (<["owner2/repo2" := "token2"]> ∅)).

(** C5 (the code departs from the claim). The identifier ["constructor"] is
    not configured in the allowlist, yet [validateRepoId] returns [true] for
    it and [assertValidRepoId] returns without throwing: the [in] operator
    also finds the properties inherited from [Object.prototype]. *)
Theorem validateRepoId_accepts_inherited_name :
  ~ configured "constructor" test_allowedRepos
  /\ validateRepoId "constructor" test_allowedRepos = true
  /\ assertValidRepoId "constructor" test_allowedRepos = Ok tt
  /\ validateRepoId "owner1/repo1" test_allowedRepos = true
  /\ validateRepoId "owner3/repo3" test_allowedRepos = false.
Proof.
  repeat split; try (vm_compute; reflexivity).
  unfold configured. intros [v Hv]. vm_compute in Hv. discriminate Hv.
Qed.

(** The expectations of tests/unit/path-validator.test.ts on paths. *)
Lemma path_validator_unit_tests :
  forallb validateFilePath
    [ "src/index.ts"; "components/Button.tsx"; "utils/helpers.js"; "README.md" ] = true
  /\ existsb validateFilePath
       [ "../etc/passwd"; "src/../../../etc/passwd"; "dir/../file.txt";
         "/etc/passwd"; "/home/user/file.txt"; "/root/.ssh/id_rsa";
         "C:/Windows/System32"; "D:/Users/file.txt";
         ".env"; ".env.local"; ".git/config"; "node_modules/package/index.js";
         ".ssh/id_rsa"; ".aws/credentials" ] = false.
Proof. split; vm_compute; reflexivity. Qed.

(** *** Branch names *)

(** The class [[a-zA-Z0-9._/-]]. *)
Definition branch_char (c : ascii) : bool :=
  is_alpha c || is_digit c || ascii_eqb c "." || ascii_eqb c "_"
  || ascii_eqb c "/" || ascii_eqb c "-".

(** [[a-zA-Z0-9._/-]+], to be run between [^] and [$]. *)
Definition re_branch : regex := Rep 1 (Chr branch_char).

Definition validateBranchName (branchName : string) : bool :=
  if negb (test_whole re_branch branchName) then false
  else if includes branchName " " then false
  else if includes branchName ".." then false
  else if includes branchName "//" then false
  else true.

Definition assertValidBranchName (branchName : string) : Result MCPError unit :=
  if negb (validateBranchName branchName)
  then Throw (mkMCPError INVALID_BRANCH
                ("Invalid branch name: " +:+ branchName) 400 false)
  else Ok tt.

Lemma class_excludes l c :
  forallb branch_char l = true -> branch_char c = false ->
  forall sub, includes_chars l (c :: sub) = false.
Proof.
  intros Hall Hc sub. apply not_true_is_false. intros H.
  apply includes_first_char in H.
  rewrite forallb_forall in Hall. rewrite (Hall c H) in Hc. discriminate Hc.
Qed.

Lemma validateBranchName_decided branchName :
  validateBranchName branchName
  = (1 <=? length (chars branchName))%nat
    && forallb branch_char (chars branchName)
    && negb (includes branchName "..") && negb (includes branchName "//").
Proof.
  unfold validateBranchName, re_branch. rewrite test_whole_class.
  destruct (1 <=? length (chars branchName))%nat;
    destruct (forallb branch_char (chars branchName)) eqn:Hall;
    cbn [andb negb]; try reflexivity.
  change (includes branchName " ")
    with (includes_chars (chars branchName) [" "%char]).
  rewrite (class_excludes _ " "%char Hall eq_refl []).
  destruct (includes branchName ".."), (includes branchName "//"); reflexivity.
Qed.

(** A branch name is accepted exactly when it is not empty, is written with
    the characters of the class only, and holds neither two dots nor two
    slashes in a row; the separate test for a space never decides, since
    the class has no space. [assertValidBranchName] throws the
    invalid-branch error, not retryable, exactly on the other names. *)
Theorem validateBranchName_exact branchName :
  validateBranchName branchName
  = (1 <=? length (chars branchName))%nat
    && forallb branch_char (chars branchName)
    && negb (includes branchName "..") && negb (includes branchName "//")
  /\ assertValidBranchName branchName
     = if validateBranchName branchName then Ok tt
       else Throw (mkMCPError INVALID_BRANCH
                     ("Invalid branch name: " +:+ branchName) 400 false).
Proof.
  split; [apply validateBranchName_decided|].
  unfold assertValidBranchName.
  destruct (validateBranchName branchName); reflexivity.
Qed.

(** The expectations of tests/unit/path-validator.test.ts on branch names. *)
Lemma branch_name_unit_tests :
  forallb validateBranchName
    [ "main"; "feature/new-feature"; "bugfix/fix-123"; "release/v1.0.0"; "dev_branch" ]
    = true
  /\ existsb validateBranchName
       [ "my branch"; "feature branch"; "feature/../main"; "../evil";
         "feature//branch"; "//evil"; "feature@branch"; "feature#branch";
         "feature$branch"; "" ] = false.
Proof. split; vm_compute; reflexivity. Qed.

(** *** The entries of [FORBIDDEN_PATHS] that decide *)

Definition RELATIVE_PREFIXES : list string :=
  [ ".env"; ".git"; "node_modules"; ".codesandbox"; ".ssh"; ".aws"; ".config" ].

Lemma starts_with_trans p q s :
  starts_with p q = true -> starts_with q s = true -> starts_with p s = true.
Proof.
  intros Hpq Hqs. apply starts_with_inv in Hpq as [t ->].
  apply starts_with_inv in Hqs as [u ->]. rewrite <- app_assoc.
  apply starts_with_app.
Qed.

Lemma validateFilePath_decided filePath :
  validateFilePath filePath
  = negb (includes filePath "..")
    && negb (startsWith filePath "/")
    && negb (test re_drive filePath)
    && negb (existsb (startsWith filePath) RELATIVE_PREFIXES).
Proof.
  unfold validateFilePath.
  destruct (includes filePath ".."); [reflexivity|].
  destruct (startsWith filePath "/") eqn:Hslash; [reflexivity|].
  destruct (test re_drive filePath); [reflexivity|]. simpl negb. simpl andb.
  assert (Habs : forall p, starts_with (chars "/") (chars p) = true ->
                   startsWith filePath p = false).
  { intros p Hp. apply not_true_is_false. intros H.
    unfold startsWith in *. rewrite (starts_with_trans _ _ _ Hp H) in Hslash.
    discriminate Hslash. }
  unfold FORBIDDEN_PATHS, FORBIDDEN_PREFIXES, RELATIVE_PREFIXES.
  cbn [map existsb]. rewrite !test_bol_lit.
  rewrite (Habs "/etc" eq_refl), (Habs "/root" eq_refl), (Habs "/proc" eq_refl),
    (Habs "/sys" eq_refl), (Habs "/var" eq_refl), (Habs "/usr" eq_refl),
    (Habs "/bin" eq_refl), (Habs "/sbin" eq_refl), (Habs "/boot" eq_refl).
  cbn [orb].
  repeat match goal with
         | |- context [startsWith filePath ?q] => destruct (startsWith filePath q)
         end; reflexivity.
Qed.

(** [validateFilePath] decided exactly: a path is accepted when it holds no
    two dots in a row, does not start with a slash or with a letter and a
    colon, and starts with none of the seven relative prefixes. The nine
    entries of [FORBIDDEN_PATHS] that start with a slash never decide: such
    a path has been rejected as absolute before the list is read. *)
Theorem validateFilePath_exact filePath :
  validateFilePath filePath
  = negb (includes filePath "..")
    && negb (startsWith filePath "/")
    && negb (test re_drive filePath)
    && negb (existsb (startsWith filePath) RELATIVE_PREFIXES).
Proof. apply validateFilePath_decided. Qed.

End PathValidator.


(** ** types/index.ts: the string schemas of the tool inputs *)

Module Schemas.
Import JsString Regex ErrorHandler PathValidator.

(** A Zod string schema accepts a string when its pattern and each of its
    refinements hold. *)

(** [z.string().regex(/^[a-zA-Z0-9._/-]+$/).refine(no '..').refine(no '//')] *)
Definition branchNameSchema (val : string) : bool :=
  test_whole re_branch val
  && negb (includes val "..")
  && negb (includes val "//").

(** [z.string().regex(/^[a-zA-Z0-9._/-]+$/).refine(not absolute).refine(no '..')] *)
Definition filePathSchema (val : string) : bool :=
  test_whole re_branch val
  && negb (startsWith val "/")
  && negb (includes val "..").

(** The tool schemas and the validator of the services agree on every
    branch name: what [branchNameSchema] accepts, [validateBranchName]
    accepts, and conversely. *)
Theorem branchNameSchema_agrees val :
  branchNameSchema val = validateBranchName val.
Proof.
  rewrite validateBranchName_decided.
  unfold branchNameSchema, re_branch. rewrite test_whole_class.
  destruct (forallb branch_char (chars val)), (1 <=? length (chars val))%nat;
    reflexivity.
Qed.

Lemma class_has_no_colon l :
  forallb branch_char l = true ->
  match l with c :: ":"%char :: _ => False | _ => True end.
Proof.
  destruct l as [|c [|d tl]]; try exact (fun _ => I). intros H.
  cbn [forallb] in H. apply andb_true_iff in H as [_ H].
  apply andb_true_iff in H as [Hd _].
  destruct (ascii_dec d ":") as [->|Hne].
  - vm_compute in Hd. discriminate Hd.
  - clear Hd. destruct d as [[] [] [] [] [] [] [] []]; try exact I.
    contradiction Hne. reflexivity.
Qed.

(** On a path that the schema of the tool input has accepted,
    [validateFilePath] only looks for the seven relative prefixes: the
    tests for two dots, for a leading slash and for a drive letter have
    been settled by the schema. *)
Theorem validateFilePath_after_schema filePath :
  filePathSchema filePath = true ->
  validateFilePath filePath
  = negb (existsb (startsWith filePath) RELATIVE_PREFIXES).
Proof.
  unfold filePathSchema, re_branch. rewrite test_whole_class. intros H.
  apply andb_true_iff in H as [H Hdots]. apply andb_true_iff in H as [H Hslash].
  apply andb_true_iff in H as [Hall _].
  rewrite validateFilePath_decided.
  apply negb_true_iff in Hdots, Hslash. rewrite Hdots, Hslash. cbn [negb andb].
  assert (Hdrive : test re_drive filePath = false).
  { apply not_true_is_false. intros Hd. apply test_re_drive in Hd.
    destruct Hd as (c & tl & Hc & _).
    pose proof (class_has_no_colon _ Hall) as Hno. rewrite Hc in Hno. exact Hno. }
  rewrite Hdrive. reflexivity.
Qed.

Lemma validateFilePath_after_schema_witness :
  validateFilePath "src/index.ts"
  = negb (existsb (startsWith "src/index.ts") RELATIVE_PREFIXES)
  /\ validateFilePath ".github/workflows/ci.yml"
     = negb (existsb (startsWith ".github/workflows/ci.yml") RELATIVE_PREFIXES).
Proof.
  split.
  - apply (validateFilePath_after_schema "src/index.ts"). reflexivity.
  - apply (validateFilePath_after_schema ".github/workflows/ci.yml"). reflexivity.
Defined.

End Schemas.


(** ** middleware/auth.ts *)

Module Auth.
Import JsString ErrorHandler.

Fixpoint trim_start (l : list ascii) : list ascii :=
  match l with
  | c :: l' => if is_space c then trim_start l' else l
  | [] => []
  end.

(** [String.prototype.trim] *)
Definition trim (s : string) : string :=
  of_chars (rev (trim_start (rev (trim_start (chars s))))).

Definition auth_required : MCPError :=
  mkMCPError PERMISSION_DENIED "User authentication required" 401 false.

Definition validateUserAuth (userId : string) : Result MCPError bool :=
  if String.eqb userId "" || (length (chars (trim userId)) =? 0)%nat
  then Throw auth_required
  else Ok true.

Definition checkPermission (userId _resourceId : string) : Result MCPError bool :=
  match validateUserAuth userId with
  | Throw e => Throw e
  | Ok _ => Ok true
  end.

Lemma trim_start_nil l : trim_start l = [] <-> forallb is_space l = true.
Proof.
  induction l as [|c l IH]; simpl; [tauto|].
  destruct (is_space c); simpl; [exact IH|]. split; discriminate.
Qed.

Lemma trim_empty s :
  (length (chars (trim s)) =? 0)%nat = forallb is_space (chars s).
Proof.
  unfold trim. rewrite chars_of_chars, length_rev.
  destruct (forallb is_space (chars s)) eqn:Hall.
  - apply trim_start_nil in Hall. rewrite Hall. reflexivity.
  - apply Nat.eqb_neq. intros Hlen.
    assert (Hnil : trim_start (rev (trim_start (chars s))) = [])
      by (destruct (trim_start (rev (trim_start (chars s)))); [reflexivity|discriminate Hlen]).
    apply trim_start_nil in Hnil. rewrite forallb_forall in Hnil.
    assert (Hne : trim_start (chars s) <> []).
    { intros H. apply trim_start_nil in H. congruence. }
    assert (Hhead : exists c tl, trim_start (chars s) = c :: tl /\ is_space c = false).
    { clear Hall Hnil Hlen. induction (chars s) as [|c l IH]; [contradiction|].
      simpl in *. destruct (is_space c) eqn:Hc; [exact (IH Hne)|].
      exists c, l. split; [reflexivity|exact Hc]. }
    destruct Hhead as (c & tl & Hc & Hsp).
    rewrite (Hnil c) in Hsp; [discriminate Hsp|].
    rewrite Hc. apply in_rev. rewrite rev_involutive. left. reflexivity.
Qed.

(** A user identifier is authenticated exactly when one of its characters
    is not white space; an empty or blank identifier is refused with the
    permission-denied error, status 401, not retryable. [checkPermission]
    gives the same answer whatever the resource: every authenticated
    identifier is granted every resource. *)
Theorem validateUserAuth_exact userId :
  validateUserAuth userId
  = (if forallb is_space (chars userId) then Throw auth_required else Ok true)
  /\ forall resourceId, checkPermission userId resourceId = validateUserAuth userId.
Proof.
  assert (H : validateUserAuth userId
              = if forallb is_space (chars userId) then Throw auth_required else Ok true).
  { unfold validateUserAuth. rewrite trim_empty.
    destruct (String.eqb_spec userId "") as [->|_]; [reflexivity|].
    reflexivity. }
  split; [exact H|]. intros resourceId. unfold checkPermission. rewrite H.
  destruct (forallb is_space (chars userId)); reflexivity.
Qed.

End Auth.


(** ** services/github-manager.ts: the repository identifier *)

Module GitHubManager.
Import JsString ErrorHandler PathValidator.

Definition repo_format_error : MCPError :=
  mkMCPError INVALID_REPO
    ("Repository ID must be in format "
       +:+ String (ascii_of_N 34) ("owner/repo" +:+ String (ascii_of_N 34) ""))
    400 false.

(** [parseRepoId]; [repoId.split('/')] is [split_on "/"]. *)
Definition parseRepoId (repoId : string) : Result MCPError (string * string) :=
  match split_on "/" (chars repoId) with
  | [owner; repo] => Ok (of_chars owner, of_chars repo)
  | _ => Throw repo_format_error
  end.

Lemma includes_single l c : includes_chars l [c] = true <-> In c l.
Proof.
  split; [apply includes_first_char|].
  induction l as [|a l IH]; simpl; [intros []|]. intros [->|H].
  - replace (ascii_eqb c c) with true
      by (symmetry; apply ascii_eqb_true; reflexivity).
    reflexivity.
  - rewrite (IH H). apply orb_true_r.
Qed.

Lemma split_on_plain sep : forall l,
  ~ In sep l -> split_on sep l = [l].
Proof.
  induction l as [|c l IH]; intros H; simpl; [reflexivity|].
  destruct (ascii_eqb c sep) eqn:E.
  - apply ascii_eqb_true in E. subst c. exfalso. apply H. left. reflexivity.
  - rewrite IH; [reflexivity|]. intros Hin. apply H. right. exact Hin.
Qed.

Lemma split_on_first sep : forall a b,
  ~ In sep a -> split_on sep (a ++ sep :: b) = a :: split_on sep b.
Proof.
  induction a as [|c a IH]; intros b H; simpl.
  - replace (ascii_eqb sep sep) with true
      by (symmetry; apply ascii_eqb_true; reflexivity).
    reflexivity.
  - destruct (ascii_eqb c sep) eqn:E.
    + apply ascii_eqb_true in E. subst c. exfalso. apply H. left. reflexivity.
    + rewrite IH; [reflexivity|]. intros Hin. apply H. right. exact Hin.
Qed.

(** The text before the first separator, and what follows it. *)
Lemma split_on_cons sep : forall l seg segs,
  split_on sep l = seg :: segs ->
  ~ In sep seg
  /\ match segs with
     | [] => l = seg
     | _ :: _ => exists tl, l = seg ++ sep :: tl /\ split_on sep tl = segs
     end.
Proof.
  induction l as [|c l IH]; intros seg segs H; simpl in H.
  - injection H as <- <-. split; [intros []|reflexivity].
  - destruct (ascii_eqb c sep) eqn:E.
    + apply ascii_eqb_true in E. subst c. injection H as <- <-.
      split; [intros []|].
      destruct (split_on_head sep l) as (s0 & ss & r & Hs & _). rewrite Hs.
      exists l. split; [reflexivity|exact Hs].
    + destruct (split_on sep l) as [|seg0 segs0] eqn:Hs.
      * destruct (split_on_head sep l) as (s0 & ss & r & Hs' & _). congruence.
      * injection H as <- <-. destruct (IH _ _ eq_refl) as [Hno Hrest]. split.
        -- intros [->|Hin]; [|exact (Hno Hin)].
           replace (ascii_eqb sep sep) with true in E
             by (symmetry; apply ascii_eqb_true; reflexivity).
           discriminate E.
        -- destruct segs0 as [|s1 ss].
           ++ rewrite Hrest. reflexivity.
           ++ destruct Hrest as (tl & -> & Htl). exists tl. split; [reflexivity|exact Htl].
Qed.

Lemma parseRepoId_ok_iff repoId owner repo :
  parseRepoId repoId = Ok (owner, repo)
  <-> repoId = owner +:+ "/" +:+ repo
      /\ includes owner "/" = false /\ includes repo "/" = false.
Proof.
  unfold parseRepoId. split.
  - destruct (split_on "/" (chars repoId)) as [|a [|b [|c segs]]] eqn:Hs;
      try discriminate.
    intros H. injection H as <- <-.
    destruct (split_on_cons _ _ _ _ Hs) as [Hna (tl & Hl & Htl)].
    destruct (split_on_cons _ _ _ _ Htl) as [Hnb Hb]. subst tl.
    repeat split.
    + apply chars_inj. rewrite !chars_append, !chars_of_chars. exact Hl.
    + apply not_true_is_false. intros Hin. unfold includes in Hin.
      rewrite chars_of_chars in Hin. apply (includes_single a "/") in Hin.
      exact (Hna Hin).
    + apply not_true_is_false. intros Hin. unfold includes in Hin.
      rewrite chars_of_chars in Hin. apply (includes_single b "/") in Hin.
      exact (Hnb Hin).
  - intros (-> & Ho & Hr).
    assert (Hno : ~ In "/"%char (chars owner)).
    { intros Hin. apply (includes_single (chars owner) "/") in Hin.
      unfold includes in Ho. change (chars "/") with ["/"%char] in Ho. congruence. }
    assert (Hnr : ~ In "/"%char (chars repo)).
    { intros Hin. apply (includes_single (chars repo) "/") in Hin.
      unfold includes in Hr. change (chars "/") with ["/"%char] in Hr. congruence. }
    rewrite !chars_append. change (chars "/" ++ chars repo) with ("/"%char :: chars repo).
    rewrite (split_on_first _ _ _ Hno), (split_on_plain _ _ Hnr).
    rewrite !of_chars_chars. reflexivity.
Qed.

Lemma parseRepoId_error repoId e :
  parseRepoId repoId = Throw e -> e = repo_format_error.
Proof.
  unfold parseRepoId.
  destruct (split_on "/" (chars repoId)) as [|a [|b [|c segs]]]; intros H;
    inversion H; reflexivity.
Qed.

(** [parseRepoId] returns an owner and a repository exactly when the
    identifier is the two joined by one slash, neither holding a slash
    (either may be empty); it is then the identifier read back. Every other
    identifier is refused with the invalid-repository error, status 400. *)
Theorem parseRepoId_exact repoId :
  (forall owner repo,
     parseRepoId repoId = Ok (owner, repo)
     <-> repoId = owner +:+ "/" +:+ repo
         /\ includes owner "/" = false /\ includes repo "/" = false)
  /\ (forall e, parseRepoId repoId = Throw e -> e = repo_format_error).
Proof.
  split.
  - intros owner repo. apply parseRepoId_ok_iff.
  - intros e. apply parseRepoId_error.
Qed.

End GitHubManager.


(** ** services/config.ts: the token map read from the environment *)

Module Config.
Import JsString ErrorHandler PathValidator.

Definition TOKEN_PREFIX : string := "CSB_GITHUB_TOKEN_".

(** [String.prototype.replace] with a string pattern: the first occurrence
    is replaced. *)
Fixpoint replace_first (pattern replacement s : list ascii) : list ascii :=
  if starts_with pattern s then replacement ++ drop (length pattern) s
  else match s with
       | [] => []
       | c :: s' => c :: replace_first pattern replacement s'
       end.

(** [key.replace('CSB_GITHUB_TOKEN_', '').toLowerCase()] *)
Definition repoKey (key : string) : string :=
  toLowerCase (of_chars (replace_first (chars TOKEN_PREFIX) [] (chars key))).

(** [githubTokenMap[repoKey] = value] on a plain object; assigning a string
    to [__proto__] creates no property. *)
Definition assign (map : JsRecord string) (key value : string) : JsRecord string :=
  if String.eqb key "__proto__" then map
  else mkJsRecord (<[key := value]> (own map)) (proto map).

(** Whether the loop keeps an environment variable:
    [key.startsWith('CSB_GITHUB_TOKEN_') && value]. *)
Definition is_token_variable (kv : string * string) : bool :=
  startsWith (fst kv) TOKEN_PREFIX && negb (String.eqb (snd kv) "").

(** The token map [loadFromEnv] builds from [Object.entries(process.env)];
    the schema then returns a record with the same entries. *)
Definition githubTokenMap (env : list (string * string)) : JsRecord string :=
  fold_left (fun map kv =>
               if is_token_variable kv then assign map (repoKey (fst kv)) (snd kv)
               else map)
    env (object_literal ∅).

Lemma lower_char_idempotent c : lower_char (lower_char c) = lower_char c.
Proof. destruct c as [[] [] [] [] [] [] [] []]; reflexivity. Qed.

Lemma toLowerCase_idempotent s : toLowerCase (toLowerCase s) = toLowerCase s.
Proof.
  unfold toLowerCase. rewrite chars_of_chars, map_map. f_equal.
  apply map_ext. intros c. apply lower_char_idempotent.
Qed.

Lemma replace_first_prefix pattern s :
  starts_with pattern s = true ->
  replace_first pattern [] s = drop (length pattern) s.
Proof. intros H. destruct s; simpl; rewrite H; reflexivity. Qed.

(** The key made from a variable the loop keeps is the rest of the name
    after the prefix, in lower case. *)
Lemma repoKey_suffix suffix :
  repoKey (TOKEN_PREFIX +:+ suffix) = toLowerCase suffix.
Proof.
  unfold repoKey. rewrite chars_append.
  rewrite replace_first_prefix by apply starts_with_app.
  rewrite drop_app_length, of_chars_chars. reflexivity.
Qed.

Lemma githubTokenMap_keys_lower : forall env map,
  (forall key, configured key map -> toLowerCase key = key) ->
  forall key,
    configured key
      (fold_left (fun map kv =>
                    if is_token_variable kv then assign map (repoKey (fst kv)) (snd kv)
                    else map) env map) ->
    toLowerCase key = key.
Proof.
  induction env as [|kv env IH]; intros map Hmap key; simpl; [apply Hmap|].
  apply IH. destruct (is_token_variable kv); [|exact Hmap].
  intros k. unfold assign, configured.
  destruct (String.eqb (repoKey (fst kv)) "__proto__"); [apply Hmap|]. simpl.
  destruct (decide (repoKey (fst kv) = k)) as [<-|Hne].
  - intros _. unfold repoKey. apply toLowerCase_idempotent.
  - rewrite lookup_insert_ne by exact Hne. apply Hmap.
Qed.

(** Every identifier configured in a token map read from the environment is
    in lower case. Hence an identifier of the [owner/repo] form that holds a
    capital letter is refused by [validateRepoId] and [assertValidRepoId],
    whatever the environment holds. *)
Theorem capital_letter_never_allowed env repoId :
  includes repoId "/" = true ->
  toLowerCase repoId <> repoId ->
  validateRepoId repoId (githubTokenMap env) = false
  /\ exists e, assertValidRepoId repoId (githubTokenMap env) = Throw e
               /\ code e = INVALID_REPO.
Proof.
  intros Hslash Hcap.
  assert (Hv : validateRepoId repoId (githubTokenMap env) = false).
  { apply not_true_is_false. intros Hv.
    apply (validateRepoId_closed_world_with_slash _ _ Hslash) in Hv.
    apply Hcap. revert Hv. unfold githubTokenMap.
    apply githubTokenMap_keys_lower.
    intros key [v Hk]. simpl in Hk. rewrite lookup_empty in Hk. discriminate Hk. }
  split; [exact Hv|].
  destruct (assertValidRepoId_spec repoId (githubTokenMap env)) as [_ Hthrow].
  destruct (Hthrow Hv) as (e & He & Hc & _). exists e. split; assumption.
Qed.

Lemma capital_letter_never_allowed_witness :
  validateRepoId "Owner1/Repo1"
    (githubTokenMap [("PATH", "/usr/bin"); ("CSB_GITHUB_TOKEN_Owner1/Repo1", "github_pat_x")])
  = false
  /\ validateRepoId "owner1/repo1"
       (githubTokenMap [("PATH", "/usr/bin"); ("CSB_GITHUB_TOKEN_Owner1/Repo1", "github_pat_x")])
     = true.
Proof.
  split.
  - apply (capital_letter_never_allowed
             [("PATH", "/usr/bin"); ("CSB_GITHUB_TOKEN_Owner1/Repo1", "github_pat_x")]
             "Owner1/Repo1").
    + reflexivity.
    + vm_compute. discriminate.
  - vm_compute. reflexivity.
Defined.

Definition fold_step (map : JsRecord string) (kv : string * string) : JsRecord string :=
  if is_token_variable kv then assign map (repoKey (fst kv)) (snd kv) else map.

Lemma later_variables_keep key value : forall env map,
  own map !! key = Some value ->
  Forall (fun kv => is_token_variable kv = true -> repoKey (fst kv) <> key) env ->
  own (fold_left fold_step env map) !! key = Some value.
Proof.
  induction env as [|kv env IH]; intros map Hmap Henv; simpl; [exact Hmap|].
  apply Forall_cons in Henv as [Hkv Henv]. apply IH; [|exact Henv].
  unfold fold_step. destruct (is_token_variable kv); [|exact Hmap].
  unfold assign. destruct (String.eqb (repoKey (fst kv)) "__proto__"); [exact Hmap|].
  simpl. rewrite lookup_insert_ne by (apply Hkv; reflexivity). exact Hmap.
Qed.

(** Lookup after load: a variable [CSB_GITHUB_TOKEN_<suffix>] with a value
    that is not empty configures the lower-cased suffix with that value,
    provided no later variable of the environment yields the same key (two
    names that differ in case only yield the same key, and the later one
    wins). *)
Theorem githubTokenMap_lookup before suffix value after :
  value <> "" ->
  toLowerCase suffix <> "__proto__" ->
  Forall (fun kv => is_token_variable kv = true ->
                    repoKey (fst kv) <> toLowerCase suffix) after ->
  own (githubTokenMap (before ++ (TOKEN_PREFIX +:+ suffix, value) :: after))
    !! toLowerCase suffix = Some value.
Proof.
  intros Hvalue Hproto Hafter. unfold githubTokenMap.
  rewrite fold_left_app. simpl fold_left.
  change (fun map kv => if is_token_variable kv
                        then assign map (repoKey (fst kv)) (snd kv) else map)
    with fold_step.
  apply later_variables_keep; [|exact Hafter].
  unfold fold_step at 1.
  assert (His : is_token_variable (TOKEN_PREFIX +:+ suffix, value) = true).
  { unfold is_token_variable, startsWith. simpl fst. simpl snd.
    rewrite chars_append, starts_with_app.
    destruct (String.eqb_spec value ""); [contradiction|reflexivity]. }
  rewrite His. simpl fst. simpl snd. rewrite repoKey_suffix. unfold assign.
  destruct (String.eqb_spec (toLowerCase suffix) "__proto__"); [contradiction|].
  simpl. apply lookup_insert_eq.
Qed.

Lemma githubTokenMap_lookup_witness :
  own (githubTokenMap
         [ ("CSB_GITHUB_TOKEN_Repo_1", "old"); ("HOME", "/root");
           ("CSB_GITHUB_TOKEN_REPO_1", "github_pat_xxx");
           ("CSB_GITHUB_TOKEN_REPO_2", "github_pat_yyy");
           ("CSB_GITHUB_TOKEN_REPO_3", "") ])
    !! "repo_1" = Some "github_pat_xxx".
Proof.
  apply (githubTokenMap_lookup
           [("CSB_GITHUB_TOKEN_Repo_1", "old"); ("HOME", "/root")]
           "REPO_1" "github_pat_xxx"
           [("CSB_GITHUB_TOKEN_REPO_2", "github_pat_yyy");
            ("CSB_GITHUB_TOKEN_REPO_3", "")]).
  - discriminate.
  - vm_compute. discriminate.
  - repeat constructor; vm_compute; discriminate.
Defined.

Lemma githubTokenMap_snoc env kv :
  githubTokenMap (env ++ [kv]) = fold_step (githubTokenMap env) kv.
Proof. unfold githubTokenMap. rewrite fold_left_app. reflexivity. Qed.

Lemma token_variable_inv kv :
  is_token_variable kv = true ->
  exists suffix, fst kv = TOKEN_PREFIX +:+ suffix /\ snd kv <> "".
Proof.
  unfold is_token_variable, startsWith. intros H.
  apply andb_true_iff in H as [Hp Hv]. apply starts_with_inv in Hp as [t Ht].
  exists (of_chars t). split.
  - apply chars_inj. rewrite chars_append, chars_of_chars. exact Ht.
  - intros Hempty. rewrite Hempty in Hv. discriminate Hv.
Qed.

(** Where a configured token comes from: a variable of the environment
    whose name is the prefix followed by the key, up to the case of the
    letters, and whose value, which is not empty, is the token. *)
Lemma configured_token_origin : forall env key value,
  own (githubTokenMap env) !! key = Some value ->
  exists suffix,
    In (TOKEN_PREFIX +:+ suffix, value) env
    /\ value <> "" /\ toLowerCase suffix = key.
Proof.
  induction env as [|kv env IH] using rev_ind; intros key value H.
  - simpl in H. rewrite lookup_empty in H. discriminate H.
  - rewrite githubTokenMap_snoc in H. unfold fold_step in H.
    assert (Hold : own (githubTokenMap env) !! key = Some value ->
                   exists suffix,
                     In (TOKEN_PREFIX +:+ suffix, value) (env ++ [kv])
                     /\ value <> "" /\ toLowerCase suffix = key).
    { intros Hk. destruct (IH key value Hk) as (suffix & Hin & Hv & Hs).
      exists suffix. split; [apply in_or_app; left; exact Hin|]. split; assumption. }
    destruct (is_token_variable kv) eqn:Hkv; [|exact (Hold H)].
    unfold assign in H.
    destruct (String.eqb (repoKey (fst kv)) "__proto__"); [exact (Hold H)|].
    cbn [own] in H.
    destruct (decide (repoKey (fst kv) = key)) as [Heq|Hne].
    + rewrite Heq, lookup_insert_eq in H. injection H as <-.
      destruct (token_variable_inv kv Hkv) as (suffix & Hname & Hvalue).
      exists suffix. split; [|split].
      * apply in_or_app. right. left. rewrite <- Hname. destruct kv; reflexivity.
      * exact Hvalue.
      * rewrite <- Heq, Hname. symmetry. apply repoKey_suffix.
    + rewrite lookup_insert_ne in H by exact Hne. exact (Hold H).
Qed.

End Config.


(** ** services/rate-limiter.ts *)

Module RateLimiter.
Import JsString ErrorHandler.

Inductive UserTier : Type := free | pro.

Inductive Operation : Type := api_call | create_sandbox.

Record RateLimitEntry : Type := mkEntry {
  count : Z;
  resetAt : Z;
  hourlyCount : option Z;
  hourlyResetAt : option Z;
  dailyExecutionMs : option Z;
  dailyResetAt : option Z
}.

Record QuotaLimits : Type := mkLimits {
  sandboxesPerHour : Z;
  apiCallsPerMinute : Z;
  executionTimePerDay : Z
}.

Definition QUOTA_TIERS (tier : UserTier) : QuotaLimits :=
  match tier with
  | free => mkLimits 5 10 3600000
  | pro => mkLimits 100 100 86400000
  end.

(** The private map [limits] of a [RateLimiter]. *)
Abbreviation Limits := (gmap string RateLimitEntry).

(** An optional number in a condition ([x && ...]) and in [x || 0]. *)
Definition truthy (x : option Z) : bool :=
  match x with Some n => negb (n =? 0) | None => false end.

Definition or_zero (x : option Z) : Z :=
  match x with Some n => n | None => 0 end.

(** [Math.ceil(ms / 1000)] on an integer number of milliseconds. *)
Definition ceil_seconds (ms : Z) : Z := - ((- ms) / 1000).

(** A number inside a template literal; [None] is [NaN]. *)
Definition show_number (x : option Z) : string :=
  match x with Some n => dec_of_Z n | None => "NaN" end.

Definition operation_name (operation : Operation) : string :=
  match operation with
  | api_call => "api_call"
  | create_sandbox => "create_sandbox"
  end.

Definition limit_key (userId : string) (operation : Operation) : string :=
  userId +:+ ":" +:+ operation_name operation.

Definition execution_key (userId : string) : string :=
  userId +:+ ":execution_time".

(** The entry [checkLimit] creates for a new or an expired key. *)
Definition new_limit_entry (now : Z) : RateLimitEntry :=
  mkEntry 0 (now + 60000) (Some 0) (Some (now + 3600000))
          (Some 0) (Some (now + 86400000)).

(** The entry [recordExecutionTime] creates. *)
Definition new_execution_entry (now : Z) : RateLimitEntry :=
  mkEntry 0 (now + 60000) None None (Some 0) (Some (now + 86400000)).

(** "Initialize or reset expired entries". *)
Definition open_limit_entry (now : Z) (old : option RateLimitEntry) : RateLimitEntry :=
  match old with
  | Some entry => if now >? resetAt entry then new_limit_entry now else entry
  | None => new_limit_entry now
  end.

(** "Reset hourly counter if expired". *)
Definition reset_hourly (now : Z) (entry : RateLimitEntry) : RateLimitEntry :=
  if truthy (hourlyResetAt entry) && (now >? or_zero (hourlyResetAt entry))
  then mkEntry (count entry) (resetAt entry) (Some 0) (Some (now + 3600000))
               (dailyExecutionMs entry) (dailyResetAt entry)
  else entry.

(** "Reset daily counter if expired". *)
Definition reset_daily (now : Z) (entry : RateLimitEntry) : RateLimitEntry :=
  if truthy (dailyResetAt entry) && (now >? or_zero (dailyResetAt entry))
  then mkEntry (count entry) (resetAt entry) (hourlyCount entry) (hourlyResetAt entry)
               (Some 0) (Some (now + 86400000))
  else entry.

Definition rate_limit_error (retryAfter : option Z) : MCPError :=
  mkMCPError RATE_LIMIT_EXCEEDED
    ("Rate limit exceeded. Try again in " +:+ show_number retryAfter +:+ " seconds.")
    429 true.

Definition sandbox_quota_error (retryAfter : option Z) : MCPError :=
  mkMCPError QUOTA_EXCEEDED
    ("Sandbox quota exceeded. Try again in " +:+ show_number retryAfter +:+ " seconds.")
    429 true.

Definition daily_quota_error : MCPError :=
  mkMCPError QUOTA_EXCEEDED "Daily execution time quota exceeded" 429 true.

(** [checkLimit], with the clock reading [now]. The entry is an object
    held by the map and changed in place, so every change made before a
    [throw] stays in the map. *)
Definition checkLimit (userId : string) (tier : UserTier) (operation : Operation)
  (now : Z) (limits : Limits) : Result MCPError bool * Limits :=
  let key := limit_key userId operation in
  let quota := QUOTA_TIERS tier in
  let entry := open_limit_entry now (limits !! key) in
  let entry := reset_hourly now entry in
  let entry := reset_daily now entry in
  match operation with
  | api_call =>
      if count entry >=? apiCallsPerMinute quota then
        let retryAfter := ceil_seconds (resetAt entry - now) in
        (Throw (rate_limit_error (Some retryAfter)), <[key := entry]> limits)
      else
        (Ok true,
         <[key := mkEntry (count entry + 1) (resetAt entry)
                    (hourlyCount entry) (hourlyResetAt entry)
                    (dailyExecutionMs entry) (dailyResetAt entry)]> limits)
  | create_sandbox =>
      if or_zero (hourlyCount entry) >=? sandboxesPerHour quota then
        let retryAfter :=
          match hourlyResetAt entry with
          | Some r => Some (ceil_seconds (r - now))
          | None => None
          end in
        (Throw (sandbox_quota_error retryAfter), <[key := entry]> limits)
      else
        (Ok true,
         <[key := mkEntry (count entry + 1) (resetAt entry)
                    (Some (or_zero (hourlyCount entry) + 1)) (hourlyResetAt entry)
                    (dailyExecutionMs entry) (dailyResetAt entry)]> limits)
  end.

(** The entry [recordExecutionTime] starts from. *)
Definition open_execution_entry (now : Z) (old : option RateLimitEntry)
  : RateLimitEntry :=
  match old with
  | Some entry =>
      if now >? or_zero (dailyResetAt entry) then new_execution_entry now else entry
  | None => new_execution_entry now
  end.

Definition recordExecutionTime (userId : string) (tier : UserTier)
  (executionTimeMs : Z) (now : Z) (limits : Limits)
  : Result MCPError unit * Limits :=
  let key := execution_key userId in
  let quota := QUOTA_TIERS tier in
  let entry := open_execution_entry now (limits !! key) in
  let total := or_zero (dailyExecutionMs entry) + executionTimeMs in
  let entry := mkEntry (count entry) (resetAt entry)
                 (hourlyCount entry) (hourlyResetAt entry)
                 (Some total) (dailyResetAt entry) in
  if total >? executionTimePerDay quota
  then (Throw daily_quota_error, <[key := entry]> limits)
  else (Ok tt, <[key := entry]> limits).

(** Several [checkLimit] calls in a row, one per clock reading. *)
Fixpoint checkLimit_each (userId : string) (tier : UserTier) (operation : Operation)
  (times : list Z) (limits : Limits) : list (Result MCPError bool) * Limits :=
  match times with
  | [] => ([], limits)
  | now :: later =>
      let '(r, limits1) := checkLimit userId tier operation now limits in
      let '(rs, limits2) := checkLimit_each userId tier operation later limits1 in
      (r :: rs, limits2)
  end.

(** Several [recordExecutionTime] calls in a row, each a clock reading
    and a duration. *)
Fixpoint recordExecutionTime_each (userId : string) (tier : UserTier)
  (calls : list (Z * Z)) (limits : Limits) : list (Result MCPError unit) * Limits :=
  match calls with
  | [] => ([], limits)
  | (now, ms) :: later =>
      let '(r, limits1) := recordExecutionTime userId tier ms now limits in
      let '(rs, limits2) := recordExecutionTime_each userId tier later limits1 in
      (r :: rs, limits2)
  end.

Definition is_ok {E A} (r : Result E A) : bool :=
  match r with Ok _ => true | Throw _ => false end.

Definition thrown_code {A} (r : Result MCPError A) : option ERROR_CODES :=
  match r with Ok _ => None | Throw e => Some (code e) end.

(** *** Keys *)

Lemma limit_key_chars userId operation :
  rev (chars (limit_key userId operation))
  = rev (chars (":" +:+ operation_name operation)) ++ rev (chars userId).
Proof. unfold limit_key. rewrite chars_append, rev_app_distr. reflexivity. Qed.

Lemma execution_key_chars userId :
  rev (chars (execution_key userId))
  = rev (chars ":execution_time") ++ rev (chars userId).
Proof. unfold execution_key. rewrite chars_append, rev_app_distr. reflexivity. Qed.

Lemma limit_key_inj u1 o1 u2 o2 :
  limit_key u1 o1 = limit_key u2 o2 -> u1 = u2 /\ o1 = o2.
Proof.
  intros H. assert (Ho : o1 = o2).
  { apply (f_equal (fun k => rev (chars k))) in H.
    rewrite !limit_key_chars in H.
    destruct o1, o2; try reflexivity; simpl in H; inversion H. }
  subst o2. split; [|reflexivity].
  unfold limit_key in H. exact (append_inv_tail _ _ _ H).
Qed.

Lemma limit_key_not_execution_key u1 operation u2 :
  limit_key u1 operation <> execution_key u2.
Proof.
  intros H. apply (f_equal (fun k => rev (chars k))) in H.
  rewrite limit_key_chars, execution_key_chars in H.
  destruct operation; simpl in H; inversion H.
Qed.

Lemma execution_key_inj u1 u2 : execution_key u1 = execution_key u2 -> u1 = u2.
Proof. unfold execution_key. apply append_inv_tail. Qed.

(** *** What a call leaves in the map *)

Lemma checkLimit_other_key userId tier operation now limits key :
  key <> limit_key userId operation ->
  snd (checkLimit userId tier operation now limits) !! key = limits !! key.
Proof.
  intros Hne. unfold checkLimit.
  destruct operation;
    match goal with |- context [if ?b then _ else _] => destruct b end;
    simpl; rewrite lookup_insert_ne by congruence; reflexivity.
Qed.

Lemma recordExecutionTime_other_key userId tier ms now limits key :
  key <> execution_key userId ->
  snd (recordExecutionTime userId tier ms now limits) !! key = limits !! key.
Proof.
  intros Hne. unfold recordExecutionTime.
  match goal with |- context [if ?b then _ else _] => destruct b end;
    simpl; rewrite lookup_insert_ne by congruence; reflexivity.
Qed.

(** Calls of [checkLimit], for any identity, leave every execution-time
    entry alone; calls for another identity or another operation class
    leave a limit entry alone. *)
Lemma checkLimit_keeps_execution_entry userId tier operation now limits userId' :
  snd (checkLimit userId tier operation now limits) !! execution_key userId'
  = limits !! execution_key userId'.
Proof.
  apply checkLimit_other_key. intros H. symmetry in H.
  exact (limit_key_not_execution_key _ _ _ H).
Qed.

Lemma recordExecutionTime_other_identity userId tier ms now limits userId' :
  userId' <> userId ->
  snd (recordExecutionTime userId tier ms now limits) !! execution_key userId'
  = limits !! execution_key userId'.
Proof.
  intros Hne. apply recordExecutionTime_other_key.
  intros H. apply execution_key_inj in H. contradiction.
Qed.

(** *** The daily execution-time quota *)

(** The total [recordExecutionTime] starts from, and the end of the daily
    window the call falls in: those of the stored entry, or of a new entry
    when there is none or when the stored one has expired. *)
Definition daily_start (userId : string) (now : Z) (limits : Limits) : Z :=
  or_zero (dailyExecutionMs (open_execution_entry now (limits !! execution_key userId))).

Definition daily_window_end (userId : string) (now : Z) (limits : Limits) : Z :=
  or_zero (dailyResetAt (open_execution_entry now (limits !! execution_key userId))).

Definition daily_recorded (userId : string) (limits : Limits) : option Z :=
  match limits !! execution_key userId with
  | Some entry => dailyExecutionMs entry
  | None => None
  end.

Lemma recordExecutionTime_result userId tier ms now limits :
  fst (recordExecutionTime userId tier ms now limits)
  = if daily_start userId now limits + ms >? executionTimePerDay (QUOTA_TIERS tier)
    then Throw daily_quota_error else Ok tt.
Proof.
  unfold recordExecutionTime, daily_start.
  match goal with |- context [if ?b then _ else _] => destruct b end; reflexivity.
Qed.

Lemma recordExecutionTime_entry userId tier ms now limits :
  snd (recordExecutionTime userId tier ms now limits) !! execution_key userId
  = Some (let entry := open_execution_entry now (limits !! execution_key userId) in
          mkEntry (count entry) (resetAt entry) (hourlyCount entry) (hourlyResetAt entry)
            (Some (daily_start userId now limits + ms)) (dailyResetAt entry)).
Proof.
  unfold recordExecutionTime, daily_start.
  match goal with |- context [if ?b then _ else _] => destruct b end;
    simpl; rewrite lookup_insert_eq; reflexivity.
Qed.

(** A call inside the window of an entry whose total is over the ceiling:
    with a duration that is not negative it throws, and the entry stays
    over the ceiling, in the same window. *)
Lemma recordExecutionTime_stays_over userId tier ms now limits entry :
  limits !! execution_key userId = Some entry ->
  or_zero (dailyExecutionMs entry) > executionTimePerDay (QUOTA_TIERS tier) ->
  now <= or_zero (dailyResetAt entry) ->
  0 <= ms ->
  fst (recordExecutionTime userId tier ms now limits) = Throw daily_quota_error
  /\ exists entry',
      snd (recordExecutionTime userId tier ms now limits) !! execution_key userId
        = Some entry'
      /\ or_zero (dailyExecutionMs entry') > executionTimePerDay (QUOTA_TIERS tier)
      /\ dailyResetAt entry' = dailyResetAt entry.
Proof.
  intros Hl Hover Hnow Hms.
  assert (Hopen : open_execution_entry now (limits !! execution_key userId) = entry).
  { rewrite Hl. simpl. destruct (Z.gtb_spec now (or_zero (dailyResetAt entry))); [lia|reflexivity]. }
  split.
  - rewrite recordExecutionTime_result. unfold daily_start. rewrite Hopen.
    destruct (Z.gtb_spec (or_zero (dailyExecutionMs entry) + ms)
                (executionTimePerDay (QUOTA_TIERS tier))); [reflexivity|lia].
  - rewrite recordExecutionTime_entry. unfold daily_start. rewrite Hopen.
    eexists. split; [reflexivity|]. simpl. split; [lia|reflexivity].
Qed.

Lemma recordExecutionTime_each_stays_over userId tier : forall calls limits entry,
  limits !! execution_key userId = Some entry ->
  or_zero (dailyExecutionMs entry) > executionTimePerDay (QUOTA_TIERS tier) ->
  Forall (fun call => fst call <= or_zero (dailyResetAt entry) /\ 0 <= snd call) calls ->
  Forall (fun r => r = Throw daily_quota_error)
    (fst (recordExecutionTime_each userId tier calls limits)).
Proof.
  induction calls as [|[now ms] calls IH]; intros limits entry Hl Hover Hcalls; simpl.
  - constructor.
  - apply Forall_cons in Hcalls as [[Hnow Hms] Hcalls]. simpl in Hnow, Hms.
    destruct (recordExecutionTime_stays_over userId tier ms now limits entry
                Hl Hover Hnow Hms) as (Hthrow & entry' & Hl' & Hover' & Hreset).
    destruct (recordExecutionTime userId tier ms now limits) as [r limits1].
    simpl in Hthrow, Hl'. subst r.
    rewrite <- Hreset in Hcalls.
    specialize (IH limits1 entry' Hl' Hover' Hcalls).
    destruct (recordExecutionTime_each userId tier calls limits1) as [rs limits2].
    simpl in *. constructor; [reflexivity|exact IH].
Qed.

(** C10, as amended. [recordExecutionTime] adds the duration to the daily total before
    it checks the ceiling and keeps it when it throws: it throws the
    quota-exceeded error exactly when the total after the addition is
    strictly over the daily ceiling of the tier (a total equal to the
    ceiling is accepted); the total after the addition is what the map
    holds afterwards, thrown or not; and once a call has thrown, every later
    call for the same identity and tier, made before the end of that daily
    window with a duration that is not negative, throws as well. *)
Theorem recordExecutionTime_adds_then_checks userId tier ms now limits :
  let ceiling := executionTimePerDay (QUOTA_TIERS tier) in
  let total := daily_start userId now limits + ms in
  let outcome := recordExecutionTime userId tier ms now limits in
  (total > ceiling -> fst outcome = Throw daily_quota_error)
  /\ (total <= ceiling -> fst outcome = Ok tt)
  /\ code daily_quota_error = QUOTA_EXCEEDED
  /\ daily_recorded userId (snd outcome) = Some total
  /\ (total > ceiling ->
      forall later,
        Forall (fun call => fst call <= daily_window_end userId now limits
                            /\ 0 <= snd call) later ->
        Forall (fun r => r = Throw daily_quota_error)
          (fst (recordExecutionTime_each userId tier later (snd outcome)))).
Proof.
  intros ceiling total outcome. subst ceiling total outcome.
  rewrite recordExecutionTime_result.
  repeat split.
  - intros H. destruct (Z.gtb_spec (daily_start userId now limits + ms)
                          (executionTimePerDay (QUOTA_TIERS tier))); [reflexivity|lia].
  - intros H. destruct (Z.gtb_spec (daily_start userId now limits + ms)
                          (executionTimePerDay (QUOTA_TIERS tier))); [lia|reflexivity].
  - unfold daily_recorded. rewrite recordExecutionTime_entry. reflexivity.
  - intros Hover later Hlater.
    eapply recordExecutionTime_each_stays_over.
    + apply recordExecutionTime_entry.
    + simpl. exact Hover.
    + simpl. exact Hlater.
Qed.

Lemma recordExecutionTime_adds_then_checks_witness :
  fst (recordExecutionTime "user2" free 1800000 5 ∅) = Ok tt
  /\ fst (recordExecutionTime "user2" free 3600000 5 ∅) = Ok tt
  /\ fst (recordExecutionTime "user2" free 3600001 5 ∅) = Throw daily_quota_error
  /\ Forall (fun r => r = Throw daily_quota_error)
       (fst (recordExecutionTime_each "user2" free [(6, 0); (86400005, 100)]
               (snd (recordExecutionTime "user2" free 3600001 5 ∅)))).
Proof.
  split; [|split; [|split]].
  - apply (recordExecutionTime_adds_then_checks "user2" free 1800000 5 ∅).
    vm_compute. discriminate.
  - apply (recordExecutionTime_adds_then_checks "user2" free 3600000 5 ∅).
    vm_compute. discriminate.
  - apply (recordExecutionTime_adds_then_checks "user2" free 3600001 5 ∅).
    vm_compute. reflexivity.
  - apply (recordExecutionTime_adds_then_checks "user2" free 3600001 5 ∅).
    + vm_compute. reflexivity.
    + repeat constructor; vm_compute; discriminate.
Defined.

(** C10 as first stated, without the two conditions on the later calls,
    fails: after a call that threw, a later call inside the same daily
    window is accepted when its duration is negative, and when it is made
    under the other tier. *)
Lemma recordExecutionTime_later_call_accepted :
  let limits := snd (recordExecutionTime "user2" free 3600001 5 ∅) in
  fst (recordExecutionTime "user2" free 3600001 5 ∅) = Throw daily_quota_error
  /\ 6 <= daily_window_end "user2" 5 ∅
  /\ fst (recordExecutionTime "user2" free (-2) 6 limits) = Ok tt
  /\ fst (recordExecutionTime "user2" pro 0 6 limits) = Ok tt.
Proof.
  repeat split; try (vm_compute; reflexivity). vm_compute. discriminate.
Qed.

(** *** Rejections *)

Definition mentions_a_number (s : string) : bool := existsb is_digit (chars s).

(** What [checkLimit] throws: the error of the operation class, with the
    seconds left until the reset time the entry holds for that class. *)
Lemma checkLimit_rejection userId tier operation now limits e :
  fst (checkLimit userId tier operation now limits) = Throw e ->
  let entry := reset_daily now (reset_hourly now
                 (open_limit_entry now (limits !! limit_key userId operation))) in
  e = match operation with
      | api_call => rate_limit_error (Some (ceil_seconds (resetAt entry - now)))
      | create_sandbox =>
          sandbox_quota_error
            (match hourlyResetAt entry with
             | Some r => Some (ceil_seconds (r - now))
             | None => None
             end)
      end.
Proof.
  unfold checkLimit. destruct operation;
    match goal with |- context [if ?b then _ else _] => destruct b end;
    simpl; intros H; inversion H; reflexivity.
Qed.

(** Every rejection of the limiter is marked retryable, with status 429. *)
Lemma rejections_retryable :
  (forall userId tier operation now limits e,
     fst (checkLimit userId tier operation now limits) = Throw e ->
     retryable e = true /\ statusCode e = 429)
  /\ (forall userId tier ms now limits e,
        fst (recordExecutionTime userId tier ms now limits) = Throw e ->
        retryable e = true /\ statusCode e = 429).
Proof.
  split.
  - intros userId tier operation now limits e H.
    apply checkLimit_rejection in H. subst e. destruct operation; split; reflexivity.
  - intros userId tier ms now limits e H. rewrite recordExecutionTime_result in H.
    destruct (_ >? _); inversion H. split; reflexivity.
Qed.

(** C7 (the code departs from the claim). The rejections of [checkLimit]
    report the seconds until the reset: the eleventh call of a minute is
    told to try again in 60 seconds, the sixth sandbox of an hour in 3600
    seconds. The rejection of [recordExecutionTime] is retryable as well,
    but its message is the fixed text "Daily execution time quota
    exceeded", which reports no number of seconds. *)
Theorem daily_quota_rejection_has_no_wait_hint :
  last (fst (checkLimit_each "user2" free api_call (repeat 0 11) ∅))
    = Some (Throw (mkMCPError RATE_LIMIT_EXCEEDED
                     "Rate limit exceeded. Try again in 60 seconds." 429 true))
  /\ last (fst (checkLimit_each "user3" free create_sandbox (repeat 0 6) ∅))
    = Some (Throw (mkMCPError QUOTA_EXCEEDED
                     "Sandbox quota exceeded. Try again in 3600 seconds." 429 true))
  /\ fst (recordExecutionTime "user2" free 3600001 0 ∅)
    = Throw (mkMCPError QUOTA_EXCEEDED "Daily execution time quota exceeded" 429 true)
  /\ mentions_a_number (message daily_quota_error) = false.
Proof. repeat split; vm_compute; reflexivity. Qed.

(** *** Admission inside one window *)

Definition ceiling (tier : UserTier) (operation : Operation) : Z :=
  match operation with
  | api_call => apiCallsPerMinute (QUOTA_TIERS tier)
  | create_sandbox => sandboxesPerHour (QUOTA_TIERS tier)
  end.

(** The entry of a key after [k] accepted calls, all made before the reset
    time of the entry that the call at [t1] created. *)
Definition entry_after (operation : Operation) (t1 k : Z) : RateLimitEntry :=
  mkEntry k (t1 + 60000)
    (Some (match operation with api_call => 0 | create_sandbox => k end))
    (Some (t1 + 3600000)) (Some 0) (Some (t1 + 86400000)).

Definition rejection (operation : Operation) (t1 now : Z) : MCPError :=
  match operation with
  | api_call => rate_limit_error (Some (ceil_seconds (t1 + 60000 - now)))
  | create_sandbox => sandbox_quota_error (Some (ceil_seconds (t1 + 3600000 - now)))
  end.

(** The key has no entry, or the reset time of its entry has passed. *)
Definition expired (limits : Limits) (key : string) (now : Z) : Prop :=
  match limits !! key with
  | Some entry => resetAt entry < now
  | None => True
  end.

Lemma ceiling_positive tier operation : 0 < ceiling tier operation.
Proof. destruct tier, operation; reflexivity. Qed.

Lemma reset_hourly_inside now entry r :
  hourlyResetAt entry = Some r -> now <= r -> reset_hourly now entry = entry.
Proof.
  intros Hr Hnow. unfold reset_hourly. rewrite Hr. simpl.
  destruct (Z.gtb_spec now r); [lia|]. rewrite andb_false_r. reflexivity.
Qed.

Lemma reset_daily_inside now entry r :
  dailyResetAt entry = Some r -> now <= r -> reset_daily now entry = entry.
Proof.
  intros Hr Hnow. unfold reset_daily. rewrite Hr. simpl.
  destruct (Z.gtb_spec now r); [lia|]. rewrite andb_false_r. reflexivity.
Qed.

(** After the reset time has passed, the next call is admitted, however
    many calls the old entry had counted. *)
Lemma checkLimit_after_reset userId tier operation t1 limits :
  expired limits (limit_key userId operation) t1 ->
  checkLimit userId tier operation t1 limits
  = (Ok true, <[limit_key userId operation := entry_after operation t1 1]> limits).
Proof.
  intros Hexp. unfold expired in Hexp. unfold checkLimit.
  assert (Hopen : open_limit_entry t1 (limits !! limit_key userId operation)
                  = new_limit_entry t1).
  { destruct (limits !! limit_key userId operation) as [entry|]; simpl; [|reflexivity].
    destruct (Z.gtb_spec t1 (resetAt entry)); [reflexivity|lia]. }
  rewrite Hopen.
  rewrite (reset_hourly_inside t1 _ (t1 + 3600000)) by (reflexivity || lia).
  rewrite (reset_daily_inside t1 _ (t1 + 86400000)) by (reflexivity || lia).
  destruct tier, operation; reflexivity.
Qed.

Lemma checkLimit_inside userId tier operation t1 k now limits :
  limits !! limit_key userId operation = Some (entry_after operation t1 k) ->
  now <= t1 + 60000 ->
  checkLimit userId tier operation now limits
  = if k >=? ceiling tier operation
    then (Throw (rejection operation t1 now),
          <[limit_key userId operation := entry_after operation t1 k]> limits)
    else (Ok true,
          <[limit_key userId operation := entry_after operation t1 (k + 1)]> limits).
Proof.
  intros Hl Hnow. unfold checkLimit. rewrite Hl.
  assert (Hopen : open_limit_entry now (Some (entry_after operation t1 k))
                  = entry_after operation t1 k).
  { simpl. destruct (Z.gtb_spec now (t1 + 60000)); [lia|reflexivity]. }
  rewrite Hopen.
  rewrite (reset_hourly_inside now _ (t1 + 3600000)) by (reflexivity || lia).
  rewrite (reset_daily_inside now _ (t1 + 86400000)) by (reflexivity || lia).
  destruct operation; simpl; destruct (_ >=? _); reflexivity.
Qed.

Lemma checkLimit_each_app userId tier operation times1 : forall times2 limits,
  checkLimit_each userId tier operation (times1 ++ times2) limits
  = let r1 := checkLimit_each userId tier operation times1 limits in
    let r2 := checkLimit_each userId tier operation times2 (snd r1) in
    (fst r1 ++ fst r2, snd r2).
Proof.
  induction times1 as [|t times1 IH]; intros times2 limits; simpl.
  - destruct (checkLimit_each _ _ _ times2 limits); reflexivity.
  - destruct (checkLimit userId tier operation t limits) as [r limits1].
    rewrite IH. simpl.
    destruct (checkLimit_each _ _ _ times1 limits1) as [rs1 limits2]. simpl.
    destruct (checkLimit_each _ _ _ times2 limits2); reflexivity.
Qed.

(** While the count stays within the ceiling, calls inside the window are
    admitted and counted. *)
Lemma checkLimit_each_admitted userId tier operation t1 : forall times k limits,
  limits !! limit_key userId operation = Some (entry_after operation t1 k) ->
  Forall (fun t => t <= t1 + 60000) times ->
  k + Z.of_nat (length times) <= ceiling tier operation ->
  fst (checkLimit_each userId tier operation times limits)
    = repeat (Ok true) (length times)
  /\ snd (checkLimit_each userId tier operation times limits)
       !! limit_key userId operation
     = Some (entry_after operation t1 (k + Z.of_nat (length times))).
Proof.
  induction times as [|t times IH]; intros k limits Hl Htimes Hk; simpl.
  - split; [reflexivity|]. rewrite Z.add_0_r. exact Hl.
  - apply Forall_cons in Htimes as [Ht Htimes].
    rewrite (checkLimit_inside userId tier operation t1 k t limits Hl Ht).
    simpl length in Hk.
    destruct (Z.geb_spec k (ceiling tier operation)); [lia|].
    specialize (IH (k + 1)
                  (<[limit_key userId operation := entry_after operation t1 (k + 1)]> limits)
                  (lookup_insert_eq _ _ _) Htimes ltac:(lia)).
    destruct (checkLimit_each _ _ _ times _) as [rs limits2]. simpl in *.
    destruct IH as [-> ->]. split; [reflexivity|]. f_equal. f_equal. lia.
Qed.

(** The part of C1 that holds for both operation classes: from a key that
    has no live entry, as many calls as the ceiling allows are admitted and
    the next one is rejected, provided all of them come before the reset
    time of the entry, one minute after the first call. *)
Lemma ceiling_reached_within_the_minute userId tier operation t1 later t limits :
  expired limits (limit_key userId operation) t1 ->
  Forall (fun t' => t' <= t1 + 60000) later ->
  1 + Z.of_nat (length later) = ceiling tier operation ->
  t <= t1 + 60000 ->
  fst (checkLimit_each userId tier operation (t1 :: later ++ [t]) limits)
  = repeat (Ok true) (S (length later)) ++ [Throw (rejection operation t1 t)].
Proof.
  intros Hexp Hlater Hlen Ht. simpl.
  rewrite (checkLimit_after_reset userId tier operation t1 limits Hexp).
  rewrite checkLimit_each_app. simpl.
  destruct (checkLimit_each_admitted userId tier operation t1 later 1
              (<[limit_key userId operation := entry_after operation t1 1]> limits)
              (lookup_insert_eq _ _ _) Hlater ltac:(lia)) as [Hres Hentry].
  destruct (checkLimit_each _ _ _ later _) as [rs limits1]. simpl in *.
  rewrite (checkLimit_inside userId tier operation t1 _ t limits1 Hentry Ht).
  destruct (Z.geb_spec (1 + Z.of_nat (length later)) (ceiling tier operation)); [|lia].
  simpl. rewrite Hres. reflexivity.
Qed.

Lemma ceiling_reached_within_the_minute_witness :
  fst (checkLimit_each "user3" free create_sandbox ([0; 10; 200; 3000; 59999] ++ [60000]) ∅)
  = repeat (Ok true) 5 ++ [Throw (sandbox_quota_error (Some 3540))]
  /\ fst (checkLimit_each "user2" pro api_call (0 :: repeat 60000 99 ++ [5]) ∅)
     = repeat (Ok true) 100 ++ [Throw (rate_limit_error (Some 60))].
Proof.
  split.
  - apply (ceiling_reached_within_the_minute "user3" free create_sandbox 0
             [10; 200; 3000; 59999] 60000 ∅).
    + unfold expired. rewrite lookup_empty. exact I.
    + repeat (apply List.Forall_cons; [lia|]). apply List.Forall_nil.
    + reflexivity.
    + lia.
  - apply (ceiling_reached_within_the_minute "user2" pro api_call 0
             (repeat 60000 99) 5 ∅).
    + unfold expired. rewrite lookup_empty. exact I.
    + apply List.Forall_forall. intros t Ht. apply repeat_spec in Ht. subst t. lia.
    + reflexivity.
    + lia.
Defined.

(** *** The entries [checkLimit] keeps *)

(** Every entry [checkLimit] stores has this shape: the three reset times
    were set together and the counters are not negative. *)
Definition limit_entry_shape (entry : RateLimitEntry) : Prop :=
  hourlyResetAt entry = Some (resetAt entry + 3540000)
  /\ dailyResetAt entry = Some (resetAt entry + 86340000)
  /\ 0 <= count entry
  /\ (exists h, hourlyCount entry = Some h /\ 0 <= h)
  /\ dailyExecutionMs entry = Some 0.

Definition shaped (old : option RateLimitEntry) : Prop :=
  match old with Some entry => limit_entry_shape entry | None => True end.

Lemma new_limit_entry_shape now : limit_entry_shape (new_limit_entry now).
Proof.
  unfold limit_entry_shape, new_limit_entry. simpl.
  repeat split; try (f_equal; lia); try lia. exists 0. split; [reflexivity|lia].
Qed.

Lemma open_limit_entry_shape now old :
  shaped old -> limit_entry_shape (open_limit_entry now old).
Proof.
  destruct old as [entry|]; simpl; intros H; [|apply new_limit_entry_shape].
  destruct (now >? resetAt entry); [apply new_limit_entry_shape|exact H].
Qed.

Lemma open_limit_entry_live now old : now <= resetAt (open_limit_entry now old).
Proof.
  destruct old as [entry|]; simpl; [|lia].
  destruct (Z.gtb_spec now (resetAt entry)); simpl; lia.
Qed.

(** The two separate resets never act: when the hourly or the daily reset
    time has passed, so has the minute one, and the whole entry has just
    been replaced. The hourly and the daily counter are therefore reset
    when, and only when, the minute window ends. *)
Lemma separate_resets_never_act now old :
  shaped old ->
  reset_daily now (reset_hourly now (open_limit_entry now old))
  = open_limit_entry now old.
Proof.
  intros H. pose proof (open_limit_entry_shape now old H) as (Hh & Hd & _).
  pose proof (open_limit_entry_live now old) as Hlive.
  rewrite (reset_hourly_inside now _ _ Hh) by lia.
  rewrite (reset_daily_inside now _ _ Hd) by lia. reflexivity.
Qed.

(** Counters stay non-negative and reset times only move forward. *)
Lemma checkLimit_keeps_shape userId tier operation now limits :
  shaped (limits !! limit_key userId operation) ->
  exists entry',
    snd (checkLimit userId tier operation now limits) !! limit_key userId operation
      = Some entry'
    /\ limit_entry_shape entry'
    /\ forall entry, limits !! limit_key userId operation = Some entry ->
         resetAt entry <= resetAt entry'
         /\ or_zero (hourlyResetAt entry) <= or_zero (hourlyResetAt entry')
         /\ or_zero (dailyResetAt entry) <= or_zero (dailyResetAt entry').
Proof.
  intros Hshape. unfold checkLimit.
  rewrite (separate_resets_never_act now _ Hshape).
  pose proof (open_limit_entry_shape now _ Hshape) as Hopen.
  set (opened := open_limit_entry now (limits !! limit_key userId operation)) in *.
  assert (Hforward : forall entry,
             limits !! limit_key userId operation = Some entry ->
             resetAt entry <= resetAt opened
             /\ or_zero (hourlyResetAt entry) <= or_zero (hourlyResetAt opened)
             /\ or_zero (dailyResetAt entry) <= or_zero (dailyResetAt opened)).
  { intros entry He. subst opened. rewrite He in *. simpl in Hshape |- *.
    destruct Hshape as (Hh & Hd & _). rewrite Hh, Hd.
    destruct (Z.gtb_spec now (resetAt entry)); simpl; [lia|].
    rewrite Hh, Hd. simpl. lia. }
  destruct Hopen as (Hh & Hd & Hc & (h & Hhc & Hh0) & Hday).
  destruct operation;
    match goal with |- context [if ?b then _ else _] => destruct b end;
    simpl; rewrite lookup_insert_eq; eexists; (split; [reflexivity|]);
    (split; [|exact Hforward]);
    unfold limit_entry_shape; simpl; rewrite ?Hhc; simpl;
    repeat split; try assumption; try lia; eauto with lia.
Qed.

(** C1 (the code departs from the claim). Five sandboxes are created at
    time 0 under the free tier, whose hourly ceiling is five; the entry
    records that the hour ends at 3600000. A sixth call at 60000 is
    rejected, but a sixth call at 60001, inside the same hour, is admitted:
    the minute reset replaced the whole entry, hourly count included. *)
Theorem sixth_sandbox_admitted_inside_the_hour :
  let calls := checkLimit_each "user3" free create_sandbox (repeat 0 5) ∅ in
  ceiling free create_sandbox = 5
  /\ fst calls = repeat (Ok true) 5
  /\ snd calls !! limit_key "user3" create_sandbox
     = Some (mkEntry 5 60000 (Some 5) (Some 3600000) (Some 0) (Some 86400000))
  /\ fst (checkLimit "user3" free create_sandbox 60000 (snd calls))
     = Throw (sandbox_quota_error (Some 3540))
  /\ fst (checkLimit "user3" free create_sandbox 60001 (snd calls)) = Ok true.
Proof. repeat split; vm_compute; reflexivity. Qed.

(** C2 (the code departs from the claim). After three sandboxes at time 0
    the hourly count is 3 and the hourly window ends at 3600000. The call at
    60001 comes before the end of that window, yet it finds the hourly
    count reset: the count is 1 afterwards, not 4, and the hourly reset time
    has moved to 3660001. *)
Theorem hourly_count_reset_inside_its_window :
  let limits := snd (checkLimit_each "user3" free create_sandbox (repeat 0 3) ∅) in
  limits !! limit_key "user3" create_sandbox
    = Some (mkEntry 3 60000 (Some 3) (Some 3600000) (Some 0) (Some 86400000))
  /\ 60001 <= 3600000
  /\ snd (checkLimit "user3" free create_sandbox 60001 limits)
       !! limit_key "user3" create_sandbox
     = Some (mkEntry 1 120001 (Some 1) (Some 3660001) (Some 0) (Some 86460001)).
Proof. repeat split; try (vm_compute; reflexivity). vm_compute. discriminate. Qed.

(** The expectations of tests/security/security.test.ts on the limiter;
    the tests run within one millisecond, here at clock reading 0. *)
Lemma rate_limiter_unit_tests :
  forallb is_ok (fst (checkLimit_each "user1" free api_call (repeat 0 3) ∅)) = true
  /\ map thrown_code (fst (checkLimit_each "user2" free api_call (repeat 0 12) ∅))
     = repeat None 10 ++ [Some RATE_LIMIT_EXCEEDED; Some RATE_LIMIT_EXCEEDED]
  /\ is_ok (fst (checkLimit "user2" free api_call 0
                   (snd (checkLimit_each "user1" free api_call (repeat 0 5) ∅)))) = true
  /\ map thrown_code (fst (checkLimit_each "user3" free create_sandbox (repeat 0 6) ∅))
     = repeat None 5 ++ [Some QUOTA_EXCEEDED]
  /\ forallb is_ok (fst (checkLimit_each "pro_user" pro api_call (repeat 0 51) ∅)) = true
  /\ map thrown_code
       (fst (recordExecutionTime_each "user1" free [(0, 1800000); (0, 1800000)] ∅))
     = [None; None]
  /\ map thrown_code
       (fst (recordExecutionTime_each "user2" free [(0, 3600000); (0, 100)] ∅))
     = [None; Some QUOTA_EXCEEDED].
Proof. repeat split; vm_compute; reflexivity. Qed.

(** *** Usage statistics *)

Record Usage : Type := mkUsage { current : Z; limit : Z }.

Record UsageStats : Type := mkUsageStats {
  apiCalls : Usage;
  sandboxes : Usage;
  executionTime : Usage
}.

Definition getUsageStats (userId : string) (tier : UserTier) (limits : Limits)
  : UsageStats :=
  let quota := QUOTA_TIERS tier in
  let apiCallEntry := limits !! limit_key userId api_call in
  let sandboxEntry := limits !! limit_key userId create_sandbox in
  let executionEntry := limits !! execution_key userId in
  mkUsageStats
    (mkUsage (match apiCallEntry with Some entry => count entry | None => 0 end)
             (apiCallsPerMinute quota))
    (mkUsage (match sandboxEntry with
              | Some entry => or_zero (hourlyCount entry)
              | None => 0
              end)
             (sandboxesPerHour quota))
    (mkUsage (match executionEntry with
              | Some entry => or_zero (dailyExecutionMs entry)
              | None => 0
              end)
             (executionTimePerDay quota)).

(** *** Histories of calls on one limiter *)

Inductive Call : Type :=
| CheckLimit (userId : string) (tier : UserTier) (operation : Operation) (now : Z)
| RecordExecutionTime (userId : string) (tier : UserTier) (executionTimeMs now : Z).

(** The map after a call, whether it returned or threw. *)
Definition call (limits : Limits) (c : Call) : Limits :=
  match c with
  | CheckLimit userId tier operation now =>
      snd (checkLimit userId tier operation now limits)
  | RecordExecutionTime userId tier executionTimeMs now =>
      snd (recordExecutionTime userId tier executionTimeMs now limits)
  end.

Definition calls (history : list Call) (limits : Limits) : Limits :=
  fold_left call history limits.

Definition caller (c : Call) : string :=
  match c with
  | CheckLimit userId _ _ _ => userId
  | RecordExecutionTime userId _ _ _ => userId
  end.

(** The key of the one entry a call reads and writes. *)
Definition touched (c : Call) : string :=
  match c with
  | CheckLimit userId _ operation _ => limit_key userId operation
  | RecordExecutionTime userId _ _ _ => execution_key userId
  end.

Lemma call_other_key limits c key :
  key <> touched c -> call limits c !! key = limits !! key.
Proof.
  destruct c; simpl; intros Hne.
  - apply checkLimit_other_key. exact Hne.
  - apply recordExecutionTime_other_key. exact Hne.
Qed.

Lemma calls_other_key key : forall history limits,
  Forall (fun c => key <> touched c) history ->
  calls history limits !! key = limits !! key.
Proof.
  induction history as [|c history IH]; intros limits H; [reflexivity|].
  apply Forall_cons in H as [Hc H]. unfold calls in *. simpl.
  rewrite IH by exact H. apply call_other_key. exact Hc.
Qed.

Lemma checkLimit_reads_one_entry userId tier operation now limits1 limits2 :
  limits1 !! limit_key userId operation = limits2 !! limit_key userId operation ->
  fst (checkLimit userId tier operation now limits1)
  = fst (checkLimit userId tier operation now limits2).
Proof.
  intros H. unfold checkLimit. rewrite H.
  destruct operation;
    match goal with |- context [if ?b then _ else _] => destruct b end; reflexivity.
Qed.

Lemma recordExecutionTime_reads_one_entry userId tier ms now limits1 limits2 :
  limits1 !! execution_key userId = limits2 !! execution_key userId ->
  fst (recordExecutionTime userId tier ms now limits1)
  = fst (recordExecutionTime userId tier ms now limits2).
Proof.
  intros H. rewrite !recordExecutionTime_result. unfold daily_start.
  rewrite H. reflexivity.
Qed.

Lemma other_caller_other_keys userId c :
  caller c <> userId ->
  (forall operation, limit_key userId operation <> touched c)
  /\ execution_key userId <> touched c.
Proof.
  intros Hne. destruct c; simpl in *; split.
  - intros o H. apply limit_key_inj in H as [H _]. congruence.
  - intros H. symmetry in H. exact (limit_key_not_execution_key _ _ _ H).
  - intros o H. exact (limit_key_not_execution_key _ _ _ H).
  - intros H. apply execution_key_inj in H. congruence.
Qed.

(** Identities are isolated. Whatever calls other identities make, with
    whatever outcome, the next [checkLimit] and [recordExecutionTime] of an
    identity behave as if those calls had not been made, and the usage
    statistics of the identity are the same. *)
Theorem identities_are_isolated userId history limits :
  Forall (fun c => caller c <> userId) history ->
  (forall tier operation now,
      fst (checkLimit userId tier operation now (calls history limits))
      = fst (checkLimit userId tier operation now limits))
  /\ (forall tier ms now,
        fst (recordExecutionTime userId tier ms now (calls history limits))
        = fst (recordExecutionTime userId tier ms now limits))
  /\ (forall tier,
        getUsageStats userId tier (calls history limits)
        = getUsageStats userId tier limits).
Proof.
  intros H.
  assert (Hl : forall operation,
             calls history limits !! limit_key userId operation
             = limits !! limit_key userId operation).
  { intros o. apply calls_other_key. eapply Forall_impl; [exact H|].
    intros c Hc. simpl. apply (other_caller_other_keys userId c Hc). }
  assert (He : calls history limits !! execution_key userId
               = limits !! execution_key userId).
  { apply calls_other_key. eapply Forall_impl; [exact H|].
    intros c Hc. simpl. apply (other_caller_other_keys userId c Hc). }
  split; [|split].
  - intros tier o now. apply checkLimit_reads_one_entry. apply Hl.
  - intros tier ms now. apply recordExecutionTime_reads_one_entry. exact He.
  - intros tier. unfold getUsageStats. rewrite !Hl, He. reflexivity.
Qed.

Lemma identities_are_isolated_witness :
  fst (checkLimit "user2" free api_call 7
         (calls [CheckLimit "user1" free api_call 0;
                 CheckLimit "user1" free create_sandbox 1;
                 RecordExecutionTime "user1:api_call" pro 5000 2;
                 CheckLimit "user22" pro api_call 3]
            (snd (checkLimit_each "user2" free api_call (repeat 0 10) ∅))))
  = fst (checkLimit "user2" free api_call 7
           (snd (checkLimit_each "user2" free api_call (repeat 0 10) ∅))).
Proof.
  apply (identities_are_isolated "user2"
           [CheckLimit "user1" free api_call 0;
            CheckLimit "user1" free create_sandbox 1;
            RecordExecutionTime "user1:api_call" pro 5000 2;
            CheckLimit "user22" pro api_call 3]).
  repeat constructor; simpl; discriminate.
Defined.

(** The three quotas of one identity are counted apart: a call of another
    operation class, or a recorded execution time, of the identity itself
    never changes whether its next [checkLimit] is admitted. *)
Theorem operation_classes_counted_apart userId operation history limits :
  Forall (fun c => match c with
                   | CheckLimit userId' _ operation' _ =>
                       userId' <> userId \/ operation' <> operation
                   | RecordExecutionTime _ _ _ _ => True
                   end) history ->
  forall tier now,
    fst (checkLimit userId tier operation now (calls history limits))
    = fst (checkLimit userId tier operation now limits).
Proof.
  intros H tier now. apply checkLimit_reads_one_entry. apply calls_other_key.
  eapply Forall_impl; [exact H|]. intros c Hc. simpl in Hc.
  destruct c as [u t o n|u t ms n]; simpl.
  - intros Hk. apply limit_key_inj in Hk as [Hu Ho]. destruct Hc; congruence.
  - apply limit_key_not_execution_key.
Qed.

Lemma operation_classes_counted_apart_witness :
  fst (checkLimit "user3" free create_sandbox 9
         (calls (map (CheckLimit "user3" free api_call) (repeat 0 12)
                 ++ [RecordExecutionTime "user3" free 3600001 5]) ∅))
  = fst (checkLimit "user3" free create_sandbox 9 ∅).
Proof.
  apply (operation_classes_counted_apart "user3" create_sandbox
           (map (CheckLimit "user3" free api_call) (repeat 0 12)
            ++ [RecordExecutionTime "user3" free 3600001 5])).
  cbn [map repeat app].
  repeat (apply List.Forall_cons; [first [right; discriminate | exact I]|]).
  apply List.Forall_nil.
Defined.

(** *** What every reachable map satisfies *)

Definition all_shaped (limits : Limits) : Prop :=
  forall userId operation, shaped (limits !! limit_key userId operation).

Lemma call_keeps_shape limits c : all_shaped limits -> all_shaped (call limits c).
Proof.
  intros H u o. destruct c as [u' t o' now|u' t ms now]; simpl.
  - destruct (decide (limit_key u o = limit_key u' o')) as [Heq|Hne].
    + rewrite Heq.
      destruct (checkLimit_keeps_shape u' t o' now limits (H u' o'))
        as (entry' & -> & Hshape & _). exact Hshape.
    + rewrite checkLimit_other_key by exact Hne. apply H.
  - rewrite recordExecutionTime_other_key by apply limit_key_not_execution_key.
    apply H.
Qed.

Lemma calls_keep_shape : forall history limits,
  all_shaped limits -> all_shaped (calls history limits).
Proof.
  induction history as [|c history IH]; intros limits H; [exact H|].
  unfold calls in *. simpl. apply IH. apply call_keeps_shape. exact H.
Qed.

(** The blocks "Reset hourly counter if expired" and "Reset daily counter
    if expired" of [checkLimit] never change anything. In every map reached
    from the empty one by calls of the limiter, for every identity,
    operation and clock reading, the entry that comes out of "Initialize or
    reset expired entries" passes through both blocks unchanged: the hourly
    count of a sandbox entry is set back when the minute window of the entry
    has ended, and at no other time. *)
Theorem hourly_and_daily_reset_never_fire history userId operation now :
  let opened :=
    open_limit_entry now (calls history ∅ !! limit_key userId operation) in
  reset_hourly now opened = opened
  /\ reset_daily now opened = opened
  /\ (hourlyCount opened = Some 0
      \/ calls history ∅ !! limit_key userId operation = Some opened
         /\ now <= resetAt opened).
Proof.
  intros opened.
  assert (Hshape : shaped (calls history ∅ !! limit_key userId operation)).
  { apply calls_keep_shape. intros u o. rewrite lookup_empty. exact I. }
  pose proof (open_limit_entry_shape now _ Hshape) as (Hh & Hd & _).
  pose proof (open_limit_entry_live now
                (calls history ∅ !! limit_key userId operation)) as Hlive.
  fold opened in Hh, Hd, Hlive.
  split; [|split].
  - apply (reset_hourly_inside now _ _ Hh). lia.
  - apply (reset_daily_inside now _ _ Hd). lia.
  - subst opened. destruct (calls history ∅ !! limit_key userId operation)
      as [entry|]; simpl; [|left; reflexivity].
    destruct (Z.gtb_spec now (resetAt entry)); simpl;
      [left; reflexivity|right; split; [reflexivity|lia]].
Qed.

(** Bounds a counter keeps under one tier. *)
Definition within (userId : string) (tier : UserTier) (limits : Limits) : Prop :=
  match limits !! limit_key userId api_call with
  | Some entry => 0 <= count entry <= apiCallsPerMinute (QUOTA_TIERS tier)
  | None => True
  end
  /\ match limits !! limit_key userId create_sandbox with
     | Some entry =>
         0 <= or_zero (hourlyCount entry) <= sandboxesPerHour (QUOTA_TIERS tier)
     | None => True
     end.

Lemma count_reset_hourly now entry : count (reset_hourly now entry) = count entry.
Proof. unfold reset_hourly. destruct (_ && _); reflexivity. Qed.

Lemma count_reset_daily now entry : count (reset_daily now entry) = count entry.
Proof. unfold reset_daily. destruct (_ && _); reflexivity. Qed.

Lemma hourlyCount_reset_daily now entry :
  hourlyCount (reset_daily now entry) = hourlyCount entry.
Proof. unfold reset_daily. destruct (_ && _); reflexivity. Qed.

Lemma hourlyCount_reset_hourly now entry :
  hourlyCount (reset_hourly now entry) = Some 0
  \/ hourlyCount (reset_hourly now entry) = hourlyCount entry.
Proof. unfold reset_hourly. destruct (_ && _); [left|right]; reflexivity. Qed.

Lemma open_limit_entry_cases now old :
  open_limit_entry now old = new_limit_entry now
  \/ old = Some (open_limit_entry now old).
Proof.
  destruct old as [entry|]; simpl; [|left; reflexivity].
  destruct (now >? resetAt entry); [left|right]; reflexivity.
Qed.

Lemma quota_positive tier :
  0 < apiCallsPerMinute (QUOTA_TIERS tier) /\ 0 < sandboxesPerHour (QUOTA_TIERS tier).
Proof. destruct tier; split; reflexivity. Qed.

Lemma checkLimit_api_within userId tier now limits :
  match limits !! limit_key userId api_call with
  | Some entry => 0 <= count entry <= apiCallsPerMinute (QUOTA_TIERS tier)
  | None => True
  end ->
  match snd (checkLimit userId tier api_call now limits) !! limit_key userId api_call with
  | Some entry => 0 <= count entry <= apiCallsPerMinute (QUOTA_TIERS tier)
  | None => True
  end.
Proof.
  intros H. destruct (quota_positive tier) as [Hpos _].
  assert (Hopen : 0 <= count (open_limit_entry now (limits !! limit_key userId api_call))
                  <= apiCallsPerMinute (QUOTA_TIERS tier)).
  { destruct (open_limit_entry_cases now (limits !! limit_key userId api_call))
      as [->|Hold]; [simpl; lia|]. rewrite Hold in H. exact H. }
  unfold checkLimit.
  set (entry := reset_daily now (reset_hourly now
                  (open_limit_entry now (limits !! limit_key userId api_call)))).
  assert (Hc : 0 <= count entry <= apiCallsPerMinute (QUOTA_TIERS tier)).
  { subst entry. rewrite count_reset_daily, count_reset_hourly. exact Hopen. }
  destruct (Z.geb_spec (count entry) (apiCallsPerMinute (QUOTA_TIERS tier)));
    simpl; rewrite lookup_insert_eq; simpl; lia.
Qed.

Lemma checkLimit_sandbox_within userId tier now limits :
  match limits !! limit_key userId create_sandbox with
  | Some entry =>
      0 <= or_zero (hourlyCount entry) <= sandboxesPerHour (QUOTA_TIERS tier)
  | None => True
  end ->
  match snd (checkLimit userId tier create_sandbox now limits)
          !! limit_key userId create_sandbox with
  | Some entry =>
      0 <= or_zero (hourlyCount entry) <= sandboxesPerHour (QUOTA_TIERS tier)
  | None => True
  end.
Proof.
  intros H. destruct (quota_positive tier) as [_ Hpos].
  assert (Hopen : 0 <= or_zero (hourlyCount
                     (open_limit_entry now (limits !! limit_key userId create_sandbox)))
                  <= sandboxesPerHour (QUOTA_TIERS tier)).
  { destruct (open_limit_entry_cases now (limits !! limit_key userId create_sandbox))
      as [->|Hold]; [simpl; lia|]. rewrite Hold in H. exact H. }
  unfold checkLimit.
  set (entry := reset_daily now (reset_hourly now
                  (open_limit_entry now (limits !! limit_key userId create_sandbox)))).
  assert (Hc : 0 <= or_zero (hourlyCount entry) <= sandboxesPerHour (QUOTA_TIERS tier)).
  { subst entry. rewrite hourlyCount_reset_daily.
    destruct (hourlyCount_reset_hourly now
                (open_limit_entry now (limits !! limit_key userId create_sandbox)))
      as [->| ->]; [simpl; lia|exact Hopen]. }
  destruct (Z.geb_spec (or_zero (hourlyCount entry))
              (sandboxesPerHour (QUOTA_TIERS tier)));
    simpl; rewrite lookup_insert_eq; simpl; lia.
Qed.

(** The calls of a history that concern an identity all name one tier. *)
Definition under_tier (userId : string) (tier : UserTier) (c : Call) : Prop :=
  match c with
  | CheckLimit userId' tier' _ _ => userId' = userId -> tier' = tier
  | RecordExecutionTime _ _ _ _ => True
  end.

Lemma call_within userId tier limits c :
  under_tier userId tier c -> within userId tier limits ->
  within userId tier (call limits c).
Proof.
  intros Hc [Ha Hs]. destruct c as [u' t' o' now|u' t' ms now]; simpl in *.
  - destruct (decide (u' = userId)) as [->|Hu].
    + rewrite (Hc eq_refl). destruct o'; split.
      * apply checkLimit_api_within. exact Ha.
      * rewrite checkLimit_other_key; [exact Hs|].
        intros Hk. apply limit_key_inj in Hk as [_ Hk]. discriminate Hk.
      * rewrite checkLimit_other_key; [exact Ha|].
        intros Hk. apply limit_key_inj in Hk as [_ Hk]. discriminate Hk.
      * apply checkLimit_sandbox_within. exact Hs.
    + split; (rewrite checkLimit_other_key;
              [assumption|intros Hk; apply limit_key_inj in Hk as [Hk _]; congruence]).
  - split; (rewrite recordExecutionTime_other_key;
            [assumption|apply limit_key_not_execution_key]).
Qed.

(** While an identity is served under one tier, its reported usage never
    exceeds the reported limit: whatever calls were made on a limiter, by
    any identities at any times and with any outcomes, [getUsageStats]
    reports a number of API calls between 0 and the limit per minute of the
    tier, and a number of sandboxes between 0 and its limit per hour. *)
Theorem usage_never_exceeds_limit userId tier history :
  Forall (under_tier userId tier) history ->
  let stats := getUsageStats userId tier (calls history ∅) in
  0 <= current (apiCalls stats) <= limit (apiCalls stats)
  /\ 0 <= current (sandboxes stats) <= limit (sandboxes stats).
Proof.
  intros H.
  assert (Hw : within userId tier (calls history ∅)).
  { assert (Hgen : forall limits, within userId tier limits ->
                     within userId tier (calls history limits)).
    { induction history as [|c history IH]; intros limits Hl; [exact Hl|].
      apply Forall_cons in H as [Hc H]. unfold calls in *. simpl.
      apply (IH H). apply call_within; assumption. }
    apply Hgen. unfold within. rewrite !lookup_empty. split; exact I. }
  destruct Hw as [Ha Hs]. destruct (quota_positive tier) as [Hpa Hps].
  unfold getUsageStats. simpl.
  destruct (calls history ∅ !! limit_key userId api_call);
    destruct (calls history ∅ !! limit_key userId create_sandbox); lia.
Qed.

Lemma usage_never_exceeds_limit_witness :
  let stats :=
    getUsageStats "user2" free
      (calls (map (CheckLimit "user2" free api_call) (repeat 0 12)
              ++ map (CheckLimit "user2" free create_sandbox) (repeat 0 7)
              ++ [CheckLimit "user1" pro api_call 0]) ∅) in
  0 <= current (apiCalls stats) <= limit (apiCalls stats)
  /\ 0 <= current (sandboxes stats) <= limit (sandboxes stats).
Proof.
  apply (usage_never_exceeds_limit "user2" free).
  cbn [map repeat app].
  repeat (apply List.Forall_cons; [simpl; first [reflexivity | discriminate]|]).
  apply List.Forall_nil.
Defined.

End RateLimiter.


(** ** SHA-256 (FIPS 180-4), as [createHash('sha256')] computes it *)

Module Sha256.

Local Open Scope N_scope.

Definition mask32 : N := 0xFFFFFFFF.
Definition add32 (a b : N) : N := N.land (a + b) mask32.
Definition rotr (n x : N) : N :=
  N.lor (N.shiftr x n) (N.land (N.shiftl x (32 - n)) mask32).
Definition shr (n x : N) : N := N.shiftr x n.
Definition not32 (x : N) : N := N.lxor x mask32.

Definition Ch (x y z : N) : N := N.lxor (N.land x y) (N.land (not32 x) z).
Definition Maj (x y z : N) : N :=
  N.lxor (N.lxor (N.land x y) (N.land x z)) (N.land y z).
Definition Sigma0 (x : N) : N := N.lxor (N.lxor (rotr 2 x) (rotr 13 x)) (rotr 22 x).
Definition Sigma1 (x : N) : N := N.lxor (N.lxor (rotr 6 x) (rotr 11 x)) (rotr 25 x).
Definition sigma0 (x : N) : N := N.lxor (N.lxor (rotr 7 x) (rotr 18 x)) (shr 3 x).
Definition sigma1 (x : N) : N := N.lxor (N.lxor (rotr 17 x) (rotr 19 x)) (shr 10 x).

(** The constants of the standard are defined by what they are: the
    first thirty-two bits of the fractional parts of the cube roots (for
    the round constants) and of the square roots (for the initial hash
    value) of the first primes. *)
Definition is_prime (n : N) : bool :=
  (1 <? n) && forallb (fun d => negb (n mod d =? 0))
                (map N.of_nat (seq 2 (N.to_nat n - 2))).

Definition first_primes (n : nat) : list N :=
  take n (filter (fun p => is_prime p = true) (map N.of_nat (seq 2 320))).

Fixpoint cube_root_bits (bits : nat) (x root : N) : N :=
  match bits with
  | O => root
  | S bits' =>
      let candidate := root + N.shiftl 1 (N.of_nat bits') in
      if candidate * candidate * candidate <=? x
      then cube_root_bits bits' x candidate
      else cube_root_bits bits' x root
  end.

Definition cube_root (x : N) : N := cube_root_bits 40 x 0.

Definition K : list N :=
  Eval vm_compute in
    map (fun p => N.land (cube_root (N.shiftl p 96)) mask32) (first_primes 64).

Definition initial_words : list N :=
  Eval vm_compute in
    map (fun p => N.land (N.sqrt (N.shiftl p 64)) mask32) (first_primes 8).

(** Padding: the bit 1, zeros, and the length in bits on 64 bits. *)
Definition be_bytes (width : nat) (x : N) : list N :=
  map (fun i => N.land (N.shiftr x (8 * N.of_nat i)) 0xFF) (rev (seq 0 width)).

Definition pad (msg : list N) : list N :=
  let len := N.of_nat (length msg) in
  let zeros := N.to_nat ((119 - len mod 64) mod 64) in
  msg ++ [0x80] ++ repeat 0 zeros ++ be_bytes 8 (8 * len).

Fixpoint be_words (fuel : nat) (bytes : list N) : list N :=
  match fuel, bytes with
  | S f, b0 :: b1 :: b2 :: b3 :: tl =>
      N.lor (N.shiftl b0 24) (N.lor (N.shiftl b1 16) (N.lor (N.shiftl b2 8) b3))
      :: be_words f tl
  | _, _ => []
  end.

(** The message schedule: [window] holds the sixteen words before the one
    to compute, oldest first. *)
Fixpoint schedule (n : nat) (window : list N) : list N :=
  match n with
  | O => []
  | S n' =>
      match window with
      | w16 :: rest16 =>
          let w15 := nth 0 rest16 0 in
          let w7 := nth 8 rest16 0 in
          let w2 := nth 13 rest16 0 in
          let w := add32 (add32 (sigma1 w2) w7) (add32 (sigma0 w15) w16) in
          w :: schedule n' (rest16 ++ [w])
      | [] => []
      end
  end.

Record regs : Type := Regs { ra : N; rb : N; rc : N; rd : N; re : N; rf : N; rg : N; rh : N }.

Definition round (s : regs) (kw : N * N) : regs :=
  let t1 := add32 (add32 (add32 (rh s) (Sigma1 (re s))) (Ch (re s) (rf s) (rg s)))
                  (add32 (fst kw) (snd kw)) in
  let t2 := add32 (Sigma0 (ra s)) (Maj (ra s) (rb s) (rc s)) in
  Regs (add32 t1 t2) (ra s) (rb s) (rc s) (add32 (rd s) t1) (re s) (rf s) (rg s).

Definition compress (h : regs) (block : list N) : regs :=
  let w16 := be_words 16 block in
  let w := w16 ++ schedule 48 w16 in
  let s := fold_left round (combine K w) h in
  Regs (add32 (ra h) (ra s)) (add32 (rb h) (rb s)) (add32 (rc h) (rc s))
       (add32 (rd h) (rd s)) (add32 (re h) (re s)) (add32 (rf h) (rf s))
       (add32 (rg h) (rg s)) (add32 (rh h) (rh s)).

Fixpoint blocks (fuel : nat) (bytes : list N) (h : regs) : regs :=
  match fuel with
  | O => h
  | S f =>
      match bytes with
      | [] => h
      | _ => blocks f (drop 64 bytes) (compress h (take 64 bytes))
      end
  end.

Definition initial : regs :=
  let word i := nth i initial_words 0 in
  Regs (word 0%nat) (word 1%nat) (word 2%nat) (word 3%nat)
       (word 4%nat) (word 5%nat) (word 6%nat) (word 7%nat).

(** The digest: thirty-two bytes. *)
Definition sha256 (msg : list N) : list N :=
  let padded := pad msg in
  let h := blocks (length padded) padded initial in
  flat_map (be_bytes 4) [ra h; rb h; rc h; rd h; re h; rf h; rg h; rh h].

Definition hex_digit (n : N) : ascii :=
  ascii_of_N (if n <? 10 then 48 + n else 87 + n).

(** [digest('hex')] *)
Definition hex (bytes : list N) : string :=
  string_of_list_ascii
    (flat_map (fun b => [hex_digit (N.shiftr b 4); hex_digit (N.land b 0xF)]) bytes).

(** The first and the last round constant, and the first word of the
    initial hash value, as the standard prints them. *)
Lemma constants_of_the_standard :
  head K = Some 0x428a2f98 /\ last K = Some 0xc67178f2
  /\ length K = 64%nat /\ ra initial = 0x6a09e667.
Proof. repeat split. Qed.

(** Test vectors of the standard. *)
Lemma sha256_empty :
  hex (sha256 [])
  = "e3b0c44298fc1c149afbf4c8996fb92427ae41e4649b934ca495991b7852b855"%string.
Proof. vm_compute. reflexivity. Qed.

Lemma sha256_abc :
  hex (sha256 (map N_of_ascii (list_ascii_of_string "abc")))
  = "ba7816bf8f01cfea414140de5dae2223b00361a396177a9cb410ff61f20015ad"%string.
Proof. vm_compute. reflexivity. Qed.

Lemma sha256_two_blocks :
  hex (sha256 (map N_of_ascii (list_ascii_of_string
         "abcdbcdecdefdefgefghfghighijhijkijkljklmklmnlmnomnopnopq")))
  = "248d6a61d20638b8e5c026930c3e6039a33ce45964ff2167f6ecedd419db06c1"%string.
Proof. vm_compute. reflexivity. Qed.

End Sha256.


(** ** [JSON.stringify] and the UTF-8 encoding of its output *)

Module Json.
Import JsString ErrorHandler.

Definition dquote : ascii := ascii_of_N 34.
Definition backslash : ascii := ascii_of_N 92.

Definition hex_char (n : N) : ascii :=
  ascii_of_N (if (n <? 10)%N then 48 + n else 87 + n)%N.

(** One character inside a JSON string literal ([QuoteJSONString]). *)
Definition escape_char (c : ascii) : list ascii :=
  let n := char_code c in
  if (n =? 34)%N then [backslash; dquote]
  else if (n =? 92)%N then [backslash; backslash]
  else if (n =? 8)%N then [backslash; "b"%char]
  else if (n =? 9)%N then [backslash; "t"%char]
  else if (n =? 10)%N then [backslash; "n"%char]
  else if (n =? 12)%N then [backslash; "f"%char]
  else if (n =? 13)%N then [backslash; "r"%char]
  else if (n <? 32)%N
       then [backslash; "u"%char; "0"%char; "0"%char;
             hex_char (N.shiftr n 4); hex_char (N.land n 15)]
  else [c].

Definition quote (s : list ascii) : list ascii :=
  dquote :: flat_map escape_char s ++ [dquote].
#[global] Arguments quote : simpl never.

(** [JSON.stringify] without indentation. *)
Fixpoint stringify (v : JsValue) : list ascii :=
  match v with
  | JNull => chars "null"
  | JBool true => chars "true"
  | JBool false => chars "false"
  | JNumber n => chars (dec_of_Z n)
  | JString s => quote (chars s)
  | JArray items =>
      "["%char ::
      match items with
      | [] => ["]"%char]
      | x :: more =>
          stringify x ++
          (fix elements (l : list JsValue) : list ascii :=
             match l with
             | [] => ["]"%char]
             | y :: l' => ","%char :: stringify y ++ elements l'
             end) more
      end
  | JObject props =>
      "{"%char ::
      match props with
      | [] => ["}"%char]
      | kx :: more =>
          quote (chars (fst kx)) ++ ":"%char :: stringify (snd kx) ++
          (fix members (l : list (string * JsValue)) : list ascii :=
             match l with
             | [] => ["}"%char]
             | ky :: l' =>
                 ","%char :: quote (chars (fst ky)) ++ ":"%char
                 :: stringify (snd ky) ++ members l'
             end) more
      end
  end.

(** The UTF-8 bytes of one code unit of the range 0..255. *)
Definition utf8_char (c : ascii) : list N :=
  let n := char_code c in
  if (n <? 128)%N then [n]
  else [N.lor 192 (N.shiftr n 6); N.lor 128 (N.land n 63)].

Definition utf8 (s : list ascii) : list N := flat_map utf8_char s.

(** *** Reading a string literal back *)

Definition hex_value (c : ascii) : N :=
  let n := char_code c in
  (if n <? 58 then n - 48 else n - 87)%N.

(** The character that the text starts with, inside a string literal, and
    the text after it; [None] at the closing quote. *)
Definition unescape_char (l : list ascii) : option (ascii * list ascii) :=
  match l with
  | [] => None
  | c :: tl =>
      if (char_code c =? 34)%N then None
      else if (char_code c =? 92)%N then
        match tl with
        | d :: tl' =>
            if (char_code d =? 117)%N then
              match tl' with
              | _ :: _ :: h1 :: h2 :: tl'' =>
                  Some (ascii_of_N (16 * hex_value h1 + hex_value h2), tl'')
              | _ => None
              end
            else if (char_code d =? 98)%N then Some (ascii_of_N 8, tl')
            else if (char_code d =? 116)%N then Some (ascii_of_N 9, tl')
            else if (char_code d =? 110)%N then Some (ascii_of_N 10, tl')
            else if (char_code d =? 102)%N then Some (ascii_of_N 12, tl')
            else if (char_code d =? 114)%N then Some (ascii_of_N 13, tl')
            else Some (d, tl')
        | [] => None
        end
      else Some (c, tl)
  end.

Lemma unescape_escape c r : unescape_char (escape_char c ++ r) = Some (c, r).
Proof.
  destruct c as [[] [] [] [] [] [] [] []]; reflexivity.
Qed.

Lemma unescape_closing r : unescape_char (dquote :: r) = None.
Proof. reflexivity. Qed.

Lemma escaped_inj : forall s1 s2 r1 r2,
  flat_map escape_char s1 ++ dquote :: r1 = flat_map escape_char s2 ++ dquote :: r2 ->
  s1 = s2 /\ r1 = r2.
Proof.
  induction s1 as [|c1 s1 IH]; intros [|c2 s2] r1 r2 H; simpl in H.
  - injection H as ->. split; reflexivity.
  - apply (f_equal unescape_char) in H.
    rewrite <- app_assoc, unescape_escape in H. discriminate H.
  - apply (f_equal unescape_char) in H.
    rewrite <- app_assoc, unescape_escape in H. discriminate H.
  - apply (f_equal unescape_char) in H.
    rewrite <- !app_assoc, !unescape_escape in H.
    injection H as -> H. destruct (IH _ _ _ H) as [-> ->]. split; reflexivity.
Qed.

Lemma quote_inj s1 s2 r1 r2 :
  quote s1 ++ r1 = quote s2 ++ r2 -> s1 = s2 /\ r1 = r2.
Proof.
  unfold quote. simpl. rewrite <- !app_assoc. simpl.
  intros H. injection H as H. exact (escaped_inj _ _ _ _ H).
Qed.

(** The text after a value starts with none of the characters of a number. *)
Definition ends_number (r : list ascii) : Prop :=
  match r with [] => True | c :: _ => numeric c = false end.

Lemma numeric_prefix_inj : forall l1 l2 r1 r2,
  Forall (fun c => numeric c = true) l1 ->
  Forall (fun c => numeric c = true) l2 ->
  ends_number r1 -> ends_number r2 ->
  l1 ++ r1 = l2 ++ r2 -> l1 = l2 /\ r1 = r2.
Proof.
  induction l1 as [|c1 l1 IH]; intros [|c2 l2] r1 r2 H1 H2 E1 E2 H; simpl in H.
  - split; [reflexivity|exact H].
  - subst r1. apply Forall_cons in H2 as [Hc _]. simpl in E1. congruence.
  - subst r2. apply Forall_cons in H1 as [Hc _]. simpl in E2. congruence.
  - injection H as -> H.
    apply Forall_cons in H1 as [_ H1]. apply Forall_cons in H2 as [_ H2].
    destruct (IH _ _ _ H1 H2 E1 E2 H) as [-> ->]. split; reflexivity.
Qed.

(** *** [JSON.stringify] is one-to-one *)

(** The text after the first element of an array, and after the first
    member of an object. *)
Fixpoint elements (l : list JsValue) : list ascii :=
  match l with
  | [] => ["]"%char]
  | y :: l' => ","%char :: stringify y ++ elements l'
  end.

Fixpoint members (l : list (string * JsValue)) : list ascii :=
  match l with
  | [] => ["}"%char]
  | ky :: l' =>
      ","%char :: quote (chars (fst ky)) ++ ":"%char :: stringify (snd ky) ++ members l'
  end.

Lemma stringify_array x more :
  stringify (JArray (x :: more)) = "["%char :: stringify x ++ elements more.
Proof. reflexivity. Qed.

Lemma stringify_object kx more :
  stringify (JObject (kx :: more))
  = "{"%char :: quote (chars (fst kx)) ++ ":"%char :: stringify (snd kx) ++ members more.
Proof. reflexivity. Qed.

(** The first character of a value tells its kind. *)
Definition kind (v : JsValue) : N :=
  match v with
  | JNull => 0
  | JBool true => 1
  | JBool false => 2
  | JNumber _ => 3
  | JString _ => 4
  | JArray _ => 5
  | JObject _ => 6
  end.

Definition char_kind (c : ascii) : N :=
  if ascii_eqb c "n" then 0
  else if ascii_eqb c "t" then 1
  else if ascii_eqb c "f" then 2
  else if numeric c then 3
  else if ascii_eqb c dquote then 4
  else if ascii_eqb c "[" then 5
  else if ascii_eqb c "{" then 6
  else 7.

Lemma numeric_kind c : numeric c = true -> char_kind c = 3%N.
Proof.
  destruct c as [[] [] [] [] [] [] [] []]; intros H; try discriminate H; reflexivity.
Qed.

Lemma stringify_kind v :
  exists c tl, stringify v = c :: tl /\ char_kind c = kind v.
Proof.
  destruct v as [|[]|n|s|items|props]; simpl; try (eexists _, _; split; reflexivity).
  pose proof (dec_of_Z_numeric n) as Hnum.
  pose proof (dec_of_Z_nonempty n) as Hne.
  destruct (chars (dec_of_Z n)) as [|c tl]; [contradiction|].
  apply Forall_cons in Hnum as [Hc _].
  exists c, tl. split; [reflexivity|apply numeric_kind, Hc].
Qed.

Lemma kind_below v : (kind v < 7)%N.
Proof. destruct v as [|[]| | | |]; reflexivity. Qed.

Lemma head_kind v r c u : stringify v ++ r = c :: u -> char_kind c = kind v.
Proof.
  destruct (stringify_kind v) as (c' & tl & -> & Hk). simpl.
  intros H. injection H as -> _. exact Hk.
Qed.

Lemma same_kind v1 v2 r1 r2 :
  stringify v1 ++ r1 = stringify v2 ++ r2 -> kind v1 = kind v2.
Proof.
  destruct (stringify_kind v1) as (c1 & t1 & E1 & K1). rewrite E1. simpl.
  intros H. symmetry in H. apply head_kind in H. congruence.
Qed.

(** The text after a value inside an array or an object does not start
    like a number. *)
Lemma elements_ends_number l r : ends_number (elements l ++ r).
Proof. destruct l; reflexivity. Qed.

Lemma members_ends_number l r : ends_number (members l ++ r).
Proof. destruct l; reflexivity. Qed.

Definition unique_reading (v1 : JsValue) : Prop :=
  forall v2 r1 r2,
    ends_number r1 -> ends_number r2 ->
    stringify v1 ++ r1 = stringify v2 ++ r2 -> v1 = v2 /\ r1 = r2.

Lemma cons_tail_eq (c : ascii) l1 l2 : c :: l1 = c :: l2 -> l1 = l2.
Proof. intros H. injection H as H. exact H. Qed.

#[local] Opaque quote.

Lemma elements_inj : forall l1,
  Forall unique_reading l1 ->
  forall l2 r1 r2,
    ends_number r1 -> ends_number r2 ->
    elements l1 ++ r1 = elements l2 ++ r2 -> l1 = l2 /\ r1 = r2.
Proof.
  induction l1 as [|x1 l1 IH]; intros Hall [|x2 l2] r1 r2 E1 E2 H; simpl in H.
  - injection H as ->. split; reflexivity.
  - discriminate H.
  - discriminate H.
  - apply cons_tail_eq in H. rewrite <- ?app_assoc in H.
    apply Forall_cons in Hall as [Hx Hall].
    destruct (Hx x2 _ _ (elements_ends_number _ _) (elements_ends_number _ _) H)
      as [-> H'].
    destruct (IH Hall _ _ _ E1 E2 H') as [-> ->]. split; reflexivity.
Qed.

Lemma members_inj : forall l1,
  Forall (fun kv => unique_reading (snd kv)) l1 ->
  forall l2 r1 r2,
    ends_number r1 -> ends_number r2 ->
    members l1 ++ r1 = members l2 ++ r2 -> l1 = l2 /\ r1 = r2.
Proof.
  induction l1 as [|[k1 x1] l1 IH]; intros Hall [|[k2 x2] l2] r1 r2 E1 E2 H;
    simpl in H.
  - injection H as ->. split; reflexivity.
  - discriminate H.
  - discriminate H.
  - apply cons_tail_eq in H. rewrite <- ?app_assoc in H.
    apply quote_inj in H as [Hk H]. apply chars_inj in Hk. subst k2.
    simpl in H. apply cons_tail_eq in H. rewrite <- ?app_assoc in H.
    apply Forall_cons in Hall as [Hx Hall]. simpl in Hx.
    destruct (Hx x2 _ _ (members_ends_number _ _) (members_ends_number _ _) H)
      as [-> H'].
    destruct (IH Hall _ _ _ E1 E2 H') as [-> ->]. split; reflexivity.
Qed.

Lemma stringify_unique_reading v : unique_reading v.
Proof.
  induction v as [|b|n|s|items IH|props IH] using JsValue_nested_ind;
    intros v2 r1 r2 E1 E2 H; pose proof (same_kind _ _ _ _ H) as Hk.
  - destruct v2 as [|[]| | | |]; try discriminate Hk.
    simpl in H. injection H as ->. split; reflexivity.
  - destruct b, v2 as [|[]| | | |]; try discriminate Hk;
      simpl in H; injection H as ->; split; reflexivity.
  - destruct v2 as [|[]|n2| | |]; try discriminate Hk. simpl in H.
    apply numeric_prefix_inj in H as [Hn ->];
      try apply dec_of_Z_numeric; try assumption.
    apply chars_inj, dec_of_Z_inj in Hn. subst n2. split; reflexivity.
  - destruct v2 as [|[]| |s2| |]; try discriminate Hk. simpl in H.
    apply quote_inj in H as [Hs ->]. apply chars_inj in Hs. subst s2.
    split; reflexivity.
  - destruct v2 as [|[]| | |items2|]; try discriminate Hk.
    destruct items as [|x1 more1], items2 as [|x2 more2].
    + simpl in H. injection H as ->. split; reflexivity.
    + rewrite stringify_array in H. simpl in H. apply cons_tail_eq in H.
      symmetry in H. rewrite <- ?app_assoc in H. apply head_kind in H.
      pose proof (kind_below x2) as Hlt. rewrite <- H in Hlt. discriminate Hlt.
    + rewrite stringify_array in H. simpl in H. apply cons_tail_eq in H.
      rewrite <- ?app_assoc in H. apply head_kind in H.
      pose proof (kind_below x1) as Hlt. rewrite <- H in Hlt. discriminate Hlt.
    + rewrite !stringify_array in H. simpl in H. apply cons_tail_eq in H.
      rewrite <- ?app_assoc in H. apply Forall_cons in IH as [Hx Hall].
      destruct (Hx x2 _ _ (elements_ends_number _ _) (elements_ends_number _ _) H)
        as [-> H'].
      destruct (elements_inj _ Hall _ _ _ E1 E2 H') as [-> ->]. split; reflexivity.
  - destruct v2 as [|[]| | | |props2]; try discriminate Hk.
    destruct props as [|[k1 x1] more1], props2 as [|[k2 x2] more2].
    + simpl in H. injection H as ->. split; reflexivity.
    + rewrite stringify_object in H. simpl in H. discriminate H.
    + rewrite stringify_object in H. simpl in H. discriminate H.
    + rewrite !stringify_object in H. simpl in H. apply cons_tail_eq in H.
      rewrite <- ?app_assoc in H.
      apply quote_inj in H as [Hkey H]. apply chars_inj in Hkey. subst k2.
      simpl in H. apply cons_tail_eq in H. rewrite <- ?app_assoc in H.
      apply Forall_cons in IH as [Hx Hall]. simpl in Hx.
      destruct (Hx x2 _ _ (members_ends_number _ _) (members_ends_number _ _) H)
        as [-> H'].
      destruct (members_inj _ Hall _ _ _ E1 E2 H') as [-> ->]. split; reflexivity.
Qed.

#[local] Transparent quote.

(** Two values with the same text are the same value. *)
Lemma stringify_inj v1 v2 : stringify v1 = stringify v2 -> v1 = v2.
Proof.
  intros H.
  destruct (stringify_unique_reading v1 v2 [] [] I I) as [Hv _]; [|exact Hv].
  rewrite !app_nil_r. exact H.
Qed.

(** *** UTF-8 is one-to-one *)

Definition utf8_decode_char (l : list N) : option (ascii * list N) :=
  match l with
  | [] => None
  | b :: tl =>
      if (b <? 128)%N then Some (ascii_of_N b, tl)
      else match tl with
           | b2 :: tl' =>
               Some (ascii_of_N (N.lor (N.shiftl (N.land b 31) 6) (N.land b2 63)), tl')
           | [] => None
           end
  end.

Lemma utf8_decode_encode c r : utf8_decode_char (utf8_char c ++ r) = Some (c, r).
Proof. destruct c as [[] [] [] [] [] [] [] []]; reflexivity. Qed.

Lemma utf8_inj : forall s1 s2, utf8 s1 = utf8 s2 -> s1 = s2.
Proof.
  unfold utf8. induction s1 as [|c1 s1 IH]; intros [|c2 s2] H; simpl in H.
  - reflexivity.
  - apply (f_equal utf8_decode_char) in H. rewrite utf8_decode_encode in H.
    discriminate H.
  - apply (f_equal utf8_decode_char) in H. rewrite utf8_decode_encode in H.
    discriminate H.
  - apply (f_equal utf8_decode_char) in H. rewrite !utf8_decode_encode in H.
    injection H as -> H. rewrite (IH _ H). reflexivity.
Qed.

(** *** [JSON.parse]

    Texts are read by the JSON grammar: white space between tokens, the
    escapes of string literals, the three literals, arrays and objects.
    Numbers are read when they are integers, and [\uXXXX] when the code
    unit is in the range 0..255; other texts are outside the values of the
    embedding and are not read. An object is built as [JSON.parse] builds
    it, by defining the properties in the order of the text, a later value
    taking the place of an earlier one with the same key. *)

Definition is_ws (c : ascii) : bool :=
  let n := char_code c in
  ((n =? 32) || (n =? 9) || (n =? 10) || (n =? 13))%N.

Fixpoint skip_ws (l : list ascii) : list ascii :=
  match l with
  | c :: tl => if is_ws c then skip_ws tl else l
  | [] => []
  end.

Definition hex_digit_value (c : ascii) : option N :=
  let n := char_code c in
  if ((48 <=? n) && (n <=? 57))%N then Some (n - 48)%N
  else if ((97 <=? n) && (n <=? 102))%N then Some (n - 87)%N
  else if ((65 <=? n) && (n <=? 70))%N then Some (n - 55)%N
  else None.

Definition read_hex4 (l : list ascii) : option (N * list ascii) :=
  match l with
  | h1 :: h2 :: h3 :: h4 :: tl =>
      match hex_digit_value h1, hex_digit_value h2,
            hex_digit_value h3, hex_digit_value h4 with
      | Some a, Some b, Some c, Some d =>
          Some ((((a * 16 + b) * 16 + c) * 16 + d)%N, tl)
      | _, _, _, _ => None
      end
  | _ => None
  end.

(** One character of a string literal and the text after it; [None] at
    the closing quote and where the literal is malformed. *)
Definition read_char (l : list ascii) : option (ascii * list ascii) :=
  match l with
  | [] => None
  | c :: tl =>
      let n := char_code c in
      if (n =? 34)%N then None
      else if (n <? 32)%N then None
      else if (n =? 92)%N then
        match tl with
        | d :: tl' =>
            let m := char_code d in
            if (m =? 34)%N then Some (d, tl')
            else if (m =? 92)%N then Some (d, tl')
            else if (m =? 47)%N then Some (d, tl')
            else if (m =? 98)%N then Some (ascii_of_N 8, tl')
            else if (m =? 102)%N then Some (ascii_of_N 12, tl')
            else if (m =? 110)%N then Some (ascii_of_N 10, tl')
            else if (m =? 114)%N then Some (ascii_of_N 13, tl')
            else if (m =? 116)%N then Some (ascii_of_N 9, tl')
            else if (m =? 117)%N then
              match read_hex4 tl' with
              | Some (v, tl'') =>
                  if (v <? 256)%N then Some (ascii_of_N v, tl'') else None
              | None => None
              end
            else None
        | [] => None
        end
      else Some (c, tl)
  end.

(** The characters of a string literal, from after its opening quote. *)
Fixpoint read_string (fuel : nat) (l : list ascii)
  : option (list ascii * list ascii) :=
  match fuel with
  | O => None
  | S f =>
      match read_char l with
      | Some (c, tl) =>
          match read_string f tl with
          | Some (s, r) => Some (c :: s, r)
          | None => None
          end
      | None =>
          match l with
          | c :: tl => if (char_code c =? 34)%N then Some ([], tl) else None
          | [] => None
          end
      end
  end.

Fixpoint span_numeric (l : list ascii) : list ascii * list ascii :=
  match l with
  | c :: tl =>
      if numeric c then let (tok, r) := span_numeric tl in (c :: tok, r)
      else ([], l)
  | [] => ([], [])
  end.

(** The text goes on with a fraction or an exponent. *)
Definition fractional (l : list ascii) : bool :=
  match l with
  | c :: _ => ascii_eqb c "." || ascii_eqb c "e" || ascii_eqb c "E"
  | [] => false
  end.

(** An integer: [-0], or the digits [dec_of_Z] writes (no leading zero). *)
Definition read_number (l : list ascii) : option (Z * list ascii) :=
  let (tok, r) := span_numeric l in
  if fractional r then None
  else match NilEmpty.int_of_string (of_chars tok) with
       | Some d =>
           let z := Z.of_int d in
           if String.eqb (dec_of_Z z) (of_chars tok) || String.eqb (of_chars tok) "-0"
           then Some (z, r)
           else None
       | None => None
       end.

(** [CreateDataProperty]: the value of an existing key is replaced where
    it stands, a new key goes last. *)
Definition define_property (o : list (string * JsValue)) (kv : string * JsValue)
  : list (string * JsValue) :=
  match obj_update o (fst kv) (snd kv) with
  | Some o' => o'
  | None => o ++ [kv]
  end.

Definition literal (word : string) (v : JsValue) (l : list ascii)
  : option (JsValue * list ascii) :=
  if starts_with (chars word) l then Some (v, drop (length (chars word)) l) else None.

Fixpoint parse_value (fuel : nat) (l : list ascii) {struct fuel}
  : option (JsValue * list ascii) :=
  match fuel with
  | O => None
  | S f =>
      match l with
      | [] => None
      | c :: tl =>
          let k := char_kind c in
          if (k =? 0)%N then literal "null" JNull l
          else if (k =? 1)%N then literal "true" (JBool true) l
          else if (k =? 2)%N then literal "false" (JBool false) l
          else if (k =? 3)%N then
            match read_number l with
            | Some (z, r) => Some (JNumber z, r)
            | None => None
            end
          else if (k =? 4)%N then
            match read_string (S (length tl)) tl with
            | Some (s, r) => Some (JString (of_chars s), r)
            | None => None
            end
          else if (k =? 5)%N then
            match skip_ws tl with
            | d :: r =>
                if ascii_eqb d "]" then Some (JArray [], r)
                else match read_elements f (d :: r) with
                     | Some (items, r') => Some (JArray items, r')
                     | None => None
                     end
            | [] => None
            end
          else if (k =? 6)%N then
            match skip_ws tl with
            | d :: r =>
                if ascii_eqb d "}" then Some (JObject [], r)
                else match read_members f (d :: r) with
                     | Some (props, r') =>
                         Some (JObject (fold_left define_property props []), r')
                     | None => None
                     end
            | [] => None
            end
          else None
      end
  end

with read_elements (fuel : nat) (l : list ascii) {struct fuel}
  : option (list JsValue * list ascii) :=
  match fuel with
  | O => None
  | S f =>
      match parse_value f l with
      | Some (v, r) =>
          match skip_ws r with
          | d :: r' =>
              if ascii_eqb d "," then
                match read_elements f (skip_ws r') with
                | Some (vs, r'') => Some (v :: vs, r'')
                | None => None
                end
              else if ascii_eqb d "]" then Some ([v], r')
              else None
          | [] => None
          end
      | None => None
      end
  end

with read_members (fuel : nat) (l : list ascii) {struct fuel}
  : option (list (string * JsValue) * list ascii) :=
  match fuel with
  | O => None
  | S f =>
      match l with
      | q :: tl =>
          if negb (char_code q =? 34)%N then None
          else
            match read_string (S (length tl)) tl with
            | Some (key, r) =>
                match skip_ws r with
                | colon :: r1 =>
                    if negb (ascii_eqb colon ":") then None
                    else
                      match parse_value f (skip_ws r1) with
                      | Some (v, r2) =>
                          match skip_ws r2 with
                          | d :: r3 =>
                              if ascii_eqb d "," then
                                match read_members f (skip_ws r3) with
                                | Some (kvs, r4) => Some ((of_chars key, v) :: kvs, r4)
                                | None => None
                                end
                              else if ascii_eqb d "}" then Some ([(of_chars key, v)], r3)
                              else None
                          | [] => None
                          end
                      | None => None
                      end
                | [] => None
                end
            | None => None
            end
      | [] => None
      end
  end.

(** [JSON.parse(text)]; [None] where it throws. *)
Definition parse (text : string) : option JsValue :=
  let l := skip_ws (chars text) in
  match parse_value (S (2 * length l)) l with
  | Some (v, r) => match skip_ws r with [] => Some v | _ :: _ => None end
  | None => None
  end.

(** *** Reading back what [JSON.stringify] wrote *)

Lemma read_escape c r : read_char (escape_char c ++ r) = Some (c, r).
Proof. destruct c as [[] [] [] [] [] [] [] []]; reflexivity. Qed.

Lemma read_string_escaped : forall s r fuel,
  (length s < fuel)%nat ->
  read_string fuel (flat_map escape_char s ++ dquote :: r) = Some (s, r).
Proof.
  induction s as [|c s IH]; intros r fuel Hfuel;
    (destruct fuel as [|f]; [simpl in Hfuel; lia|]).
  - reflexivity.
  - cbn [flat_map read_string]. rewrite <- app_assoc, read_escape.
    rewrite IH by (simpl in Hfuel; lia). reflexivity.
Qed.

Lemma escaped_length s : (length s <= length (flat_map escape_char s))%nat.
Proof.
  induction s as [|c s IH]; [reflexivity|].
  cbn [flat_map]. rewrite length_app. cbn [length].
  assert (1 <= length (escape_char c))%nat
    by (destruct c as [[] [] [] [] [] [] [] []]; vm_compute; lia).
  lia.
Qed.

Lemma span_numeric_app : forall tok r,
  Forall (fun c => numeric c = true) tok -> ends_number r ->
  span_numeric (tok ++ r) = (tok, r).
Proof.
  induction tok as [|c tok IH]; intros r Htok Hr.
  - destruct r as [|d r]; [reflexivity|]. simpl in Hr. cbn [app span_numeric].
    rewrite Hr. reflexivity.
  - apply Forall_cons in Htok as [Hc Htok]. cbn [app span_numeric].
    rewrite Hc, (IH r Htok Hr). reflexivity.
Qed.

(** What follows a value inside the text of a value: a comma, a closing
    bracket or brace, or nothing. *)
Definition delimited (r : list ascii) : Prop :=
  match r with
  | [] => True
  | c :: _ => c = ","%char \/ c = "]"%char \/ c = "}"%char
  end.

Lemma delimited_ends_number r : delimited r -> ends_number r /\ fractional r = false.
Proof.
  destruct r as [|c r]; [split; reflexivity|].
  intros [->|[->| ->]]; split; reflexivity.
Qed.

Lemma delimited_skip_ws r : delimited r -> skip_ws r = r.
Proof.
  destruct r as [|c r]; [reflexivity|]. intros [->|[->| ->]]; reflexivity.
Qed.

Lemma read_number_written n r :
  delimited r -> read_number (chars (dec_of_Z n) ++ r) = Some (n, r).
Proof.
  intros Hr. apply delimited_ends_number in Hr as [Hend Hfrac].
  unfold read_number.
  rewrite (span_numeric_app _ _ (dec_of_Z_numeric n) Hend), Hfrac, of_chars_chars.
  unfold dec_of_Z at 1. rewrite NilEmpty.isi, DecimalZ.of_to.
  rewrite String.eqb_refl. reflexivity.
Qed.

Lemma ws_kind c : is_ws c = true -> char_kind c = 7%N.
Proof.
  destruct c as [[] [] [] [] [] [] [] []]; intros H; try discriminate H; reflexivity.
Qed.

Lemma value_skip_ws v r : skip_ws (stringify v ++ r) = stringify v ++ r.
Proof.
  destruct (stringify_kind v) as (c & tl & -> & Hk). cbn [app skip_ws].
  destruct (is_ws c) eqn:Hws; [|reflexivity].
  apply ws_kind in Hws. pose proof (kind_below v) as Hlt.
  rewrite <- Hk, Hws in Hlt. discriminate Hlt.
Qed.

Lemma define_property_fresh : forall props acc,
  NoDup (map fst (acc ++ props)) ->
  fold_left define_property props acc = acc ++ props.
Proof.
  induction props as [|[k v] props IH]; intros acc Hnd; cbn [fold_left].
  - rewrite app_nil_r. reflexivity.
  - assert (Hfresh : ~ In k (map fst acc)).
    { rewrite map_app in Hnd. cbn [map fst] in Hnd.
      apply NoDup_app in Hnd as (_ & Hdisj & _). intros Hin.
      apply (Hdisj k); [apply list_elem_of_In, Hin|]. left. }
    unfold define_property at 2. cbn [fst snd].
    rewrite (obj_update_fresh k v acc Hfresh).
    rewrite IH by (rewrite <- app_assoc; exact Hnd).
    rewrite <- app_assoc. reflexivity.
Qed.

(** A value is read back from its text, followed by anything that a value
    can be followed by. *)
Definition reads_back (v : JsValue) : Prop :=
  forall fuel r,
    (2 * length (stringify v) < fuel)%nat -> delimited r ->
    parse_value fuel (stringify v ++ r) = Some (v, r).

Lemma elements_delimited l r : delimited (elements l ++ r).
Proof. destruct l; simpl; auto. Qed.

Lemma members_delimited l r : delimited (members l ++ r).
Proof. destruct l; simpl; auto. Qed.

Lemma stringify_nonempty v : (1 <= length (stringify v))%nat.
Proof. destruct (stringify_kind v) as (c & tl & -> & _). simpl. lia. Qed.

Lemma read_elements_written : forall more x,
  reads_back x -> Forall reads_back more ->
  forall fuel r,
    (2 * length (stringify x ++ elements more) + 1 < fuel)%nat -> delimited r ->
    read_elements fuel (stringify x ++ elements more ++ r) = Some (x :: more, r).
Proof.
  induction more as [|y more IH]; intros x Hx Hmore fuel r Hfuel Hr;
    (destruct fuel as [|f]; [lia|]); cbn [read_elements];
    rewrite length_app in Hfuel.
  - rewrite (Hx f (elements [] ++ r)); [|lia|apply elements_delimited].
    reflexivity.
  - apply Forall_cons in Hmore as [Hy Hmore].
    rewrite (Hx f (elements (y :: more) ++ r)); [|lia|apply elements_delimited].
    cbn [elements app skip_ws].
    change (is_ws ","%char) with false. cbn iota.
    change (ascii_eqb ","%char ","%char) with true. cbn iota.
    rewrite <- app_assoc, value_skip_ws.
    cbn [elements length] in Hfuel. rewrite length_app in Hfuel.
    rewrite (IH y Hy Hmore f r); [reflexivity| |exact Hr].
    rewrite length_app. pose proof (stringify_nonempty x). lia.
Qed.

Lemma read_key_written k r :
  read_string (S (length (flat_map escape_char (chars k) ++ dquote :: r)))
    (flat_map escape_char (chars k) ++ dquote :: r)
  = Some (chars k, r).
Proof.
  apply read_string_escaped. rewrite length_app.
  pose proof (escaped_length (chars k)). lia.
Qed.

Lemma quote_unfold l r :
  quote l ++ r = dquote :: flat_map escape_char l ++ dquote :: r.
Proof. unfold quote. cbn [app]. rewrite <- app_assoc. reflexivity. Qed.

Lemma read_members_written : forall more k x,
  reads_back x -> Forall (fun kv => reads_back (snd kv)) more ->
  forall fuel r,
    (2 * length (quote (chars k) ++ ":"%char :: stringify x ++ members more) + 1 < fuel)%nat ->
    delimited r ->
    read_members fuel
      (quote (chars k) ++ ":"%char :: stringify x ++ members more ++ r)
    = Some ((k, x) :: more, r).
Proof.
  induction more as [|[k' y] more IH]; intros k x Hx Hmore fuel r Hfuel Hr;
    (destruct fuel as [|f]; [lia|]);
    rewrite quote_unfold; cbn [read_members];
    change (negb (char_code dquote =? 34)%N) with false; cbn iota;
    rewrite read_key_written; cbn [skip_ws];
    change (is_ws ":"%char) with false; cbn iota;
    change (negb (ascii_eqb ":"%char ":"%char)) with false; cbn iota;
    rewrite value_skip_ws;
    rewrite !length_app in Hfuel; cbn [length] in Hfuel; rewrite length_app in Hfuel.
  - rewrite (Hx f (members [] ++ r)); [|lia|apply members_delimited].
    cbn [members app skip_ws]. rewrite of_chars_chars. reflexivity.
  - apply Forall_cons in Hmore as [Hy Hmore]. cbn [snd] in Hy.
    rewrite (Hx f (members ((k', y) :: more) ++ r)); [|lia|apply members_delimited].
    cbn [members app skip_ws fst snd].
    change (is_ws ","%char) with false. cbn iota.
    change (ascii_eqb ","%char ","%char) with true. cbn iota.
    rewrite <- !app_assoc. cbn [app]. rewrite <- !app_assoc.
    assert (Hskip : forall t, skip_ws (quote (chars k') ++ t) = quote (chars k') ++ t).
    { intros t. rewrite quote_unfold. reflexivity. }
    rewrite Hskip.
    cbn [members length fst snd] in Hfuel. rewrite !length_app in Hfuel.
    cbn [length] in Hfuel. rewrite length_app in Hfuel.
    rewrite (IH k' y Hy Hmore f r); [rewrite of_chars_chars; reflexivity| |exact Hr].
    rewrite !length_app. cbn [length]. rewrite length_app. lia.
Qed.

Lemma not_closing v r c tl close :
  char_kind close = 7%N -> stringify v ++ r = c :: tl -> ascii_eqb c close = false.
Proof.
  intros Hclose H. apply head_kind in H. apply not_true_is_false. intros Heq.
  apply ascii_eqb_true in Heq. subst c. pose proof (kind_below v) as Hlt.
  rewrite <- H, Hclose in Hlt. discriminate Hlt.
Qed.

Lemma parse_value_number f c tl :
  char_kind c = 3%N ->
  parse_value (S f) (c :: tl)
  = match read_number (c :: tl) with
    | Some (z, r) => Some (JNumber z, r)
    | None => None
    end.
Proof. intros H. cbn [parse_value]. rewrite H. reflexivity. Qed.

Lemma parse_value_string f c tl :
  char_kind c = 4%N ->
  parse_value (S f) (c :: tl)
  = match read_string (S (length tl)) tl with
    | Some (s, r) => Some (JString (of_chars s), r)
    | None => None
    end.
Proof. intros H. cbn [parse_value]. rewrite H. reflexivity. Qed.

Lemma parse_value_array f c tl :
  char_kind c = 5%N ->
  parse_value (S f) (c :: tl)
  = match skip_ws tl with
    | d :: r =>
        if ascii_eqb d "]" then Some (JArray [], r)
        else match read_elements f (d :: r) with
             | Some (items, r') => Some (JArray items, r')
             | None => None
             end
    | [] => None
    end.
Proof. intros H. cbn [parse_value]. rewrite H. reflexivity. Qed.

Lemma parse_value_object f c tl :
  char_kind c = 6%N ->
  parse_value (S f) (c :: tl)
  = match skip_ws tl with
    | d :: r =>
        if ascii_eqb d "}" then Some (JObject [], r)
        else match read_members f (d :: r) with
             | Some (props, r') =>
                 Some (JObject (fold_left define_property props []), r')
             | None => None
             end
    | [] => None
    end.
Proof. intros H. cbn [parse_value]. rewrite H. reflexivity. Qed.

(** Every value without repeated keys is read back from the text
    [JSON.stringify] writes for it. *)
Lemma parse_value_written v : well_formed v -> reads_back v.
Proof.
  induction v as [|b|n|s|items IH|props IH] using JsValue_nested_ind;
    intros Hwf fuel r Hfuel Hr; (destruct fuel as [|f]; [lia|]).
  - reflexivity.
  - destruct b; reflexivity.
  - cbn [stringify] in *.
    pose proof (dec_of_Z_numeric n) as Hnum. pose proof (dec_of_Z_nonempty n) as Hne.
    pose proof (read_number_written n r Hr) as Hread.
    destruct (chars (dec_of_Z n)) as [|c tl]; [contradiction|].
    apply Forall_cons in Hnum as [Hc _]. cbn [app] in *.
    rewrite (parse_value_number f c _ (numeric_kind c Hc)), Hread. reflexivity.
  - cbn [stringify]. rewrite quote_unfold.
    rewrite (parse_value_string f dquote _ eq_refl).
    rewrite read_key_written, of_chars_chars. reflexivity.
  - inversion Hwf as [| | | |items' Hitems|]; subst.
    destruct items as [|x more]; [reflexivity|].
    rewrite stringify_array in *. cbn [app].
    rewrite (parse_value_array f "["%char _ eq_refl).
    rewrite <- app_assoc, value_skip_ws.
    apply Forall_cons in IH as [IHx IHmore].
    apply Forall_cons in Hitems as [Hx Hmore].
    assert (Hreads : Forall reads_back more).
    { clear - IHmore Hmore. induction more as [|y more IHm]; [constructor|].
      apply Forall_cons in IHmore as [IHy IHmore].
      apply Forall_cons in Hmore as [Hy Hmore].
      constructor; [exact (IHy Hy)|exact (IHm IHmore Hmore)]. }
    pose proof (read_elements_written more x (IHx Hx) Hreads f r) as Hread.
    destruct (stringify x ++ elements more ++ r) as [|d tl] eqn:Htext.
    { destruct (stringify_kind x) as (c & t & Hc & _). rewrite Hc in Htext.
      discriminate Htext. }
    rewrite (not_closing x (elements more ++ r) d tl "]"%char eq_refl Htext).
    rewrite Hread; [reflexivity| |exact Hr].
    cbn [length] in Hfuel. lia.
  - inversion Hwf as [| | | | |props' Hnodup Hproto Hprops]; subst.
    destruct props as [|[k x] more]; [reflexivity|].
    rewrite stringify_object in *. cbn [app fst snd].
    rewrite (parse_value_object f "{"%char _ eq_refl).
    assert (Hskip : forall t, skip_ws (quote (chars k) ++ t) = quote (chars k) ++ t).
    { intros t. rewrite quote_unfold. reflexivity. }
    rewrite <- app_assoc. cbn [app]. rewrite <- app_assoc. rewrite Hskip.
    apply Forall_cons in IH as [IHx IHmore]. cbn [snd] in IHx.
    apply Forall_cons in Hprops as [Hx Hmore]. cbn [snd] in Hx.
    assert (Hreads : Forall (fun kv => reads_back (snd kv)) more).
    { clear - IHmore Hmore. induction more as [|y more IHm]; [constructor|].
      apply Forall_cons in IHmore as [IHy IHmore].
      apply Forall_cons in Hmore as [Hy Hmore].
      constructor; [exact (IHy Hy)|exact (IHm IHmore Hmore)]. }
    pose proof (read_members_written more k x (IHx Hx) Hreads f r) as Hread.
    cbn [fst snd length] in Hfuel.
    specialize (Hread ltac:(lia) Hr).
    remember (quote (chars k) ++ ":"%char :: stringify x ++ members more ++ r)
      as text eqn:Htext.
    rewrite quote_unfold in Htext. destruct text as [|d tl]; [discriminate Htext|].
    assert (Hd : ascii_eqb d "}" = false) by (injection Htext as -> _; reflexivity).
    rewrite Hd, Hread, (define_property_fresh _ [] Hnodup). reflexivity.
Qed.

(** [JSON.parse(JSON.stringify(v))] is [v] again, for a value without
    repeated keys. *)
Lemma parse_stringify v :
  well_formed v -> parse (of_chars (stringify v)) = Some v.
Proof.
  intros Hwf. unfold parse. rewrite chars_of_chars.
  pose proof (value_skip_ws v []) as Hskip. rewrite app_nil_r in Hskip.
  rewrite Hskip.
  pose proof (parse_value_written v Hwf (S (2 * length (stringify v))) []) as Hread.
  rewrite app_nil_r in Hread. rewrite Hread; [reflexivity|lia|exact I].
Qed.

End Json.


(** ** services/audit-logger.ts *)

Module AuditLogger.
Import JsString ErrorHandler Json.

Inductive Outcome : Type := success | failure | rate_limited.

Definition outcome_name (r : Outcome) : string :=
  match r with
  | success => "success"
  | failure => "failure"
  | rate_limited => "rate_limited"
  end.

(** [AuditLog]; an absent optional field is [None]. *)
Record AuditLog : Type := mkAuditLog {
  timestamp : string;
  user_id : string;
  tool_name : string;
  parameters : list (string * JsValue);
  result : Outcome;
  error : option string;
  sandbox_id : option string;
  execution_time_ms : Z;
  hash : string
}.

(** The stored fields of a record, its digest apart. *)
Definition fields (entry : AuditLog) :=
  (timestamp entry, user_id entry, tool_name entry, parameters entry,
   result entry, error entry, sandbox_id entry, execution_time_ms entry).

(** A property that [JSON.stringify] leaves out when it is [undefined]. *)
Definition optional (key : string) (value : option string)
  : list (string * JsValue) :=
  match value with
  | Some s => [(key, JString s)]
  | None => []
  end.

(** The object [generateHash] serializes. *)
Definition hash_input (entry : AuditLog) : JsValue :=
  JObject
    ([ ("timestamp", JString (timestamp entry));
       ("user_id", JString (user_id entry));
       ("tool_name", JString (tool_name entry));
       ("parameters", JObject (parameters entry));
       ("result", JString (outcome_name (result entry))) ]
     ++ optional "error" (error entry)
     ++ optional "sandbox_id" (sandbox_id entry)
     ++ [ ("execution_time_ms", JNumber (execution_time_ms entry)) ]).

(** The bytes that are hashed: the UTF-8 encoding of the JSON text. *)
Definition canonical (entry : AuditLog) : list N :=
  utf8 (stringify (hash_input entry)).

(** [createHash('sha256').update(data).digest('hex')] *)
Definition digest (data : list N) : string := Sha256.hex (Sha256.sha256 data).

Definition generateHash (entry : AuditLog) : string := digest (canonical entry).
#[global] Arguments digest : simpl never.
#[global] Arguments canonical : simpl never.
#[global] Arguments generateHash : simpl never.

Fixpoint verifyIntegrity (entries : list AuditLog) : bool :=
  match entries with
  | [] => true
  | entry :: later =>
      if negb (String.eqb (generateHash entry) (hash entry)) then false
      else verifyIntegrity later
  end.

(** Two different messages with the same digest. *)
Definition digest_collision (m1 m2 : list N) : Prop :=
  m1 <> m2 /\ digest m1 = digest m2.

(** *** Writing a record *)

(** A row of the table [audit_logs]; [None] is SQL [NULL]. *)
Record Row : Type := mkRow {
  row_timestamp : string;
  row_user_id : string;
  row_tool_name : string;
  row_parameters : string;
  row_result : string;
  row_error : option string;
  row_sandbox_id : option string;
  row_execution_time_ms : Z;
  row_hash : string
}.

(** [value || null] *)
Definition or_null (value : option string) : option string :=
  match value with
  | Some s => if String.eqb s "" then None else Some s
  | None => None
  end.

Inductive Level : Type := info | error_level.

(** What [log] can act on: the table, the pino logger, and the standard
    error stream of the process. *)
Record World : Type := mkWorld {
  db : list Row;
  logger : list (Level * string);
  console_error : list string
}.

Definition CRITICAL : string := "CRITICAL: Audit logging failed".

Section Log.

(** What went wrong in an exception, and the prepared [INSERT] statement:
    given the table and a row it returns the table with the row added, or
    throws. *)
Variable Exn : Type.
Variable db_run : list Row -> Row -> Result Exn (list Row).

Definition try_catch {A} (body : Result Exn A) (handler : Exn -> Result Exn A)
  : Result Exn A :=
  match body with
  | Ok a => Ok a
  | Throw e => handler e
  end.

Definition build_entry (userId toolName : string)
  (parameters : list (string * JsValue)) (result : Outcome)
  (executionTimeMs : Z) (error sandboxId : option string) (now_iso : string)
  : AuditLog :=
  let entryWithoutHash :=
    mkAuditLog now_iso userId toolName (sanitizeParameters parameters) result
      error sandboxId executionTimeMs "" in
  mkAuditLog now_iso userId toolName (sanitizeParameters parameters) result
    error sandboxId executionTimeMs (generateHash entryWithoutHash).

Definition row_of (entry : AuditLog) : Row :=
  mkRow (timestamp entry) (user_id entry) (tool_name entry)
    (of_chars (stringify (JObject (parameters entry))))
    (outcome_name (result entry))
    (or_null (error entry)) (or_null (sandbox_id entry))
    (execution_time_ms entry) (hash entry).

(** [log], with [new Date().toISOString()] as the argument [now_iso]. *)
Definition log (userId toolName : string)
  (parameters : list (string * JsValue)) (result : Outcome)
  (executionTimeMs : Z) (error sandboxId : option string)
  (now_iso : string) (w : World) : Result Exn World :=
  try_catch
    (let entry := build_entry userId toolName parameters result executionTimeMs
                    error sandboxId now_iso in
     match db_run (db w) (row_of entry) with
     | Throw e => Throw e
     | Ok table =>
         Ok (mkWorld table (logger w ++ [(info, "logged")]) (console_error w))
     end)
    (fun _ =>
       Ok (mkWorld (db w)
             (logger w ++ [(error_level, CRITICAL)])
             (console_error w ++ [CRITICAL]))).

(** C9. Whatever the arguments and whatever the insertion does, [log]
    returns normally. When the insertion throws, the table is left as it
    was and the failure is reported on the two channels that are not the
    table: an error line of the logger and a line on standard error. When
    the insertion succeeds, the table is the one it returned and nothing is
    written to standard error. *)
Theorem log_never_throws userId toolName parameters result executionTimeMs
  error sandboxId now_iso w :
  exists w',
    log userId toolName parameters result executionTimeMs error sandboxId now_iso w
      = Ok w'
    /\ match db_run (db w)
               (row_of (build_entry userId toolName parameters result
                          executionTimeMs error sandboxId now_iso)) with
       | Throw _ =>
           db w' = db w
           /\ logger w' = logger w ++ [(error_level, CRITICAL)]
           /\ console_error w' = console_error w ++ [CRITICAL]
       | Ok table =>
           db w' = table
           /\ logger w' = logger w ++ [(info, "logged")]
           /\ console_error w' = console_error w
       end.
Proof.
  unfold log, try_catch.
  destruct (db_run (db w) _) as [table|e]; eexists; (split; [reflexivity|]);
    simpl; repeat split.
Qed.

End Log.

(** *** Verifying records *)

Lemma outcome_name_inj r1 r2 : outcome_name r1 = outcome_name r2 -> r1 = r2.
Proof. destruct r1, r2; simpl; intros H; (reflexivity || discriminate H). Qed.

Lemma hash_input_inj e1 e2 :
  hash_input e1 = hash_input e2 -> fields e1 = fields e2.
Proof.
  destruct e1 as [t1 u1 n1 p1 r1 er1 sb1 ms1 h1], e2 as [t2 u2 n2 p2 r2 er2 sb2 ms2 h2].
  unfold hash_input, fields. simpl. intros H.
  destruct er1, er2, sb1, sb2; simpl in H; inversion H; subst;
    match goal with
    | Hr : outcome_name _ = outcome_name _ |- _ => apply outcome_name_inj in Hr; subst
    end; reflexivity.
Qed.

(** Records with different fields are hashed from different bytes. *)
Lemma canonical_inj e1 e2 : canonical e1 = canonical e2 -> fields e1 = fields e2.
Proof.
  unfold canonical. intros H.
  apply hash_input_inj, stringify_inj, utf8_inj, H.
Qed.

Lemma verifyIntegrity_true_iff entries :
  verifyIntegrity entries = true
  <-> Forall (fun entry => generateHash entry = hash entry) entries.
Proof.
  induction entries as [|entry later IH]; cbn [verifyIntegrity].
  - split; [intros _; apply List.Forall_nil|reflexivity].
  - rewrite Forall_cons, <- IH.
    destruct (String.eqb (generateHash entry) (hash entry)) eqn:E; cbn [negb].
    + apply String.eqb_eq in E.
      split; [intros H; split; assumption|intros [_ H]; exact H].
    + apply String.eqb_neq in E.
      split; [intros H; discriminate H|intros [H _]; exfalso; exact (E H)].
Qed.





(** *** Reading records back *)

Definition outcome_of_name (name : string) : option Outcome :=
  if String.eqb name "success" then Some success
  else if String.eqb name "failure" then Some failure
  else if String.eqb name "rate_limited" then Some rate_limited
  else None.

(** [value || undefined], on a column that holds text or [NULL]. *)
Definition or_undefined (value : option string) : option string :=
  match value with
  | Some s => if String.eqb s "" then None else Some s
  | None => None
  end.

(** The record [queryLogs] makes of a row. [None] where [JSON.parse]
    throws, and for rows that hold no [AuditLog]: parameters that are not
    an object, a result that is none of the three. *)
Definition entry_of_row (row : Row) : option AuditLog :=
  match parse (row_parameters row), outcome_of_name (row_result row) with
  | Some (JObject parameters), Some result =>
      Some (mkAuditLog (row_timestamp row) (row_user_id row) (row_tool_name row)
              parameters result
              (or_undefined (row_error row)) (or_undefined (row_sandbox_id row))
              (row_execution_time_ms row) (row_hash row))
  | _, _ => None
  end.

Lemma outcome_of_name_written r : outcome_of_name (outcome_name r) = Some r.
Proof. destruct r; reflexivity. Qed.

(** A text column read back: the text, or nothing when it was empty. *)
Lemma column_read_back value :
  or_undefined (or_null value) = if bool_decide (value = Some "") then None else value.
Proof.
  destruct value as [s|]; [|reflexivity]. simpl.
  destruct (String.eqb_spec s "") as [->|Hne]; simpl.
  - reflexivity.
  - destruct (String.eqb_spec s ""); [contradiction|].
    rewrite bool_decide_eq_false_2; [reflexivity|]. intros H. injection H as H.
    contradiction.
Qed.

Lemma sanitizeParameters_well_formed parameters :
  well_formed (JObject parameters) ->
  well_formed (JObject (sanitizeParameters parameters)).
Proof.
  intros Hwf. unfold sanitizeParameters. rewrite (sanitizeValue_redact _ Hwf).
  apply redact_well_formed in Hwf. exact Hwf.
Qed.

Lemma entry_of_row_written userId toolName parameters result executionTimeMs
  error sandboxId now_iso :
  well_formed (JObject parameters) ->
  let entry := build_entry userId toolName parameters result executionTimeMs
                 error sandboxId now_iso in
  entry_of_row (row_of entry)
  = Some (mkAuditLog now_iso userId toolName (sanitizeParameters parameters) result
            (if bool_decide (error = Some "") then None else error)
            (if bool_decide (sandboxId = Some "") then None else sandboxId)
            executionTimeMs (hash entry)).
Proof.
  intros Hwf entry. subst entry. unfold entry_of_row, row_of, build_entry.
  cbn [row_parameters row_result row_timestamp row_user_id row_tool_name row_error
       row_sandbox_id row_execution_time_ms row_hash AuditLogger.parameters
       AuditLogger.result timestamp user_id tool_name AuditLogger.error sandbox_id
       execution_time_ms hash].
  rewrite (parse_stringify _ (sanitizeParameters_well_formed _ Hwf)).
  rewrite outcome_of_name_written, !column_read_back. reflexivity.
Qed.

(** A logged record read back from its row passes [verifyIntegrity],
    unless it was logged with an empty error text or an empty sandbox id.
    For parameters with distinct keys at every depth, the record that
    [queryLogs] makes of the row that [log] writes is the logged record
    itself when neither text is the empty string, and [verifyIntegrity]
    accepts it. When one of them is the empty string, the row holds [NULL]
    in its place, the record read back has lost the field, and
    [verifyIntegrity] rejects a record that nobody altered (unless the two
    serializations are a SHA-256 collision). *)
Theorem logged_record_read_back userId toolName parameters result executionTimeMs
  error sandboxId now_iso :
  well_formed (JObject parameters) ->
  let entry := build_entry userId toolName parameters result executionTimeMs
                 error sandboxId now_iso in
  exists read,
    entry_of_row (row_of entry) = Some read
    /\ (error <> Some "" -> sandboxId <> Some "" ->
        read = entry /\ verifyIntegrity [read] = true)
    /\ (error = Some "" \/ sandboxId = Some "" ->
        fields read <> fields entry
        /\ hash read = hash entry
        /\ (verifyIntegrity [read] = false
            \/ digest_collision (canonical read) (canonical entry))).
Proof.
  intros Hwf entry. eexists. split; [apply entry_of_row_written; exact Hwf|].
  assert (Hentry : hash entry = generateHash entry).
  { subst entry. unfold build_entry. cbn [hash]. unfold generateHash. f_equal. }
  split.
  - intros He Hs.
    rewrite (bool_decide_eq_false_2 _ He), (bool_decide_eq_false_2 _ Hs).
    split; [reflexivity|].
    apply verifyIntegrity_true_iff. apply List.Forall_cons; [|apply List.Forall_nil].
    symmetry. exact Hentry.
  - intros Hempty.
    set (read := mkAuditLog _ _ _ _ _ _ _ _ _).
    assert (Hfields : fields read <> fields entry).
    { subst read entry. unfold fields, build_entry.
      cbn [timestamp user_id tool_name AuditLogger.parameters AuditLogger.result
           AuditLogger.error sandbox_id execution_time_ms].
      destruct Hempty as [-> | ->];
        rewrite (bool_decide_eq_true_2 (Some "" = Some "") eq_refl);
        intros H; inversion H. }
    split; [exact Hfields|]. split; [reflexivity|].
    destruct (verifyIntegrity [read]) eqn:Hv; [right|left; reflexivity].
    apply verifyIntegrity_true_iff in Hv. apply Forall_cons in Hv as [Hread _].
    split.
    + intros Hbytes. apply Hfields, canonical_inj, Hbytes.
    + change (hash read) with (hash entry) in Hread.
      unfold generateHash in *. congruence.
Qed.

Lemma logged_record_read_back_witness :
  (exists read,
      entry_of_row
        (row_of (build_entry "user1" "write_files" [("sandbox_id", JString "sb-1")]
                   failure 12 (Some "Sandbox sb-1 not found") (Some "sb-1")
                   "2025-01-01T00:00:00.000Z")) = Some read
      /\ verifyIntegrity [read] = true)
  /\ (exists read,
        entry_of_row
          (row_of (build_entry "user1" "get_sandbox_output" [("sandbox_id", JString "")]
                     failure 12 (Some "Sandbox  not found") (Some "")
                     "2025-01-01T00:00:00.000Z")) = Some read
        /\ sandbox_id read = None
        /\ verifyIntegrity [read] = false).
Proof.
  split.
  - destruct (logged_record_read_back "user1" "write_files"
                [("sandbox_id", JString "sb-1")] failure 12
                (Some "Sandbox sb-1 not found") (Some "sb-1")
                "2025-01-01T00:00:00.000Z")
      as (read & Hread & Hgood & _).
    + apply wf_object.
      * apply (bool_decide_unpack _). vm_compute. reflexivity.
      * intros Hin. simpl in Hin. destruct Hin as [Hin|Hin]; [discriminate Hin|exact Hin].
      * apply List.Forall_cons; [apply wf_string|apply List.Forall_nil].
    + exists read. split; [exact Hread|]. apply Hgood; discriminate.
  - destruct (logged_record_read_back "user1" "get_sandbox_output"
                [("sandbox_id", JString "")] failure 12
                (Some "Sandbox  not found") (Some "")
                "2025-01-01T00:00:00.000Z")
      as (read & Hread & _ & Hbad).
    + apply wf_object.
      * apply (bool_decide_unpack _). vm_compute. reflexivity.
      * intros Hin. simpl in Hin. destruct Hin as [Hin|Hin]; [discriminate Hin|exact Hin].
      * apply List.Forall_cons; [apply wf_string|apply List.Forall_nil].
    + exists read. split; [exact Hread|].
      vm_compute in Hread. injection Hread as <-.
      split; [reflexivity|]. vm_compute. reflexivity.
Defined.

End AuditLogger.


(** ** services/sandbox-manager.ts: the in-memory sandbox store *)

Module SandboxManager.
Import JsString Regex ErrorHandler PathValidator.

Inductive Status : Type := running | stopped | errored.

(** [SandboxData]. The files are the own properties of a plain object. *)
Record SandboxData : Type := mkSandboxData {
  sandbox_id : string;
  project_name : string;
  template : string;
  created_at : string;
  preview_url : string;
  status : Status;
  files : gmap string string;
  console_logs : list string;
  build_output : list string
}.

(** [CreateSandboxInput]; the properties of [initial_files] in the order
    [Object.keys] lists them. *)
Record CreateSandboxInput : Type := mkCreateSandboxInput {
  input_project_name : string;
  input_template : string;
  input_initial_files : option (list (string * string))
}.

(** One call of [auditLogger.log], by its arguments. *)
Record AuditCall : Type := mkAuditCall {
  audit_userId : string;
  audit_toolName : string;
  audit_parameters : list (string * JsValue);
  audit_result : AuditLogger.Outcome;
  audit_executionTimeMs : Z;
  audit_error : option string;
  audit_sandboxId : option string
}.

(** The private map [sandboxes] of the manager, and the calls it has made
    to the audit logger. *)
Record Manager : Type := mkManager {
  sandboxes : gmap string SandboxData;
  audit : list AuditCall
}.

Definition empty_manager : Manager := mkManager ∅ [].

(** *** Identifiers *)

(** [v.toString(16)] for an integer [v]. *)
Fixpoint hex_digits (fuel : nat) (v : Z) (acc : list ascii) : list ascii :=
  match fuel with
  | O => acc
  | S f =>
      let acc' := Json.hex_char (Z.to_N (v mod 16)) :: acc in
      if v / 16 =? 0 then acc' else hex_digits f (v / 16) acc'
  end.

Definition toString16 (v : Z) : list ascii :=
  if v <? 0 then "-"%char :: hex_digits (S (Z.to_nat (Z.log2 (- v)))) (- v) []
  else hex_digits (S (Z.to_nat (Z.log2 v))) v [].

Definition UUID_TEMPLATE : string := "xxxxxxxx-xxxx-4xxx-yxxx-xxxxxxxxxxxx".

(** The callback of [generateUUID], for the character [c] of the template
    and [r = (Math.random() * 16) | 0]. *)
Definition uuid_digit (c : ascii) (r : Z) : list ascii :=
  let v := if ascii_eqb c "x" then r else Z.lor (Z.land r 3) 8 in
  toString16 v.

(** ['...'.replace(/[xy]/g, callback)]: the callback is called once for
    every [x] and [y], from left to right; [random i] is the value of [r]
    in call number [i]. *)
Fixpoint fill (tpl : list ascii) (random : nat -> Z) (i : nat) : list ascii :=
  match tpl with
  | [] => []
  | c :: tl =>
      if ascii_eqb c "x" || ascii_eqb c "y"
      then uuid_digit c (random i) ++ fill tl random (S i)
      else c :: fill tl random i
  end.

Definition generateUUID (random : nat -> Z) : string :=
  of_chars (fill (chars UUID_TEMPLATE) random O).

(** *** Output *)

Definition name_char (c : ascii) : bool :=
  is_alpha c || is_digit c || ascii_eqb c "_" || ascii_eqb c "-".

Definition separator_char (c : ascii) : bool :=
  ascii_eqb c "=" || ascii_eqb c ":" || is_space c.

(** [/word[=:\s]+[a-zA-Z0-9_-]+/gi] *)
Definition assignment_of (word : regex) : regex :=
  Seq word (Seq (Rep 1 (Chr separator_char)) (Rep 1 (Chr name_char))).

Definition re_token : regex := assignment_of (lit_ci "token").

Definition re_api_key : regex :=
  assignment_of
    (Seq (lit_ci "api")
       (Seq (Opt (Chr (fun c => ascii_eqb c "_" || ascii_eqb c "-")))
          (lit_ci "key"))).

Definition re_secret : regex := assignment_of (lit_ci "secret").

Definition re_password : regex := assignment_of (lit_ci "password").

Definition newline : string := String (ascii_of_N 10) EmptyString.

Definition OUTPUT_MAX : Z := 50 * 1024.

Definition OUTPUT_TRUNCATED : string :=
  newline +:+ newline +:+ "[Output truncated to 50KB]".

Definition sanitizeOutput (output : string) : string :=
  let sanitized := output in
  let sanitized := replace_all re_token [Text "token=[REDACTED]"] sanitized in
  let sanitized := replace_all re_api_key [Text "api_key=[REDACTED]"] sanitized in
  let sanitized := replace_all re_secret [Text "secret=[REDACTED]"] sanitized in
  let sanitized := replace_all re_password [Text "password=[REDACTED]"] sanitized in
  if Z.of_nat (length (chars sanitized)) >? OUTPUT_MAX
  then of_chars (take (Z.to_nat OUTPUT_MAX) (chars sanitized)) +:+ OUTPUT_TRUNCATED
  else sanitized.

(** *** The three operations *)

Definition not_found (sandboxId : string) : MCPError :=
  mkMCPError SANDBOX_NOT_FOUND ("Sandbox " +:+ sandboxId +:+ " not found") 404 false.

Definition size_exceeded : MCPError :=
  mkMCPError FILE_SIZE_EXCEEDED "Total file size exceeds quota" 400 false.

(** [for (const filePath of ...) assertValidFilePath(filePath)] *)
Fixpoint assert_each (paths : list string) : Result MCPError unit :=
  match paths with
  | [] => Ok tt
  | filePath :: later =>
      match assertValidFilePath filePath with
      | Throw e => Throw e
      | Ok _ => assert_each later
      end
  end.

(** [obj[key] = value] on a plain object whose values are strings: the
    inherited setter of [__proto__] ignores a string. *)
Definition set_property (obj : gmap string string) (key value : string)
  : gmap string string :=
  if String.eqb key "__proto__" && negb (bool_decide (is_Some (obj !! key)))
  then obj
  else <[key := value]> obj.

(** [for (const [path, content] of Object.entries(files)) sandbox.files[path] = content] *)
Definition write_each (stored : gmap string string) (files : list (string * string))
  : gmap string string :=
  fold_left (fun obj entry => set_property obj (fst entry) (snd entry)) files stored.

(** [Object.values(files).reduce((sum, content) => sum + content.length, 0)] *)
Definition totalSize (files : list (string * string)) : Z :=
  fold_left (fun sum content => sum + Z.of_nat (String.length content))
    (map snd files) 0.

Definition maxSize : Z := 10 * 500 * 1024.

(** The sandbox after the loop that writes the entries into its files. *)
Definition written (sandbox : SandboxData) (entries : list (string * string))
  : SandboxData :=
  mkSandboxData (sandbox_id sandbox) (project_name sandbox) (template sandbox)
    (created_at sandbox) (preview_url sandbox) (status sandbox)
    (write_each (files sandbox) entries)
    (console_logs sandbox) (build_output sandbox).

(** What the [try] block of [writeFiles] does to the map before the audit
    call. The sandbox is an object held by the map and changed in place. *)
Definition writeFiles_body (sandboxId : string) (files : list (string * string))
  (stored : gmap string SandboxData) : Result MCPError (gmap string SandboxData) :=
  match stored !! sandboxId with
  | None => Throw (not_found sandboxId)
  | Some sandbox =>
      match assert_each (map fst files) with
      | Throw e => Throw e
      | Ok _ =>
          if totalSize files >? maxSize then Throw size_exceeded
          else Ok (<[sandboxId := written sandbox files]> stored)
      end
  end.

(** [writeFiles]; the clock reads [startTime] on entry and [endTime]
    before the audit call. *)
Definition writeFiles (sandboxId : string) (files : list (string * string))
  (userId : string) (startTime endTime : Z) (m : Manager)
  : Result MCPError unit * Manager :=
  match writeFiles_body sandboxId files (sandboxes m) with
  | Ok stored =>
      (Ok tt,
       mkManager stored
         (audit m ++
          [mkAuditCall userId "write_files"
             [("sandbox_id", JString sandboxId);
              ("file_count", JNumber (Z.of_nat (length files)))]
             AuditLogger.success (endTime - startTime) None (Some sandboxId)]))
  | Throw e =>
      (Throw e,
       mkManager (sandboxes m)
         (audit m ++
          [mkAuditCall userId "write_files" [("sandbox_id", JString sandboxId)]
             AuditLogger.failure (endTime - startTime)
             (Some (sanitizeErrorMessage (message e))) (Some sandboxId)]))
  end.

Definition PREVIEW_PREFIX : string := "https://codesandbox.io/p/sandbox/".

Definition stored_files (initial_files : option (list (string * string)))
  : gmap string string :=
  match initial_files with
  | Some files => list_to_map files
  | None => ∅
  end.

(** [createSandbox]; [now_iso] is [new Date().toISOString()]. *)
Definition createSandbox (input : CreateSandboxInput) (userId : string)
  (random : nat -> Z) (now_iso : string) (startTime endTime : Z) (m : Manager)
  : Result MCPError (string * string) * Manager :=
  let parameters :=
    [("project_name", JString (input_project_name input));
     ("template", JString (input_template input))] in
  match match input_initial_files input with
        | Some files => assert_each (map fst files)
        | None => Ok tt
        end with
  | Throw e =>
      (Throw e,
       mkManager (sandboxes m)
         (audit m ++
          [mkAuditCall userId "create_sandbox" parameters AuditLogger.failure
             (endTime - startTime) (Some (sanitizeErrorMessage (message e))) None]))
  | Ok _ =>
      let sandbox_id := generateUUID random in
      let preview_url := PREVIEW_PREFIX +:+ sandbox_id in
      let sandboxData :=
        mkSandboxData sandbox_id (input_project_name input) (input_template input)
          now_iso preview_url running (stored_files (input_initial_files input))
          [] [] in
      (Ok (sandbox_id, preview_url),
       mkManager (<[sandbox_id := sandboxData]> (sandboxes m))
         (audit m ++
          [mkAuditCall userId "create_sandbox" parameters AuditLogger.success
             (endTime - startTime) None (Some sandbox_id)]))
  end.

Inductive OutputType : Type := type_console_log | type_build_output | type_preview_url.

Definition output_type_name (outputType : OutputType) : string :=
  match outputType with
  | type_console_log => "console_log"
  | type_build_output => "build_output"
  | type_preview_url => "preview_url"
  end.

(** [lines.join('\n')] *)
Definition join_lines (lines : list string) : string := String.concat newline lines.

Definition getSandboxOutput (sandboxId : string) (outputType : OutputType)
  (userId : string) (startTime endTime : Z) (m : Manager)
  : Result MCPError string * Manager :=
  let parameters :=
    [("sandbox_id", JString sandboxId);
     ("output_type", JString (output_type_name outputType))] in
  match sandboxes m !! sandboxId with
  | None =>
      (Throw (not_found sandboxId),
       mkManager (sandboxes m)
         (audit m ++
          [mkAuditCall userId "get_sandbox_output" parameters AuditLogger.failure
             (endTime - startTime)
             (Some (sanitizeErrorMessage (message (not_found sandboxId))))
             (Some sandboxId)]))
  | Some sandbox =>
      let output :=
        match outputType with
        | type_console_log => sanitizeOutput (join_lines (console_logs sandbox))
        | type_build_output => sanitizeOutput (join_lines (build_output sandbox))
        | type_preview_url => preview_url sandbox
        end in
      (Ok output,
       mkManager (sandboxes m)
         (audit m ++
          [mkAuditCall userId "get_sandbox_output" parameters AuditLogger.success
             (endTime - startTime) None (Some sandboxId)]))
  end.

(** *** Writing files *)

Definition path_error (filePath : string) : MCPError :=
  mkMCPError PATH_TRAVERSAL ("Invalid or forbidden file path: " +:+ filePath) 403 false.

Lemma assert_each_first_invalid paths :
  assert_each paths
  = match find (fun filePath => negb (validateFilePath filePath)) paths with
    | Some filePath => Throw (path_error filePath)
    | None => Ok tt
    end.
Proof.
  induction paths as [|filePath later IH]; [reflexivity|].
  cbn [assert_each find]. unfold assertValidFilePath.
  destruct (negb (validateFilePath filePath)); [reflexivity|exact IH].
Qed.

Lemma find_none_all_valid paths :
  find (fun filePath => negb (validateFilePath filePath)) paths = None
  <-> Forall (fun filePath => validateFilePath filePath = true) paths.
Proof.
  induction paths as [|filePath later IH]; cbn [find].
  - split; [intros _; apply List.Forall_nil|reflexivity].
  - rewrite Forall_cons, <- IH.
    destruct (validateFilePath filePath); cbn [negb].
    + split; [intros H; split; [reflexivity|exact H]|intros [_ H]; exact H].
    + split; [intros H; discriminate H|intros [H _]; discriminate H].
Qed.


Lemma writeFiles_audit sandboxId entries userId startTime endTime m :
  exists call,
    audit (snd (writeFiles sandboxId entries userId startTime endTime m))
    = audit m ++ [call]
    /\ audit_sandboxId call = Some sandboxId
    /\ audit_result call
       = match fst (writeFiles sandboxId entries userId startTime endTime m) with
         | Ok _ => AuditLogger.success
         | Throw _ => AuditLogger.failure
         end.
Proof.
  unfold writeFiles.
  destruct (writeFiles_body sandboxId entries (sandboxes m));
    cbn [fst snd audit]; eexists; repeat split.
Qed.

(** [writeFiles] checks in a fixed order and writes nothing unless every
    check passes. The sandbox is looked up first, then every path is
    validated in the order of the keys, then the total length is compared
    with the quota of 5120000, which a total equal to it still meets. The
    call returns exactly when the sandbox exists, all the paths are valid and
    the total is within the quota; otherwise it throws the error of the
    first check that fails and leaves the stored sandboxes, files included,
    as they were. In either case exactly one audit call is made, for this
    sandbox, marked success or failure accordingly. *)
Theorem writeFiles_all_or_nothing sandboxId files userId startTime endTime m :
  let outcome := writeFiles sandboxId files userId startTime endTime m in
  fst outcome
  = match sandboxes m !! sandboxId with
    | None => Throw (not_found sandboxId)
    | Some _ =>
        match find (fun filePath => negb (validateFilePath filePath)) (map fst files) with
        | Some filePath => Throw (path_error filePath)
        | None => if totalSize files >? maxSize then Throw size_exceeded else Ok tt
        end
    end
  /\ (fst outcome = Ok tt
      <-> is_Some (sandboxes m !! sandboxId)
          /\ Forall (fun filePath => validateFilePath filePath = true) (map fst files)
          /\ totalSize files <= 5120000)
  /\ (fst outcome <> Ok tt -> sandboxes (snd outcome) = sandboxes m)
  /\ exists call,
      audit (snd outcome) = audit m ++ [call]
      /\ audit_sandboxId call = Some sandboxId
      /\ audit_result call
         = match fst outcome with
           | Ok _ => AuditLogger.success
           | Throw _ => AuditLogger.failure
           end.
Proof.
  intros outcome. subst outcome. unfold writeFiles, writeFiles_body.
  rewrite assert_each_first_invalid.
  pose proof (find_none_all_valid (map fst files)) as Hvalid.
  destruct (sandboxes m !! sandboxId) as [sandbox|]; cbn [fst snd sandboxes audit].
  - destruct (find _ (map fst files)) as [bad|]; cbn [fst snd sandboxes audit].
    + split; [reflexivity|]. split; [|split].
      * split; [intros Hok; discriminate Hok|].
        intros (_ & Hall & _). apply Hvalid in Hall. discriminate Hall.
      * intros _. reflexivity.
      * eexists. repeat split.
    + change maxSize with 5120000.
      destruct (Z.gtb_spec (totalSize files) 5120000) as [Hgt|Hle];
        cbn [fst snd sandboxes audit].
      * split; [reflexivity|]. split; [|split].
        -- split; [intros Hok; discriminate Hok|intros (_ & _ & Hs); lia].
        -- intros _. reflexivity.
        -- eexists. repeat split.
      * split; [reflexivity|]. split; [|split].
        -- split; [|reflexivity]. intros _. split; [eexists; reflexivity|].
           split; [apply Hvalid; reflexivity|lia].
        -- intros Hno. contradiction.
        -- eexists. repeat split.
  - split; [reflexivity|]. split; [|split].
    + split; [intros Hok; discriminate Hok|]. intros ([x Hx] & _). discriminate Hx.
    + intros _. reflexivity.
    + eexists. repeat split.
Qed.












(** *** The identifiers [generateUUID] makes *)

Definition lower_hex (c : ascii) : bool :=
  is_digit c || ((97 <=? char_code c) && (char_code c <=? 102))%N.

Definition variant_digit (c : ascii) : bool :=
  ascii_eqb c "8" || ascii_eqb c "9" || ascii_eqb c "a" || ascii_eqb c "b".

(** The textual form of a version 4 UUID of the RFC 4122 variant, in lower
    case: 8-4-4-4-12 hexadecimal digits, the third group starting with [4]
    and the fourth with one of [8], [9], [a], [b]. *)
Definition UUID_V4 : list (ascii -> bool) :=
  repeat lower_hex 8 ++ [ascii_eqb "-"%char]
  ++ repeat lower_hex 4 ++ [ascii_eqb "-"%char; ascii_eqb "4"%char]
  ++ repeat lower_hex 3 ++ [ascii_eqb "-"%char; variant_digit]
  ++ repeat lower_hex 3 ++ [ascii_eqb "-"%char]
  ++ repeat lower_hex 12.

Fixpoint has_shape (shape : list (ascii -> bool)) (s : list ascii) : bool :=
  match shape, s with
  | [], [] => true
  | p :: shape', c :: s' => p c && has_shape shape' s'
  | _, _ => false
  end.

(** What the callback yields for a character of the template. *)
Definition template_class (c : ascii) : ascii -> bool :=
  if ascii_eqb c "x" then lower_hex
  else if ascii_eqb c "y" then variant_digit
  else ascii_eqb c.

Lemma sixteen r :
  0 <= r < 16 ->
  r = 0 \/ r = 1 \/ r = 2 \/ r = 3 \/ r = 4 \/ r = 5 \/ r = 6 \/ r = 7 \/
  r = 8 \/ r = 9 \/ r = 10 \/ r = 11 \/ r = 12 \/ r = 13 \/ r = 14 \/ r = 15.
Proof. lia. Qed.

Lemma uuid_digit_class c r :
  0 <= r < 16 -> (ascii_eqb c "x" || ascii_eqb c "y") = true ->
  exists d, uuid_digit c r = [d] /\ template_class c d = true.
Proof.
  intros Hr Hc. unfold uuid_digit, template_class.
  destruct (ascii_eqb c "x") eqn:Hx.
  - apply sixteen in Hr.
    repeat (destruct Hr as [->|Hr]; [eexists; split; vm_compute; reflexivity|]).
    subst r. eexists; split; vm_compute; reflexivity.
  - cbn [orb] in Hc. rewrite Hc. apply sixteen in Hr.
    repeat (destruct Hr as [->|Hr]; [eexists; split; vm_compute; reflexivity|]).
    subst r. eexists; split; vm_compute; reflexivity.
Qed.

Lemma fill_has_shape random :
  (forall i, 0 <= random i < 16) ->
  forall tpl i, has_shape (map template_class tpl) (fill tpl random i) = true.
Proof.
  intros Hrandom. induction tpl as [|c tl IH]; intros i; [reflexivity|].
  cbn [fill map]. destruct (ascii_eqb c "x" || ascii_eqb c "y") eqn:Hc.
  - destruct (uuid_digit_class c (random i) (Hrandom i) Hc) as (d & -> & Hd).
    cbn [app has_shape]. rewrite Hd, IH. reflexivity.
  - cbn [has_shape]. rewrite IH, andb_true_r. unfold template_class.
    apply orb_false_iff in Hc as [-> ->]. apply ascii_eqb_true. reflexivity.
Qed.

(** Whatever the random numbers are, [generateUUID] returns a well-formed
    version 4 UUID in lower case: 36 characters, hyphens after the groups of
    8, 4, 4 and 4 hexadecimal digits, [4] as the version digit and one of
    [8 9 a b] as the variant digit. *)
Theorem generateUUID_well_formed random :
  (forall i, 0 <= random i < 16) ->
  has_shape UUID_V4 (chars (generateUUID random)) = true
  /\ length (chars (generateUUID random)) = 36%nat.
Proof.
  intros Hrandom.
  assert (Hshape : has_shape UUID_V4 (chars (generateUUID random)) = true).
  { unfold generateUUID. rewrite chars_of_chars.
    exact (fill_has_shape random Hrandom (chars UUID_TEMPLATE) O). }
  split; [exact Hshape|].
  revert Hshape. generalize (chars (generateUUID random)). intros l.
  unfold UUID_V4. cbn [repeat app].
  do 36 (destruct l as [|? l]; [cbn [has_shape]; rewrite ?andb_false_r; discriminate|];
         cbn [has_shape]).
  destruct l; [reflexivity|]. rewrite ?andb_false_r. discriminate.
Qed.

Lemma generateUUID_well_formed_witness :
  has_shape UUID_V4 (chars (generateUUID (fun i => Z.of_nat i mod 16))) = true
  /\ generateUUID (fun i => Z.of_nat i mod 16) = "01234567-89ab-4cde-b012-3456789abcde".
Proof.
  split.
  - apply (generateUUID_well_formed (fun i => Z.of_nat i mod 16)).
    intros i. apply Z.mod_pos_bound. reflexivity.
  - vm_compute. reflexivity.
Defined.

(** *** Creating a sandbox *)

Definition initial_paths (input : CreateSandboxInput) : list string :=
  match input_initial_files input with
  | Some entries => map fst entries
  | None => []
  end.

Lemma createSandbox_outcome input userId random now_iso startTime endTime m :
  let parameters :=
    [("project_name", JString (input_project_name input));
     ("template", JString (input_template input))] in
  let id := generateUUID random in
  createSandbox input userId random now_iso startTime endTime m
  = match find (fun filePath => negb (validateFilePath filePath)) (initial_paths input) with
    | Some filePath =>
        (Throw (path_error filePath),
         mkManager (sandboxes m)
           (audit m ++
            [mkAuditCall userId "create_sandbox" parameters AuditLogger.failure
               (endTime - startTime)
               (Some (sanitizeErrorMessage (message (path_error filePath)))) None]))
    | None =>
        (Ok (id, PREVIEW_PREFIX +:+ id),
         mkManager
           (<[id := mkSandboxData id (input_project_name input) (input_template input)
                      now_iso (PREVIEW_PREFIX +:+ id) running
                      (stored_files (input_initial_files input)) [] []]> (sandboxes m))
           (audit m ++
            [mkAuditCall userId "create_sandbox" parameters AuditLogger.success
               (endTime - startTime) None (Some id)]))
    end.
Proof.
  intros parameters id. subst parameters id. unfold createSandbox, initial_paths.
  destruct (input_initial_files input) as [entries|]; [|reflexivity].
  rewrite assert_each_first_invalid. destruct (find _ _); reflexivity.
Qed.

(** [createSandbox] validates every initial path before it stores
    anything. With an invalid path it throws the path error of the first
    one, in the order of the keys, and the stored sandboxes stay as they
    were. Otherwise it returns the generated identifier with the preview URL
    made from it and stores, under that identifier, a running sandbox that
    holds the initial files and no output; a sandbox stored earlier under
    another identifier is untouched. *)
Theorem createSandbox_validates_then_stores input userId random now_iso
  startTime endTime m :
  let outcome := createSandbox input userId random now_iso startTime endTime m in
  let id := generateUUID random in
  match find (fun filePath => negb (validateFilePath filePath)) (initial_paths input) with
  | Some filePath =>
      fst outcome = Throw (path_error filePath)
      /\ sandboxes (snd outcome) = sandboxes m
  | None =>
      fst outcome = Ok (id, "https://codesandbox.io/p/sandbox/" +:+ id)
      /\ sandboxes (snd outcome) !! id
         = Some (mkSandboxData id (input_project_name input) (input_template input)
                   now_iso ("https://codesandbox.io/p/sandbox/" +:+ id) running
                   (stored_files (input_initial_files input)) [] [])
      /\ forall other, other <> id ->
                       sandboxes (snd outcome) !! other = sandboxes m !! other
  end.
Proof.
  intros outcome id. subst outcome id. unfold createSandbox, initial_paths.
  destruct (input_initial_files input) as [entries|].
  - rewrite assert_each_first_invalid.
    destruct (find _ (map fst entries)); cbn [fst snd sandboxes].
    + split; reflexivity.
    + split; [reflexivity|]. split; [apply lookup_insert_eq|].
      intros other Hne. apply lookup_insert_ne. congruence.
  - cbn [find fst snd sandboxes].
    split; [reflexivity|]. split; [apply lookup_insert_eq|].
    intros other Hne. apply lookup_insert_ne. congruence.
Qed.

(** *** Histories of operations *)

Inductive Operation : Type :=
| CreateSandbox (input : CreateSandboxInput) (userId : string) (random : nat -> Z)
    (now_iso : string) (startTime endTime : Z)
| WriteFiles (sandboxId : string) (entries : list (string * string)) (userId : string)
    (startTime endTime : Z)
| GetSandboxOutput (sandboxId : string) (outputType : OutputType) (userId : string)
    (startTime endTime : Z).

(** The manager after an operation, whether it returned or threw. *)
Definition apply_operation (m : Manager) (op : Operation) : Manager :=
  match op with
  | CreateSandbox input userId random now_iso startTime endTime =>
      snd (createSandbox input userId random now_iso startTime endTime m)
  | WriteFiles sandboxId entries userId startTime endTime =>
      snd (writeFiles sandboxId entries userId startTime endTime m)
  | GetSandboxOutput sandboxId outputType userId startTime endTime =>
      snd (getSandboxOutput sandboxId outputType userId startTime endTime m)
  end.

Definition run (history : list Operation) (m : Manager) : Manager :=
  fold_left apply_operation history m.

Lemma run_snoc history op m :
  run (history ++ [op]) m = apply_operation (run history m) op.
Proof. unfold run. rewrite fold_left_app. reflexivity. Qed.

Lemma apply_operation_audit m op :
  length (audit (apply_operation m op)) = S (length (audit m)).
Proof.
  destruct op as [input userId random now_iso t0 t1|sandboxId entries userId t0 t1
                 |sandboxId outputType userId t0 t1]; cbn [apply_operation].
  - unfold createSandbox.
    destruct (match input_initial_files input with
              | Some entries => assert_each (map fst entries)
              | None => Ok tt
              end); cbn [snd audit]; rewrite length_app; simpl; lia.
  - unfold writeFiles.
    destruct (writeFiles_body sandboxId entries (sandboxes m));
      cbn [snd audit]; rewrite length_app; simpl; lia.
  - unfold getSandboxOutput.
    destruct (sandboxes m !! sandboxId);
      cbn [snd audit]; rewrite length_app; simpl; lia.
Qed.

(** Every operation of the manager makes exactly one call to the audit
    logger, whether it returns or throws, and none of the earlier calls is
    lost or changed. *)
Theorem every_operation_audited_once history m :
  length (audit (run history m)) = (length (audit m) + length history)%nat
  /\ exists calls, audit (run history m) = audit m ++ calls.
Proof.
  induction history as [|op history IH] using rev_ind.
  - split; [simpl; lia|]. exists []. simpl. rewrite app_nil_r. reflexivity.
  - rewrite run_snoc. destruct IH as [IHlen [calls IHcalls]]. split.
    + rewrite apply_operation_audit, IHlen, length_app. simpl. lia.
    + set (m' := run history m) in *.
      assert (Hone : exists call, audit (apply_operation m' op) = audit m' ++ [call]).
      { destruct op as [input userId random now_iso t0 t1|sandboxId entries userId t0 t1
                       |sandboxId outputType userId t0 t1]; cbn [apply_operation].
        - unfold createSandbox.
          destruct (match input_initial_files input with
                    | Some entries => assert_each (map fst entries)
                    | None => Ok tt
                    end); cbn [snd audit]; eexists; reflexivity.
        - unfold writeFiles.
          destruct (writeFiles_body sandboxId entries (sandboxes m'));
            cbn [snd audit]; eexists; reflexivity.
        - unfold getSandboxOutput.
          destruct (sandboxes m' !! sandboxId); cbn [snd audit]; eexists; reflexivity. }
      destruct Hone as [call ->]. exists (calls ++ [call]).
      rewrite IHcalls, app_assoc. reflexivity.
Qed.

(** What holds of every sandbox the manager stores. *)
Definition as_created (id : string) (sandbox : SandboxData) : Prop :=
  sandbox_id sandbox = id
  /\ preview_url sandbox = "https://codesandbox.io/p/sandbox/" +:+ id
  /\ status sandbox = running
  /\ console_logs sandbox = []
  /\ build_output sandbox = [].

Definition all_as_created (m : Manager) : Prop :=
  forall id sandbox, sandboxes m !! id = Some sandbox -> as_created id sandbox.

Lemma apply_operation_as_created m op :
  all_as_created m -> all_as_created (apply_operation m op).
Proof.
  intros Hm id sandbox.
  destruct op as [input userId random now_iso t0 t1|sandboxId entries userId t0 t1
                 |sandboxId outputType userId t0 t1]; cbn [apply_operation].
  - unfold createSandbox.
    destruct (match input_initial_files input with
              | Some entries => assert_each (map fst entries)
              | None => Ok tt
              end); cbn [snd sandboxes]; [|apply Hm].
    destruct (decide (id = generateUUID random)) as [->|Hne].
    + rewrite lookup_insert_eq. intros H. injection H as <-. repeat split.
    + rewrite lookup_insert_ne by congruence. apply Hm.
  - unfold writeFiles, writeFiles_body.
    destruct (sandboxes m !! sandboxId) as [old|] eqn:Hold; cbn [snd sandboxes];
      [|apply Hm].
    destruct (assert_each (map fst entries)); cbn [snd sandboxes]; [|apply Hm].
    destruct (totalSize entries >? maxSize); cbn [snd sandboxes]; [apply Hm|].
    destruct (decide (id = sandboxId)) as [->|Hne].
    + rewrite lookup_insert_eq. intros H. injection H as <-.
      exact (Hm sandboxId old Hold).
    + rewrite lookup_insert_ne by congruence. apply Hm.
  - unfold getSandboxOutput.
    destruct (sandboxes m !! sandboxId); cbn [snd sandboxes]; apply Hm.
Qed.

Lemma sanitizeOutput_empty : sanitizeOutput "" = "".
Proof. vm_compute. reflexivity. Qed.

(** What [getSandboxOutput] can return. In every state the manager reaches
    from the empty one by its own operations, the preview URL of a stored
    sandbox is the fixed prefix followed by the identifier it is stored
    under, and its console log and its build output are the empty string: no
    operation of the manager ever adds a line to them. For an identifier
    that is not stored the call throws the not-found error. *)
Theorem getSandboxOutput_of_reachable history sandboxId outputType userId
  startTime endTime :
  fst (getSandboxOutput sandboxId outputType userId startTime endTime
         (run history empty_manager))
  = match sandboxes (run history empty_manager) !! sandboxId with
    | None => Throw (not_found sandboxId)
    | Some _ =>
        match outputType with
        | type_preview_url => Ok ("https://codesandbox.io/p/sandbox/" +:+ sandboxId)
        | type_console_log | type_build_output => Ok ""
        end
    end.
Proof.
  assert (Hall : all_as_created (run history empty_manager)).
  { induction history as [|op history IH] using rev_ind.
    - intros id sandbox H. simpl in H. rewrite lookup_empty in H. discriminate H.
    - rewrite run_snoc. apply apply_operation_as_created. exact IH. }
  unfold getSandboxOutput.
  destruct (sandboxes (run history empty_manager) !! sandboxId) as [sandbox|] eqn:Hs;
    cbn [fst]; [|reflexivity].
  destruct (Hall sandboxId sandbox Hs) as (_ & Hurl & _ & Hlogs & Hbuild).
  destruct outputType; rewrite ?Hurl, ?Hlogs, ?Hbuild;
    cbn [join_lines String.concat]; rewrite ?sanitizeOutput_empty; reflexivity.
Qed.

(** *** What [sanitizeOutput] leaves alone *)

Lemma assignment_needs_word w rest_of_word p s :
  led_by ci_eqb (chars w) s = false ->
  match_at (assignment_of (Seq (lit_ci w) rest_of_word)) p s = None
  /\ match_at (assignment_of (lit_ci w)) p s = None.
Proof.
  intros Hno. unfold match_at, assignment_of, lit_ci. split.
  - destruct (matches _ _ _) as [res|] eqn:H; [|reflexivity].
    cbn [matches] in H. apply lit_chars_led in H. cbn [rest] in H. congruence.
  - destruct (matches _ _ _) as [res|] eqn:H; [|reflexivity].
    cbn [matches] in H. apply lit_chars_led in H. cbn [rest] in H. congruence.
Qed.

Lemma replace_keeps_without_word r tpl w output :
  (forall p s, led_by ci_eqb (chars w) s = false -> match_at r p s = None) ->
  forallb is_lower (chars w) = true ->
  includes (toLowerCase output) w = false ->
  replace_all r tpl output = output.
Proof.
  intros Hneeds Hw Hno. apply replace_all_no_match.
  apply (search_nowhere r (led_by ci_eqb (chars w)) Hneeds).
  apply (not_included_nowhere (chars w) (chars output) Hw).
  unfold includes, toLowerCase in Hno. rewrite chars_of_chars in Hno. exact Hno.
Qed.

(** Output that names none of the four words is not rewritten. If the
    text, in lower case, includes none of [token], [api], [secret] and
    [password], [sanitizeOutput] returns it unchanged when it has at most
    51200 characters, and otherwise its first 51200 characters followed by
    the truncation notice. *)
Theorem sanitizeOutput_keeps_clean_text output :
  includes (toLowerCase output) "token" = false ->
  includes (toLowerCase output) "api" = false ->
  includes (toLowerCase output) "secret" = false ->
  includes (toLowerCase output) "password" = false ->
  sanitizeOutput output
  = if Z.of_nat (length (chars output)) >? 51200
    then of_chars (take (Z.to_nat 51200) (chars output))
         +:+ newline +:+ newline +:+ "[Output truncated to 50KB]"
    else output.
Proof.
  intros Htoken Hapi Hsecret Hpassword. unfold sanitizeOutput.
  rewrite (replace_keeps_without_word re_token _ "token" output);
    [|intros p s H; apply (assignment_needs_word "token" Eps p s H)
     |reflexivity|exact Htoken].
  rewrite (replace_keeps_without_word re_api_key _ "api" output);
    [|intros p s H; apply (assignment_needs_word "api" _ p s H)
     |reflexivity|exact Hapi].
  rewrite (replace_keeps_without_word re_secret _ "secret" output);
    [|intros p s H; apply (assignment_needs_word "secret" Eps p s H)
     |reflexivity|exact Hsecret].
  rewrite (replace_keeps_without_word re_password _ "password" output);
    [|intros p s H; apply (assignment_needs_word "password" Eps p s H)
     |reflexivity|exact Hpassword].
  reflexivity.
Qed.

Lemma sanitizeOutput_keeps_clean_text_witness :
  sanitizeOutput "Compiled successfully in 1.2s: 3 modules, 0 warnings"
  = "Compiled successfully in 1.2s: 3 modules, 0 warnings".
Proof.
  apply (sanitizeOutput_keeps_clean_text
           "Compiled successfully in 1.2s: 3 modules, 0 warnings");
    vm_compute; reflexivity.
Defined.

(** The expectations on redaction: each of the four assignments is
    replaced by the word and the marker, in any case of the letters. *)
Lemma sanitizeOutput_examples :
  sanitizeOutput "GET /x TOKEN: abc-123_x done" = "GET /x token=[REDACTED] done"
  /\ sanitizeOutput "api-key=K1 apikey:K2 api_key K3"
     = "api_key=[REDACTED] api_key=[REDACTED] api_key=[REDACTED]"
  /\ sanitizeOutput "Secret=s3 password:   p4!" = "secret=[REDACTED] password=[REDACTED]!".
Proof. repeat split; vm_compute; reflexivity. Qed.

(** *** What [sanitizeOutput] removes *)

(** Reading an assignment from its first character: in the word, with the
    letters still to come; in the separators; at the value; or stopped at
    a character that does not fit. *)
Inductive reading : Type :=
| In_word (to_come : list ascii)
| In_separators
| In_value
| Halted.

Definition read_one (q : reading) (c : ascii) : reading :=
  match q with
  | In_word (a :: to_come) => if ci_eqb a c then In_word to_come else Halted
  | In_word [] => if separator_char c then In_separators else Halted
  | In_separators =>
      if separator_char c then In_separators
      else if name_char c then In_value else Halted
  | In_value => In_value
  | Halted => Halted
  end.

Fixpoint read_from (q : reading) (s : list ascii) : reading :=
  match s with
  | [] => q
  | c :: s' => read_from (read_one q c) s'
  end.

Definition at_value (q : reading) : bool :=
  match q with In_value => true | _ => false end.

Definition halted (q : reading) : bool :=
  match q with Halted => true | _ => false end.

(** The text starts with the word in any case of its letters, one or more
    separators and the first character of a value: the place where
    [/word[=:\s]+[a-zA-Z0-9_-]+/i] matches. *)
Definition assigns (w : string) (s : list ascii) : bool :=
  at_value (read_from (In_word (chars w)) s).

Definition assigns_api_key (s : list ascii) : bool :=
  assigns "api_key" s || assigns "api-key" s || assigns "apikey" s.

Definition letter_led (s : list ascii) : bool :=
  match s with c :: _ => is_alpha c | [] => false end.

(** The words the four expressions look for, and what they put in place
    of a match. *)
Definition keywords : list string :=
  ["token"; "api_key"; "api-key"; "apikey"; "secret"; "password"].

Definition replacements : list string :=
  ["token=[REDACTED]"; "api_key=[REDACTED]"; "secret=[REDACTED]";
   "password=[REDACTED]"].

Fixpoint tails (l : list ascii) : list (list ascii) :=
  l :: match l with
       | [] => []
       | _ :: tl => tails tl
       end.

(** From every point of the word, reading [t] stops. *)
Definition stops_in (w t : list ascii) : bool :=
  forallb (fun to_come => halted (read_from (In_word to_come) t)) (tails w).

(** Started anywhere in [t], the reading of the word stops within [t]. *)
Definition no_start_in (w t : list ascii) : bool :=
  forallb (fun t' => match t' with
                     | [] => true
                     | _ :: _ => halted (read_from (In_word w) t')
                     end) (tails t).

Lemma read_from_app : forall x y q, read_from q (x ++ y) = read_from (read_from q x) y.
Proof. induction x as [|c x IH]; intros y q; [reflexivity|]. cbn [app read_from]. apply IH. Qed.

Lemma read_from_stopped s : read_from Halted s = Halted.
Proof. induction s as [|c s IH]; [reflexivity|exact IH]. Qed.

Lemma read_from_value s : read_from In_value s = In_value.
Proof. induction s as [|c s IH]; [reflexivity|exact IH]. Qed.

Lemma halted_inv q : halted q = true -> q = Halted.
Proof. destruct q; intros H; try discriminate H. reflexivity. Qed.

Lemma read_separators s :
  at_value (read_from In_separators s) = after_run separator_char name_char s.
Proof.
  induction s as [|c s IH]; [reflexivity|]. cbn [read_from read_one after_run].
  destruct (separator_char c); [exact IH|].
  destruct (name_char c); [rewrite read_from_value|rewrite read_from_stopped];
    reflexivity.
Qed.

Lemma assigns_led : forall w s,
  at_value (read_from (In_word w) s)
  = led_by ci_eqb w s && run_then separator_char name_char (drop (length w) s).
Proof.
  induction w as [|a w IH]; intros [|c s]; cbn [read_from read_one led_by length drop];
    try reflexivity.
  - cbn [run_then andb]. destruct (separator_char c); cbn [andb].
    + apply read_separators.
    + rewrite read_from_stopped. reflexivity.
  - destruct (ci_eqb a c); cbn [andb]; [apply IH|].
    rewrite read_from_stopped. reflexivity.
Qed.

Lemma read_word_app : forall w1 w2 s,
  at_value (read_from (In_word (w1 ++ w2)) s)
  = led_by ci_eqb w1 s && at_value (read_from (In_word w2) (drop (length w1) s)).
Proof.
  induction w1 as [|a w1 IH]; intros w2 s; [reflexivity|].
  destruct s as [|c s]; cbn [app read_from read_one led_by length drop];
    [reflexivity|].
  destruct (ci_eqb a c); cbn [andb]; [apply IH|].
  rewrite read_from_stopped. reflexivity.
Qed.

(** **** The expressions and the readings agree *)

Lemma separator_not_name c : separator_char c = true -> name_char c = false.
Proof.
  assert (Hall : forallb (fun c => implb (separator_char c) (negb (name_char c)))
                   all_ascii = true) by (vm_compute; reflexivity).
  intros Hc. pose proof (proj1 (forallb_forall _ _) Hall c (in_all_ascii c)) as H.
  cbv beta in H. rewrite Hc in H. cbn [implb] in H.
  destruct (name_char c); [discriminate H|reflexivity].
Qed.

Lemma letter_reads c :
  is_alpha c = true -> separator_char c = false /\ name_char c = true.
Proof.
  assert (Hall : forallb (fun c => implb (is_alpha c)
                                     (negb (separator_char c) && name_char c))
                   all_ascii = true) by (vm_compute; reflexivity).
  intros Hc. pose proof (proj1 (forallb_forall _ _) Hall c (in_all_ascii c)) as H.
  cbv beta in H. rewrite Hc in H. cbn [implb] in H.
  apply andb_true_iff in H as [Hs Hn]. apply negb_true_iff in Hs. split; assumption.
Qed.

Lemma ci_eqb_letter a c : is_alpha a = true -> ci_eqb a c = true -> is_alpha c = true.
Proof.
  intros Ha H. unfold ci_eqb in H. apply orb_true_iff in H as [H|H].
  - apply ascii_eqb_true in H. subst c. exact Ha.
  - apply andb_true_iff in H as [H _]. apply andb_true_iff in H as [_ H]. exact H.
Qed.

Lemma ci_eqb_sign a c :
  is_alpha a = false -> ci_eqb a c = ascii_eqb c a.
Proof.
  intros Ha. unfold ci_eqb. rewrite Ha. cbn [andb]. rewrite orb_false_r.
  destruct (ascii_eqb a c) eqn:H1, (ascii_eqb c a) eqn:H2; try reflexivity.
  - apply ascii_eqb_true in H1. subst c.
    assert (H : ascii_eqb a a = true) by (apply ascii_eqb_true; reflexivity).
    congruence.
  - apply ascii_eqb_true in H2. subst c.
    assert (H : ascii_eqb a a = true) by (apply ascii_eqb_true; reflexivity).
    congruence.
Qed.

Lemma tail_succeeds st :
  succeeds (matches (Seq (Rep 1 (Chr separator_char)) (Rep 1 (Chr name_char))) st Some)
  = run_then separator_char name_char (rest st).
Proof.
  rewrite matches_seq, matches_rep_chr. destruct st as [pv l cp]. cbn [rest].
  rewrite (rep_then_class separator_char name_char _ separator_not_name
             (fun st => rep_one_succeeds name_char st)) by lia.
  reflexivity.
Qed.

Lemma tail_advances :
  advances (fun st =>
    matches (Seq (Rep 1 (Chr separator_char)) (Rep 1 (Chr name_char))) st Some).
Proof.
  apply advances_seq, advances_rep_chr.
  apply (advances_rep_chr name_char 1 Some advances_some).
Qed.

Lemma word_then_tail w st :
  succeeds (matches (lit_chars ci_eqb w) st (fun st1 =>
              matches (Seq (Rep 1 (Chr separator_char)) (Rep 1 (Chr name_char)))
                st1 Some))
  = at_value (read_from (In_word w) (rest st)).
Proof.
  rewrite lit_chars_matches, assigns_led.
  destruct (led_by ci_eqb w (rest st)); [|reflexivity]. cbn [andb].
  rewrite tail_succeeds, consume_rest. reflexivity.
Qed.

(** An expression of a literal word matches exactly where the text assigns
    the word, and its matches are never empty. *)
Lemma literal_starts w p s :
  succeeds (match_at (assignment_of (lit_ci w)) p s) = assigns w s.
Proof.
  unfold match_at, assignment_of, lit_ci, assigns. rewrite matches_seq.
  apply (word_then_tail (chars w) (MState p s None)).
Qed.

Lemma literal_consumes w p s st :
  chars w <> [] ->
  match_at (assignment_of (lit_ci w)) p s = Some st ->
  exists m, m <> [] /\ s = m ++ rest st.
Proof.
  unfold match_at, assignment_of, lit_ci. intros Hw H. rewrite matches_seq in H.
  destruct (chars w) as [|a w'] eqn:Hchars; [contradiction Hw; reflexivity|].
  apply (lit_chars_consumes _ a w' _ _ _ tail_advances) in H. exact H.
Qed.

Lemma read_word_step a w c tl :
  read_from (In_word (a :: w)) (c :: tl)
  = if ci_eqb a c then read_from (In_word w) tl else Halted.
Proof.
  cbn [read_from read_one]. destruct (ci_eqb a c); [reflexivity|].
  apply read_from_stopped.
Qed.

(** [api[_-]?key]: the three spellings. *)
Lemma optional_sign w st :
  succeeds (matches (Seq (Opt (Chr (fun c => ascii_eqb c "_" || ascii_eqb c "-")))
                       (lit_chars ci_eqb w)) st
              (fun st1 => matches (Seq (Rep 1 (Chr separator_char))
                                     (Rep 1 (Chr name_char))) st1 Some))
  = at_value (read_from (In_word ("_"%char :: w)) (rest st))
    || at_value (read_from (In_word ("-"%char :: w)) (rest st))
    || at_value (read_from (In_word w) (rest st)).
Proof.
  rewrite matches_seq, matches_opt_chr.
  destruct st as [pv [|c tl] cp]; cbn [rest cap].
  - rewrite word_then_tail. reflexivity.
  - rewrite !read_word_step.
    rewrite (ci_eqb_sign "_" c eq_refl), (ci_eqb_sign "-" c eq_refl).
    destruct (ascii_eqb c "_"), (ascii_eqb c "-"); cbn [orb];
      rewrite ?succeeds_or_else, !word_then_tail;
      cbn [rest at_value orb];
      destruct (at_value (read_from (In_word w) tl));
      destruct (at_value (read_from (In_word w) (c :: tl))); reflexivity.
Qed.

Lemma api_key_starts p s : succeeds (match_at re_api_key p s) = assigns_api_key s.
Proof.
  unfold match_at, re_api_key, assignment_of, lit_ci, assigns_api_key, assigns.
  rewrite matches_seq. rewrite matches_seq. rewrite lit_chars_matches. cbn [rest].
  change (chars "api_key") with (chars "api" ++ "_"%char :: chars "key").
  change (chars "api-key") with (chars "api" ++ "-"%char :: chars "key").
  change (chars "apikey") with (chars "api" ++ chars "key").
  rewrite !read_word_app.
  destruct (led_by ci_eqb (chars "api") s); [|reflexivity]. cbn [andb].
  rewrite optional_sign, consume_rest. reflexivity.
Qed.

Lemma api_key_consumes p s st :
  match_at re_api_key p s = Some st -> exists m, m <> [] /\ s = m ++ rest st.
Proof.
  unfold match_at, re_api_key, assignment_of, lit_ci. intros H.
  rewrite matches_seq in H. rewrite matches_seq in H.
  change (chars "api") with ("a"%char :: chars "pi") in H.
  apply lit_chars_consumes in H; [exact H|].
  apply advances_seq, advances_opt_chr, advances_lit, tail_advances.
Qed.

(** A match of any of the four expressions starts with a letter. *)
Lemma assigns_letter_led w y :
  match chars w with a :: _ => is_alpha a | [] => false end = true ->
  assigns w y = true -> letter_led y = true.
Proof.
  unfold assigns. destruct (chars w) as [|a w']; [discriminate|]. intros Ha H.
  destruct y as [|d y]; [discriminate H|]. cbn [read_from read_one] in H.
  destruct (ci_eqb a d) eqn:Had.
  - exact (ci_eqb_letter a d Ha Had).
  - rewrite read_from_stopped in H. discriminate H.
Qed.

(** **** Where a reading can be *)

Lemma in_tails : forall pre post, In post (tails (pre ++ post)).
Proof.
  induction pre as [|c pre IH]; intros post.
  - destruct post; left; reflexivity.
  - right. apply IH.
Qed.

Lemma read_separators_cases x :
  read_from In_separators x = Halted
  \/ read_from In_separators x = In_value
  \/ read_from In_separators x = In_separators.
Proof.
  induction x as [|c x IH]; [right; right; reflexivity|].
  cbn [read_from read_one]. destruct (separator_char c); [exact IH|].
  destruct (name_char c).
  - right. left. apply read_from_value.
  - left. apply read_from_stopped.
Qed.

Lemma read_word_cases : forall x w,
  read_from (In_word w) x = Halted
  \/ read_from (In_word w) x = In_value
  \/ read_from (In_word w) x = In_separators
  \/ exists to_come, read_from (In_word w) x = In_word to_come /\ In to_come (tails w).
Proof.
  induction x as [|c x IH]; intros w.
  - right. right. right. exists w. split; [reflexivity|].
    destruct w; left; reflexivity.
  - cbn [read_from read_one]. destruct w as [|a w].
    + destruct (separator_char c).
      * destruct (read_separators_cases x) as [H|[H|H]]; rewrite H; tauto.
      * left. apply read_from_stopped.
    + destruct (ci_eqb a c).
      * destruct (IH w) as [H|[H|[H|(to_come & H & Hin)]]]; rewrite H; try tauto.
        right. right. right. exists to_come. split; [reflexivity|].
        right. exact Hin.
      * left. apply read_from_stopped.
Qed.

(** **** Replacing creates no assignment *)

Lemma splice_stops w t x y o :
  stops_in w t = true ->
  letter_led y = true ->
  at_value (read_from (In_word w) (x ++ y)) = false ->
  at_value (read_from (In_word w) (x ++ t ++ o)) = false.
Proof.
  intros Hstops Hy Hxy. rewrite read_from_app in Hxy. rewrite read_from_app.
  destruct (read_word_cases x w) as [H|[H|[H|(to_come & H & Hin)]]];
    rewrite H in *.
  - rewrite read_from_stopped. reflexivity.
  - rewrite read_from_value in Hxy. discriminate Hxy.
  - destruct y as [|d y]; [discriminate Hy|]. cbn [letter_led] in Hy.
    destruct (letter_reads d Hy) as [Hs Hn].
    cbn [read_from read_one] in Hxy. rewrite Hs, Hn, read_from_value in Hxy.
    discriminate Hxy.
  - pose proof (proj1 (forallb_forall _ _) Hstops to_come Hin) as Hstop.
    apply halted_inv in Hstop.
    rewrite read_from_app, Hstop, read_from_stopped. reflexivity.
Qed.

Lemma inside_stops w t t1 t2 o :
  no_start_in w t = true ->
  t = t1 ++ t2 -> t2 <> [] ->
  at_value (read_from (In_word w) (t2 ++ o)) = false.
Proof.
  intros Hno -> Hne.
  pose proof (proj1 (forallb_forall _ _) Hno t2 (in_tails t1 t2)) as Hstop.
  destruct t2 as [|c t2]; [contradiction Hne; reflexivity|].
  apply halted_inv in Hstop.
  rewrite read_from_app, Hstop, read_from_stopped. reflexivity.
Qed.

Lemma replacements_checked :
  forallb (fun w => forallb (fun t => stops_in (chars w) (chars t)
                                      && no_start_in (chars w) (chars t))
                      replacements) keywords = true.
Proof. vm_compute. reflexivity. Qed.

(** One replacement pass. An expression whose matches start with a letter
    and are never empty, replaced by one of the four replacement texts,
    leaves no assignment of a word that the text either did not have or
    had only where the expression matches. *)
Lemma pass_clears r starts w t s :
  (forall p l, succeeds (match_at r p l) = starts l) ->
  (forall p l st, match_at r p l = Some st -> exists m, m <> [] /\ l = m ++ rest st) ->
  (forall y, starts y = true -> letter_led y = true) ->
  In w keywords -> In t replacements ->
  (forall pre post, chars s = pre ++ post -> assigns w post = true -> starts post = true) ->
  free_of (assigns w) (chars (replace_all r [Text t] s)).
Proof.
  intros Hspec Hcons Hletter Hw Ht Hcovered.
  pose proof (proj1 (forallb_forall _ _) replacements_checked w Hw) as Hrow.
  pose proof (proj1 (forallb_forall _ _) Hrow t Ht) as Hcell.
  cbv beta in Hcell. apply andb_true_iff in Hcell as [Hstops Hno].
  unfold replace_all. rewrite chars_of_chars.
  apply (replace_clears r starts Hspec Hcons t (assigns w)).
  - intros x y o Hy Hxy. apply (splice_stops _ _ x y o Hstops (Hletter y Hy) Hxy).
  - intros t1 t2 o Heq Hne. apply (inside_stops _ _ t1 t2 o Hno Heq Hne).
  - lia.
  - exact Hcovered.
Qed.

Lemma covered_of_free (held starts : list ascii -> bool) s :
  free_of held s ->
  forall pre post, s = pre ++ post -> held post = true -> starts post = true.
Proof. intros Hfree pre post Hsplit Hheld. rewrite (Hfree pre post Hsplit) in Hheld. discriminate Hheld. Qed.

Lemma keyword_letter_led w y :
  In w keywords -> assigns w y = true -> letter_led y = true.
Proof.
  intros Hw. apply assigns_letter_led.
  cbn [keywords In] in Hw.
  repeat (destruct Hw as [<-|Hw]; [reflexivity|]). contradiction Hw.
Qed.

Lemma token_pass w s :
  In w keywords ->
  (forall pre post, chars s = pre ++ post -> assigns w post = true ->
     assigns "token" post = true) ->
  free_of (assigns w) (chars (replace_all re_token [Text "token=[REDACTED]"] s)).
Proof.
  intros Hw. apply (pass_clears re_token (assigns "token")).
  - apply literal_starts.
  - intros p l st. apply literal_consumes. discriminate.
  - intros y. apply keyword_letter_led. cbn [keywords In]. tauto.
  - exact Hw.
  - cbn [replacements In]. tauto.
Qed.

Lemma api_key_pass w s :
  In w keywords ->
  (forall pre post, chars s = pre ++ post -> assigns w post = true ->
     assigns_api_key post = true) ->
  free_of (assigns w) (chars (replace_all re_api_key [Text "api_key=[REDACTED]"] s)).
Proof.
  intros Hw. apply (pass_clears re_api_key assigns_api_key).
  - apply api_key_starts.
  - apply api_key_consumes.
  - intros y Hy. unfold assigns_api_key in Hy.
    apply orb_true_iff in Hy as [Hy|Hy]; [apply orb_true_iff in Hy as [Hy|Hy]|];
      revert Hy; apply keyword_letter_led; cbn [keywords In]; tauto.
  - exact Hw.
  - cbn [replacements In]. tauto.
Qed.

Lemma secret_pass w s :
  In w keywords ->
  (forall pre post, chars s = pre ++ post -> assigns w post = true ->
     assigns "secret" post = true) ->
  free_of (assigns w) (chars (replace_all re_secret [Text "secret=[REDACTED]"] s)).
Proof.
  intros Hw. apply (pass_clears re_secret (assigns "secret")).
  - apply literal_starts.
  - intros p l st. apply literal_consumes. discriminate.
  - intros y. apply keyword_letter_led. cbn [keywords In]. tauto.
  - exact Hw.
  - cbn [replacements In]. tauto.
Qed.

Lemma password_pass w s :
  In w keywords ->
  (forall pre post, chars s = pre ++ post -> assigns w post = true ->
     assigns "password" post = true) ->
  free_of (assigns w) (chars (replace_all re_password [Text "password=[REDACTED]"] s)).
Proof.
  intros Hw. apply (pass_clears re_password (assigns "password")).
  - apply literal_starts.
  - intros p l st. apply literal_consumes. discriminate.
  - intros y. apply keyword_letter_led. cbn [keywords In]. tauto.
  - exact Hw.
  - cbn [replacements In]. tauto.
Qed.

(** **** Truncating creates no assignment *)

Lemma notice_checked :
  forallb (fun w => stops_in (chars w) (chars OUTPUT_TRUNCATED)
                    && halted (read_from In_separators (chars OUTPUT_TRUNCATED))
                    && forallb (fun t' => negb (at_value (read_from (In_word (chars w)) t')))
                         (tails (chars OUTPUT_TRUNCATED)))
    keywords = true.
Proof. vm_compute. reflexivity. Qed.

Lemma truncation_clears w n s :
  In w keywords ->
  free_of (assigns w) s ->
  free_of (assigns w) (take n s ++ chars OUTPUT_TRUNCATED).
Proof.
  intros Hw Hfree pre post Hsplit.
  pose proof (proj1 (forallb_forall _ _) notice_checked w Hw) as Hcell.
  cbv beta in Hcell. apply andb_true_iff in Hcell as [Hcell Hno].
  apply andb_true_iff in Hcell as [Hstops Hsep]. apply halted_inv in Hsep.
  apply app_eq_app in Hsplit as [l [[Hb Hp]|[Hb Hp]]].
  - subst post. unfold assigns. rewrite read_from_app.
    assert (Hold : at_value (read_from (read_from (In_word (chars w)) l) (drop n s))
                   = false).
    { rewrite <- read_from_app. apply (Hfree pre (l ++ drop n s)).
      rewrite app_assoc, <- Hb, take_drop. reflexivity. }
    destruct (read_word_cases l (chars w)) as [H|[H|[H|(to_come & H & Hin)]]];
      rewrite H in *.
    + rewrite read_from_stopped. reflexivity.
    + rewrite read_from_value in Hold. discriminate Hold.
    + rewrite Hsep. reflexivity.
    + pose proof (proj1 (forallb_forall _ _) Hstops to_come Hin) as Hstop.
      apply halted_inv in Hstop. rewrite Hstop. reflexivity.
  - pose proof (proj1 (forallb_forall _ _) Hno post) as Hpost.
    cbv beta in Hpost. apply negb_true_iff. apply Hpost.
    rewrite Hp. apply in_tails.
Qed.

(** No assignment of any of the six spellings is left in what
    [sanitizeOutput] returns. *)
Lemma sanitizeOutput_free w output :
  In w keywords -> free_of (assigns w) (chars (sanitizeOutput output)).
Proof.
  intros Hw. unfold sanitizeOutput.
  assert (Hfour : free_of (assigns w)
            (chars (replace_all re_password [Text "password=[REDACTED]"]
               (replace_all re_secret [Text "secret=[REDACTED]"]
                  (replace_all re_api_key [Text "api_key=[REDACTED]"]
                     (replace_all re_token [Text "token=[REDACTED]"] output)))))).
  { pose proof Hw as Hcase. cbn [keywords In] in Hcase.
    destruct Hcase as [<-|[<-|[<-|[<-|[<-|[<-|[]]]]]]].
    - apply password_pass; [exact Hw|]. apply covered_of_free.
      apply secret_pass; [exact Hw|]. apply covered_of_free.
      apply api_key_pass; [exact Hw|]. apply covered_of_free.
      apply token_pass; [exact Hw|]. intros pre post _ H. exact H.
    - apply password_pass; [exact Hw|]. apply covered_of_free.
      apply secret_pass; [exact Hw|]. apply covered_of_free.
      apply api_key_pass; [exact Hw|]. intros pre post _ H.
      unfold assigns_api_key. rewrite H. reflexivity.
    - apply password_pass; [exact Hw|]. apply covered_of_free.
      apply secret_pass; [exact Hw|]. apply covered_of_free.
      apply api_key_pass; [exact Hw|]. intros pre post _ H.
      unfold assigns_api_key. rewrite H. apply orb_true_iff. left. apply orb_true_r.
    - apply password_pass; [exact Hw|]. apply covered_of_free.
      apply secret_pass; [exact Hw|]. apply covered_of_free.
      apply api_key_pass; [exact Hw|]. intros pre post _ H.
      unfold assigns_api_key. rewrite H. apply orb_true_r.
    - apply password_pass; [exact Hw|]. apply covered_of_free.
      apply secret_pass; [exact Hw|]. intros pre post _ H. exact H.
    - apply password_pass; [exact Hw|]. intros pre post _ H. exact H. }
  cbv zeta.
  destruct (Z.of_nat (length (chars _)) >? OUTPUT_MAX); [|exact Hfour].
  rewrite chars_append, chars_of_chars. apply truncation_clears; assumption.
Qed.

Lemma free_of_test r starts s :
  (forall p l, succeeds (match_at r p l) = starts l) ->
  free_of starts (chars s) -> test r s = false.
Proof.
  intros Hspec Hfree. unfold test.
  rewrite (proj2 (search_none_iff r starts Hspec (chars s) None) Hfree).
  reflexivity.
Qed.

(** [sanitizeOutput] redacts everything its four expressions look for:
    in the text it returns, none of [/token[=:\s]+[a-zA-Z0-9_-]+/i],
    [/api[_-]?key[=:\s]+[a-zA-Z0-9_-]+/i], [/secret[=:\s]+[a-zA-Z0-9_-]+/i]
    and [/password[=:\s]+[a-zA-Z0-9_-]+/i] matches anywhere. A later
    replacement does not bring back what an earlier one removed, and
    cutting the text at 51200 characters and adding the notice does not
    form a new match. *)
Theorem sanitizeOutput_leaves_no_assignment output :
  test re_token (sanitizeOutput output) = false
  /\ test re_api_key (sanitizeOutput output) = false
  /\ test re_secret (sanitizeOutput output) = false
  /\ test re_password (sanitizeOutput output) = false.
Proof.
  assert (Hfree : forall w, In w keywords ->
            free_of (assigns w) (chars (sanitizeOutput output)))
    by (intros w Hw; apply sanitizeOutput_free; exact Hw).
  repeat split.
  - apply (free_of_test re_token (assigns "token")); [apply literal_starts|].
    apply Hfree. cbn [keywords In]. tauto.
  - apply (free_of_test re_api_key assigns_api_key); [apply api_key_starts|].
    intros pre post Hsplit. unfold assigns_api_key.
    rewrite (Hfree "api_key" ltac:(cbn [keywords In]; tauto) pre post Hsplit).
    rewrite (Hfree "api-key" ltac:(cbn [keywords In]; tauto) pre post Hsplit).
    rewrite (Hfree "apikey" ltac:(cbn [keywords In]; tauto) pre post Hsplit).
    reflexivity.
  - apply (free_of_test re_secret (assigns "secret")); [apply literal_starts|].
    apply Hfree. cbn [keywords In]. tauto.
  - apply (free_of_test re_password (assigns "password")); [apply literal_starts|].
    apply Hfree. cbn [keywords In]. tauto.
Qed.

End SandboxManager.


(** ** middleware/validation.ts *)

Module Validation.
Import JsString ErrorHandler.

(** One issue of a [ZodError]: the path, its elements as they print, and
    the message. *)
Record ZodIssue : Type := mkZodIssue {
  path : list string;
  issue_message : string
}.

(** What [schema.parse] throws. *)
Inductive ParseFailure : Type :=
| ZodError (errors : list ZodIssue)
| OtherFailure.

(** [validateInput]; the schema is given by its [parse]. *)
Definition validateInput {I T : Type} (schema : I -> Result ParseFailure T) (input : I)
  : Result MCPError T :=
  match schema input with
  | Ok value => Ok value
  | Throw (ZodError errors) =>
      let errorMessages :=
        String.concat "; "
          (map (fun err => String.concat "." (path err) +:+ ": " +:+ issue_message err)
             errors) in
      Throw (mkMCPError VALIDATION_ERROR ("Validation failed: " +:+ errorMessages)
               400 false)
  | Throw OtherFailure =>
      Throw (mkMCPError VALIDATION_ERROR "Invalid input format" 400 false)
  end.

Lemma validateInput_error {I T : Type} (schema : I -> Result ParseFailure T) input e :
  validateInput schema input = Throw e ->
  code e = VALIDATION_ERROR /\ statusCode e = 400 /\ retryable e = false.
Proof.
  unfold validateInput. destruct (schema input) as [value|[errors|]];
    intros H; inversion H; repeat split.
Qed.

End Validation.


(** ** tools/sandbox-tools.ts: the tools over the limiter and the manager *)

Module SandboxTools.
Import JsString ErrorHandler RateLimiter SandboxManager Validation.

(** The module-level services of the tools: the rate limiter and the
    sandbox manager, whose record of audit calls stands for the one audit
    logger that the manager and the tools share. *)
Record Services : Type := mkServices {
  rateLimiter : Limits;
  sandboxManager : Manager
}.

(** [auditLogger.log(userId, toolName, params, 'rate_limited', executionTime, error.message)] *)
Definition log_rate_limited (userId toolName : string)
  (params : list (string * JsValue)) (executionTime : Z) (e : MCPError)
  (m : Manager) : Manager :=
  mkManager (sandboxes m)
    (audit m ++
     [mkAuditCall userId toolName params AuditLogger.rate_limited executionTime
        (Some (message e)) None]).

(** The [catch] block of a tool: the error is audited when its code is
    [RATE_LIMIT_EXCEEDED], and thrown again. *)
Definition on_error {A : Type} (userId toolName : string)
  (params : list (string * JsValue)) (startTime now : Z) (e : MCPError)
  (s : Services) : Result MCPError A * Services :=
  (Throw e,
   match code e with
   | RATE_LIMIT_EXCEEDED =>
       mkServices (rateLimiter s)
         (log_rate_limited userId toolName params (now - startTime) e (sandboxManager s))
   | _ => s
   end).

Section Tools.

(** [CreateSandboxInputSchema.parse], on the argument object of a call. *)
Variable CreateSandboxInputSchema
  : list (string * JsValue) -> Result ParseFailure CreateSandboxInput.

(** [create_sandbox_for_project]. [clock n] is what call number [n] of
    [Date.now()] returns during the call of the tool; [random] and
    [now_iso] are what the manager draws and reads. *)
Definition create_sandbox_for_project (params : list (string * JsValue))
  (userId : string) (clock : nat -> Z) (random : nat -> Z) (now_iso : string)
  (s : Services) : Result MCPError (string * string) * Services :=
  let startTime := clock 0%nat in
  let failed := on_error userId "create_sandbox_for_project" params startTime in
  match validateInput CreateSandboxInputSchema params with
  | Throw e => failed (clock 1%nat) e s
  | Ok input =>
      match checkLimit userId free api_call (clock 1%nat) (rateLimiter s) with
      | (Throw e, limits1) =>
          failed (clock 2%nat) e (mkServices limits1 (sandboxManager s))
      | (Ok _, limits1) =>
          match checkLimit userId free create_sandbox (clock 2%nat) limits1 with
          | (Throw e, limits2) =>
              failed (clock 3%nat) e (mkServices limits2 (sandboxManager s))
          | (Ok _, limits2) =>
              match createSandbox input userId random now_iso
                      (clock 3%nat) (clock 4%nat) (sandboxManager s) with
              | (Ok result, m) => (Ok result, mkServices limits2 m)
              | (Throw e, m) => failed (clock 5%nat) e (mkServices limits2 m)
              end
          end
      end
  end.

Lemma checkLimit_code userId tier operation now limits e :
  fst (checkLimit userId tier operation now limits) = Throw e ->
  code e = match operation with
           | api_call => RATE_LIMIT_EXCEEDED
           | create_sandbox => QUOTA_EXCEEDED
           end.
Proof.
  intros H. apply checkLimit_rejection in H. subst e. destruct operation; reflexivity.
Qed.

(** Which calls of [create_sandbox_for_project] leave a trace in the audit
    log. A call that returns is audited once, as a success, by the manager;
    a call refused for a forbidden path is audited once, as a failure, by the
    manager; a call refused by the limit of API calls per minute is audited
    once, as [rate_limited], by the tool, with the parameters of the call and
    the message of the error. A call refused by validation or by the hourly
    sandbox quota is not audited at all. The tool throws no other kind of
    error, and no earlier audit call is lost. *)
Theorem create_sandbox_for_project_audit params userId clock random now_iso s :
  let outcome := create_sandbox_for_project params userId clock random now_iso s in
  exists calls,
    audit (sandboxManager (snd outcome)) = audit (sandboxManager s) ++ calls
    /\ match fst outcome with
       | Ok _ => exists call, calls = [call] /\ audit_result call = AuditLogger.success
       | Throw e =>
           match code e with
           | VALIDATION_ERROR | QUOTA_EXCEEDED => calls = []
           | RATE_LIMIT_EXCEEDED =>
               calls = [mkAuditCall userId "create_sandbox_for_project" params
                          AuditLogger.rate_limited (clock 2%nat - clock 0%nat)
                          (Some (message e)) None]
           | PATH_TRAVERSAL =>
               exists call, calls = [call] /\ audit_result call = AuditLogger.failure
           | _ => False
           end
       end.
Proof.
  intros outcome. subst outcome. unfold create_sandbox_for_project.
  destruct (validateInput CreateSandboxInputSchema params) as [input|e] eqn:Hv.
  - destruct (checkLimit userId free api_call (clock 1%nat) (rateLimiter s))
      as [[ok1|e1] limits1] eqn:H1.
    + destruct (checkLimit userId free create_sandbox (clock 2%nat) limits1)
        as [[ok2|e2] limits2] eqn:H2.
      * rewrite createSandbox_outcome.
        destruct (find _ (initial_paths input)) as [bad|].
        -- unfold on_error. cbn [path_error code fst snd sandboxManager audit].
           eexists. split; [reflexivity|]. eexists. split; reflexivity.
        -- cbn [fst snd sandboxManager audit].
           eexists. split; [reflexivity|]. eexists. split; reflexivity.
      * assert (Hc : code e2 = QUOTA_EXCEEDED)
          by (apply (checkLimit_code userId free create_sandbox (clock 2%nat) limits1);
              rewrite H2; reflexivity).
        unfold on_error. cbn [fst snd]. rewrite !Hc. cbn [sandboxManager].
        exists []. split; [symmetry; apply app_nil_r|reflexivity].
    + assert (Hc : code e1 = RATE_LIMIT_EXCEEDED)
        by (apply (checkLimit_code userId free api_call (clock 1%nat) (rateLimiter s));
            rewrite H1; reflexivity).
      unfold on_error. cbn [fst snd]. rewrite !Hc.
      cbn [sandboxManager log_rate_limited audit].
      eexists. split; reflexivity.
  - destruct (validateInput_error _ _ _ Hv) as (Hc & _).
    unfold on_error. cbn [fst snd]. rewrite !Hc.
    exists []. split; [symmetry; apply app_nil_r|reflexivity].
Qed.

(** What a refused creation costs. A call refused by validation leaves the
    limiter as it was. A call refused by the hourly sandbox quota had its
    API-call check admitted, and the limiter keeps that count: the refusal
    uses up one of the API calls of the minute. A call refused for a
    forbidden path had both checks admitted and keeps both counts, so it
    uses up one of the sandboxes of the hour although no sandbox is stored. *)
Theorem refused_creation_is_counted params userId clock random now_iso s e :
  let outcome := create_sandbox_for_project params userId clock random now_iso s in
  let first := checkLimit userId free api_call (clock 1%nat) (rateLimiter s) in
  let second := checkLimit userId free create_sandbox (clock 2%nat) (snd first) in
  fst outcome = Throw e ->
  match code e with
  | VALIDATION_ERROR => snd outcome = s
  | RATE_LIMIT_EXCEEDED =>
      rateLimiter (snd outcome) = snd first
      /\ sandboxes (sandboxManager (snd outcome)) = sandboxes (sandboxManager s)
  | QUOTA_EXCEEDED =>
      fst first = Ok true
      /\ rateLimiter (snd outcome) = snd second
      /\ sandboxManager (snd outcome) = sandboxManager s
  | PATH_TRAVERSAL =>
      fst first = Ok true /\ fst second = Ok true
      /\ rateLimiter (snd outcome) = snd second
      /\ sandboxes (sandboxManager (snd outcome)) = sandboxes (sandboxManager s)
  | _ => False
  end.
Proof.
  intros outcome first second. subst outcome first second.
  unfold create_sandbox_for_project.
  destruct (validateInput CreateSandboxInputSchema params) as [input|e0] eqn:Hv.
  - destruct (checkLimit userId free api_call (clock 1%nat) (rateLimiter s))
      as [[ok1|e1] limits1] eqn:H1.
    + assert (Hok1 : ok1 = true).
      { pose proof (f_equal fst H1) as Hf. unfold checkLimit in Hf.
        destruct (_ >=? _) in Hf; cbn [fst] in Hf; congruence. }
      subst ok1. cbn [fst snd].
      destruct (checkLimit userId free create_sandbox (clock 2%nat) limits1)
        as [[ok2|e2] limits2] eqn:H2.
      * assert (Hok2 : ok2 = true).
        { pose proof (f_equal fst H2) as Hf. unfold checkLimit in Hf.
          destruct (_ >=? _) in Hf; cbn [fst] in Hf; congruence. }
        subst ok2. rewrite createSandbox_outcome.
        destruct (find _ (initial_paths input)) as [bad|]; cbn [fst snd].
        -- unfold on_error. cbn [path_error code fst snd].
           intros H. injection H as <-.
           cbn [path_error code rateLimiter sandboxManager sandboxes].
           repeat split.
        -- intros H. discriminate H.
      * assert (Hc : code e2 = QUOTA_EXCEEDED)
          by (apply (checkLimit_code userId free create_sandbox (clock 2%nat) limits1);
              rewrite H2; reflexivity).
        unfold on_error. rewrite Hc. cbn [fst snd].
        intros H. injection H as <-. rewrite Hc.
        cbn [rateLimiter sandboxManager]. repeat split.
    + assert (Hc : code e1 = RATE_LIMIT_EXCEEDED)
        by (apply (checkLimit_code userId free api_call (clock 1%nat) (rateLimiter s));
            rewrite H1; reflexivity).
      unfold on_error. rewrite Hc. cbn [fst snd].
      intros H. injection H as <-. rewrite Hc.
      cbn [rateLimiter sandboxManager log_rate_limited sandboxes]. split; reflexivity.
  - destruct (validateInput_error _ _ _ Hv) as (Hc & _).
    unfold on_error. rewrite Hc. cbn [fst snd].
    intros H. injection H as <-. rewrite Hc. reflexivity.
Qed.

End Tools.

(** Five sandboxes created in the hour, then one more call. *)
Definition five_created : Services :=
  mkServices (snd (checkLimit_each "user3" free create_sandbox (repeat 0 5) ∅))
    empty_manager.

Lemma refused_creation_is_counted_witness :
  let outcome :=
    create_sandbox_for_project (fun _ => Ok (mkCreateSandboxInput "demo" "react" None))
      [("project_name", JString "demo"); ("template", JString "react")]
      "user3" (fun _ => 0) (fun _ => 7) "2025-01-01T00:00:00.000Z" five_created in
  fst outcome = Throw (sandbox_quota_error (Some 3600))
  /\ current (apiCalls (getUsageStats "user3" free (rateLimiter (snd outcome)))) = 1
  /\ sandboxManager (snd outcome) = empty_manager.
Proof.
  intros outcome.
  assert (Hthrown : fst outcome = Throw (sandbox_quota_error (Some 3600)))
    by (vm_compute; reflexivity).
  pose proof (refused_creation_is_counted
                (fun _ => Ok (mkCreateSandboxInput "demo" "react" None))
                [("project_name", JString "demo"); ("template", JString "react")]
                "user3" (fun _ => 0) (fun _ => 7) "2025-01-01T00:00:00.000Z"
                five_created (sandbox_quota_error (Some 3600)) Hthrown)
    as (_ & Hlimiter & Hmanager).
  split; [exact Hthrown|]. split; [|exact Hmanager].
  unfold outcome. rewrite Hlimiter. vm_compute. reflexivity.
Defined.

End SandboxTools.


(** ** services/github-manager.ts: what is checked before GitHub is called *)

Module GitHubOperations.
Import JsString ErrorHandler PathValidator GitHubManager Config SandboxManager.

(** [CommitToPushInput]; the properties of [files] in the order
    [Object.keys] lists them. *)
Record CommitToPushInput : Type := mkCommitToPushInput {
  repo_id : string;
  branch : string;
  files : list (string * string);
  commit_message : string;
  create_pr : option bool;
  pr_title : option string
}.


(** [this.tokenMap[repoId]]: the value of an own property, a property
    inherited from [Object.prototype], or [undefined]. *)
Inductive TokenValue : Type :=
| Token (value : string)
| Inherited
| Undefined.

Definition token_of (tokenMap : JsRecord string) (repoId : string) : TokenValue :=
  match own tokenMap !! repoId with
  | Some value => Token value
  | None =>
      match proto tokenMap with
      | ObjectPrototype =>
          if bool_decide (repoId ∈ Object_prototype_properties) then Inherited
          else Undefined
      | NullPrototype => Undefined
      end
  end.




(** The checks of [commitAndPush] that precede the first request:
    [assertValidRepoId], [assertValidBranchName], [assertValidFilePath] on
    every key, [getOctokit] (which asserts the repository again and reads
    its token) and [parseRepoId]. *)
Definition checked (input : CommitToPushInput) (tokenMap : JsRecord string)
  : Result MCPError (TokenValue * string * string) :=
  match assertValidRepoId (repo_id input) tokenMap with
  | Throw e => Throw e
  | Ok _ =>
      match assertValidBranchName (branch input) with
      | Throw e => Throw e
      | Ok _ =>
          match assert_each (map fst (files input)) with
          | Throw e => Throw e
          | Ok _ =>
              match assertValidRepoId (repo_id input) tokenMap with
              | Throw e => Throw e
              | Ok _ =>
                  let token := token_of tokenMap (repo_id input) in
                  match parseRepoId (repo_id input) with
                  | Throw e => Throw e
                  | Ok (owner, repo) => Ok (token, owner, repo)
                  end
              end
          end
      end
  end.




Lemma includes_slash_app owner repo :
  includes (owner +:+ "/" +:+ repo) "/" = true.
Proof.
  unfold includes. apply includes_chars_spec.
  exists (chars owner), (chars repo). rewrite !chars_append. reflexivity.
Qed.


(** With the token map read from the environment, a commit reaches GitHub
    only for a repository that the environment names: when all the checks
    of [commitAndPush] pass, some variable [CSB_GITHUB_TOKEN_<suffix>] has
    the repository id as its suffix, up to the case of the letters, its
    value is not empty, and that value is the token the requests are made
    with. The suffix therefore holds the slash of the id. *)
Theorem commit_needs_variable_named_after_repository env input token owner repo :
  checked input (githubTokenMap env) = Ok (token, owner, repo) ->
  exists suffix value,
    token = Token value
    /\ In (TOKEN_PREFIX +:+ suffix, value) env
    /\ value <> ""
    /\ toLowerCase suffix = repo_id input
    /\ repo_id input = owner +:+ "/" +:+ repo.
Proof.
  unfold checked. intros H.
  destruct (assertValidRepoId (repo_id input) (githubTokenMap env)) as [[]|e] eqn:Hrepo;
    [|discriminate H].
  destruct (assertValidBranchName (branch input)); [|discriminate H].
  destruct (assert_each (map fst (files input))); [|discriminate H].
  destruct (parseRepoId (repo_id input)) as [[owner' repo']|e] eqn:Hparse;
    [|discriminate H].
  injection H as <- <- <-.
  apply parseRepoId_ok_iff in Hparse as (Hid & _ & _).
  assert (Hvalid : validateRepoId (repo_id input) (githubTokenMap env) = true).
  { unfold assertValidRepoId in Hrepo.
    destruct (validateRepoId (repo_id input) (githubTokenMap env));
      [reflexivity|discriminate Hrepo]. }
  assert (Hconf : configured (repo_id input) (githubTokenMap env)).
  { apply validateRepoId_closed_world_with_slash; [|exact Hvalid].
    rewrite Hid. apply includes_slash_app. }
  destruct Hconf as [value Hvalue].
  destruct (configured_token_origin env _ _ Hvalue) as (suffix & Hin & Hne & Hs).
  exists suffix, value. unfold token_of. rewrite Hvalue. repeat split; assumption.
Qed.

Lemma commit_needs_variable_named_after_repository_witness :
  exists suffix value,
    Token "github_pat_x" = Token value
    /\ In (TOKEN_PREFIX +:+ suffix, value)
         [("HOME", "/root"); ("CSB_GITHUB_TOKEN_Owner1/Repo1", "github_pat_x")]
    /\ value <> ""
    /\ toLowerCase suffix = "owner1/repo1"
    /\ "owner1/repo1" = "owner1" +:+ "/" +:+ "repo1".
Proof.
  apply (commit_needs_variable_named_after_repository
           [("HOME", "/root"); ("CSB_GITHUB_TOKEN_Owner1/Repo1", "github_pat_x")]
           (mkCommitToPushInput "owner1/repo1" "feature/x" [("src/a.ts", "export {}")]
              "add a" None None)
           (Token "github_pat_x") "owner1" "repo1").
  vm_compute. reflexivity.
Defined.

End GitHubOperations.
